(** * Trend estimation for lighthouse sea-surface temperature records

    A shallow embedding of [trend_estimation.py] and the properties of its
    trend-significance engine.

    Modelling conventions.
    - A [float] (Python float, numpy float64) is a real number of [R]; rounding
      is not modelled, so every equation below is an equation of exact
      arithmetic.  The values nan and inf appear only where the source itself
      tests for them ([np.isfinite] in [TheilSen_Cummins]); there a float that
      may be non-finite is an [option R], [None] standing for nan or inf.
      Elsewhere a float division by zero or the root of a negative number,
      nan or inf in numpy, has the value [R] gives it; the statements below
      either keep the divisor away from zero or have the same expression on
      both sides.
    - A Python [int] is a [nat] where the source only counts and indexes with
      it, and a [Z] where a difference may become negative.
    - A Python exception is a value [Raise e] of the type [result]; a function
      that ends without a [return] value gives [None].
    - Accumulating loops ([x += ...] in a [for]) are left folds over the
      range, in the order of the source.
    - Library calls whose code is not part of the repository (the random
      generator, the regressions, [acovf], [t.ppf]) are fields of the class
      [Library].
    - Files are not read or written: a station is the data frame that
      [pd.read_csv] gives for its file, and the rows that a driver adds to
      [df_res] are returned in the order of its loop.  The interpolation
      [interp1d] of scipy is a parameter of the functions that call it. *)

From Stdlib Require Import String Reals Lra Lia List ZArith Bool Arith.
Import ListNotations.
Open Scope R_scope.

(** ** Exceptions and the error monad *)

Inductive exn : Type :=
| ZeroDivisionError
| IndexError
| TypeError
| ValueError
| UnboundLocalError (name : string).

Inductive result (A : Type) : Type :=
| Ok (a : A)
| Raise (e : exn).
Arguments Ok {A} a.
Arguments Raise {A} e.

Definition bind {A B : Type} (r : result A) (k : A -> result B) : result B :=
  match r with
  | Ok a => k a
  | Raise e => Raise e
  end.

Definition rmap {A B : Type} (f : A -> B) (r : result A) : result B :=
  bind r (fun a => Ok (f a)).

Notation "x <- r ;; k" := (bind r (fun x => k))
  (at level 61, r at next level, right associativity).

(** ** numpy and builtin helpers *)

(** [sum(l)]: left to right, starting from 0. *)
Definition np_sum (l : list R) : R := fold_left Rplus l 0.

(** [np.mean(l)] *)
Definition np_mean (l : list R) : R := np_sum l / INR (length l).

(** [l + c] for an array [l] and a scalar [c] *)
Definition np_add_scalar (l : list R) (c : R) : list R :=
  map (fun v => v + c) l.

(** ** Autocovariance and integral timescale (Thomson & Emery 3.139a, 3.137a) *)

(** [C(k, y)].  The indices [i] and [i + k] of the loop are below [N], so the
    default of [nth] is never read.  [1 / (N - 1 - k)] divides Python ints and
    raises when the divisor is 0. *)
Definition C (k : nat) (y : list R) : result R :=
  let N := length y in
  let y_bar := np_mean y in
  let C_k :=
    fold_left
      (fun acc i => acc + (nth i y 0 - y_bar) * (nth (i + k) y 0 - y_bar))
      (seq 0 (N - k)) 0 in
  let d := (Z.of_nat N - 1 - Z.of_nat k)%Z in
  if (d =? 0)%Z then Raise ZeroDivisionError
  else Ok (C_k * (1 / IZR d)).

(** The body of the [for k in range(0, m - 1)] loop of
    [integral_timescale_discrete], from accumulator [T]. *)
Fixpoint timescale_loop (dtau : R) (y : list R) (ks : list nat) (T : R)
  : result R :=
  match ks with
  | [] => Ok T
  | k :: ks' =>
      c1 <- C (k + 1) y ;;
      c0 <- C k y ;;
      timescale_loop dtau y ks' (T + dtau / 2 * (c1 + c0))
  end.

Definition integral_timescale_discrete (dtau : R) (y : list R) (m : nat)
  : result R :=
  T <- timescale_loop dtau y (seq 0 (m - 1)) 0 ;;
  c0 <- C 0 y ;;
  Ok (T * (2 / c0)).

Definition effective_sample_size (N : nat) (dt T : R) : R :=
  INR N * dt / T.

(** The estimator of the specification: sum of squared deviations from the
    mean over [N - 1]. *)
Definition sample_variance (y : list R) : R :=
  np_sum (map (fun v => (v - np_mean y) * (v - np_mean y)) y)
  / (INR (length y) - 1).

(** A series is constant when all its values are the same. *)
Definition constant_series (y : list R) : Prop :=
  forall i j, (i < length y)%nat -> (j < length y)%nat ->
              nth i y 0 = nth j y 0.

(** ** Comparisons of floats as booleans *)

Definition Rleb (x y : R) : bool := if Rle_dec x y then true else false.
Definition Rltb (x y : R) : bool := if Rlt_dec x y then true else false.
Definition Reqb (x y : R) : bool := if Req_dec_T x y then true else false.

(** [a[i] = v] on a list standing for an array; the callers below only write
    inside the array. *)
Fixpoint set_nth {A : Type} (i : nat) (v : A) (l : list A) : list A :=
  match l, i with
  | [], _ => []
  | _ :: t, O => v :: t
  | x :: t, S i' => x :: set_nth i' v t
  end.

(** ** Library calls

    [rng_state] is the state of numpy's global generator: [np.random.seed]
    overwrites it, [np.random.random_sample] reads and advances it.  The fit
    of [TheilSenRegressor] gives the attribute [coef_]; [sm.OLS(...).fit()]
    for the formula [Anomaly ~ Date] gives an [ols_result].  A field is the
    value of the call for arguments that the library accepts; where the
    source can pass arguments that it rejects (arrays of different lengths,
    a maximum lag beyond the series, an empty record), the function that
    makes the call tests for them and raises the exception of the library. *)

Record ols_result : Type := {
  params_Intercept : R;
  params_Date : R;
  fittedvalues : list R;
  conf_int_Date : R * R;
  df_resid : R
}.

Class Library : Type := {
  rng_state : Type;
  np_random_seed : nat -> rng_state;
  np_random_random_sample : nat -> rng_state -> list R * rng_state;
  TheilSenRegressor_fit : option Z -> list R -> list R -> list R;
  OLS_fit : list R -> list R -> ols_result;
  acovf : list R -> nat -> list R;
  t_ppf : R -> R -> R
}.

(** ** Analytic confidence limit (Thomson & Emery 3.134 - 3.136a) *)

(** [(y - y_est) ** 2], elementwise *)
Definition sq_diffs (y y_est : list R) : list R :=
  map (fun p => (fst p - snd p) * (fst p - snd p)) (combine y y_est).

Definition standard_error_of_estimate (y y_est : list R) : result R :=
  let N := Z.of_nat (length y) in
  if (N - 2 =? 0)%Z then Raise ZeroDivisionError
  else Ok (sqrt (1 / IZR (N - 2) * np_sum (sq_diffs y y_est))).

Definition std_dev_x (x : list R) : result R :=
  let N := Z.of_nat (length x) in
  let x_bar := np_mean x in
  if (N - 1 =? 0)%Z then Raise ZeroDivisionError
  else Ok (sqrt (1 / IZR (N - 1)
                 * np_sum (map (fun v => (v - x_bar) * (v - x_bar)) x))).

Section Analytic.
Context {L : Library}.

Definition conf_limit (s_eta N_star s_x : R) : R :=
  let deg_freedom := N_star - 2 in
  let alpha := 5 / 100 in
  (s_eta * t_ppf (1 - alpha / 2) deg_freedom) / (sqrt (N_star - 1) * s_x).

(** One row of the table of [main_te]. *)
Record te_row : Type := {
  Record_length : nat;
  Original_degrees_of_freedom : Z;
  Effective_degrees_of_freedom : R;
  OLS_slope : option R;
  Original_confidence_limit : option R;
  Effective_confidence_limit : option R
}.

Definition getitem (l : list R) (i : nat) : result R :=
  match nth_error l i with
  | Some v => Ok v
  | None => Raise IndexError
  end.

(** The body of the loop of [main_te] for one station, from the output
    [(xx, yy_filled)] of [treat_nans]. *)
Definition main_te_station (compute_cis : bool) (delta_tau_factor : R)
    (nlag_vals_to_use : nat) (xx yy_filled : list R) : result te_row :=
  let NN := length yy_filled in
  x1 <- getitem xx 1 ;;
  x0 <- getitem xx 0 ;;
  let time_step := x1 - x0 in
  let delta_tau := delta_tau_factor * time_step in
  it <- integral_timescale_discrete delta_tau yy_filled nlag_vals_to_use ;;
  let ESS := effective_sample_size NN time_step it in
  let N_star := ESS - 2 in
  if compute_cis then
    let res := OLS_fit xx yy_filled in
    let y_estimate := fittedvalues res in
    SEE <- standard_error_of_estimate yy_filled y_estimate ;;
    SDX <- std_dev_x xx ;;
    let CI_effective := conf_limit SEE N_star SDX in
    let CI_original :=
      (snd (conf_int_Date res) - fst (conf_int_Date res)) / 2 in
    Ok {| Record_length := NN;
          Original_degrees_of_freedom := Z.of_nat NN - 2;
          Effective_degrees_of_freedom := N_star;
          OLS_slope := Some (params_Date res * 100);
          Original_confidence_limit := Some (CI_original * 100);
          Effective_confidence_limit := Some (CI_effective * 100) |}
  else
    Ok {| Record_length := NN;
          Original_degrees_of_freedom := Z.of_nat NN - 2;
          Effective_degrees_of_freedom := N_star;
          OLS_slope := None;
          Original_confidence_limit := None;
          Effective_confidence_limit := None |}.

End Analytic.

(** The confidence limit of the specification, from the effective sample
    size [N_eff] itself. *)
Definition spec_conf_limit {L : Library} (s_eta N_eff s_x : R) : R :=
  s_eta * t_ppf (975 / 1000) (N_eff - 2) / (sqrt (N_eff - 1) * s_x).

(** ** Complex numbers and the discrete Fourier transform *)

Record complex : Type := mkC { re : R; im : R }.

Definition C0 : complex := mkC 0 0.
Definition RtoC (x : R) : complex := mkC x 0.
Definition Cadd (a b : complex) : complex := mkC (re a + re b) (im a + im b).
Definition Cmul (a b : complex) : complex :=
  mkC (re a * re b - im a * im b) (re a * im b + im a * re b).
Definition Cscale (r : R) (a : complex) : complex := mkC (r * re a) (r * im a).
Definition Cabs (a : complex) : R := sqrt (re a * re a + im a * im a).
(** [np.exp(1j * theta)] *)
Definition Cexp_i (theta : R) : complex := mkC (cos theta) (sin theta).
Definition Csum (l : list complex) : complex := fold_left Cadd l C0.

(** [scipy.fft.fft]: X[k] = sum over n of x[n] exp(-2 pi i k n / N) *)
Definition fft (x : list complex) : list complex :=
  let N := length x in
  map (fun k =>
         Csum (map (fun n => Cmul (nth n x C0)
                               (Cexp_i (- (2 * PI * INR k * INR n / INR N))))
                 (seq 0 N)))
    (seq 0 N).

(** [scipy.fft.ifft]: x[n] = (1/N) sum over k of X[k] exp(2 pi i k n / N) *)
Definition ifft (X : list complex) : list complex :=
  let N := length X in
  map (fun n =>
         Cscale (1 / INR N)
           (Csum (map (fun k => Cmul (nth k X C0)
                                  (Cexp_i (2 * PI * INR k * INR n / INR N)))
                    (seq 0 N))))
    (seq 0 N).

(** [abs(fft(x))] of a real series that is not empty.  For an empty array
    [fft] of scipy raises [ValueError]; [monte_carlo_trend] below raises it
    before it uses the amplitudes. *)
Definition amplitude_spectrum (x : list R) : list R :=
  map Cabs (fft (map RtoC x)).

(** [data_mag * np.exp(1j * ph_ang)] *)
Definition synthetic_spectrum (data_mag ph_ang : list R) : list complex :=
  map (fun p => Cscale (fst p) (Cexp_i (snd p))) (combine data_mag ph_ang).

(** [np.sqrt(2) * np.real(ifft(dummy_fft))] *)
Definition surrogate (data_mag ph_ang : list R) : list R :=
  map (fun z => sqrt 2 * re z) (ifft (synthetic_spectrum data_mag ph_ang)).

(** ** Sums over index ranges and sampled angles *)

(** The sum of [f n] over [n < N] *)
Definition sum_upto (N : nat) (f : nat -> R) : R :=
  np_sum (map f (seq 0 N)).

(** The angle [2 pi m n / N] of the transforms *)
Definition angle (N m n : nat) : R :=
  2 * PI * INR m * INR n / INR N.

(** The distance of two indices *)
Definition gap (j k : nat) : nat :=
  if (k <=? j)%nat then (j - k)%nat else (k - j)%nat.

Definition indicator (b : bool) : R := if b then 1 else 0.

(** The frequency [N - k], which is 0 for [k = 0] *)
Definition mirror (N k : nat) : nat := ((N - k) mod N)%nat.

(** ** From-scratch Theil-Sen regression *)

(** A numpy array: its shape and its values in row-major order. *)
Record ndarray : Type := { shape : list nat; flat : list R }.

(** [data[i, j]] of a two-dimensional array *)
Definition get2 (data : ndarray) (i j : nat) : R :=
  nth (i * nth 1 (shape data) 0%nat + j) (flat data) 0.

(** [np.array([x, y]).T] for two sequences of one length *)
Definition column_pair (x y : list R) : result ndarray :=
  if (length x =? length y)%nat then
    Ok {| shape := [length x; 2%nat];
          flat := flat_map (fun p => [fst p; snd p]) (combine x y) |}
  else Raise ValueError.

Inductive message : Type :=
| Msg_number_of_points (npts : nat)
| Msg_expecting_MxD
| Msg_more_than_1_coefficient (coef : list R).

Fixpoint insert_sorted (v : R) (l : list R) : list R :=
  match l with
  | [] => [v]
  | x :: t => if Rle_dec v x then v :: l else x :: insert_sorted v t
  end.

Definition sort (l : list R) : list R := fold_right insert_sorted [] l.

(** [np.median]: the middle value of the sorted values, the mean of the two
    middle values for an even count, nan for no value at all. *)
Definition np_median (l : list R) : option R :=
  let s := sort l in
  let n := length s in
  if (n =? 0)%nat then None
  else if Nat.even n then
         Some ((nth (n / 2 - 1) s 0 + nth (n / 2) s 0) / 2)
       else Some (nth (n / 2) s 0).

(** [(data[i, 1] - data[j, 1]) / (data[i, 0] - data[j, 0])]: the quotient is
    nan or inf exactly when the x values agree. *)
Definition pairwise_slope (data : ndarray) (i j : nat) : option R :=
  let dx := get2 data i 0 - get2 data j 0 in
  if Req_dec_T dx 0 then None
  else Some ((get2 data i 1 - get2 data j 1) / dx).

(** Row [i] of [CC] after [CC[i, i:] = ...]: nan left of the diagonal. *)
Definition CC_row (data : ndarray) (M i : nat) : list (option R) :=
  map (fun j => if (j <? i)%nat then None else pairwise_slope data i j)
    (seq 0 M).

Definition CC_matrix (data : ndarray) (M : nat) : list (list (option R)) :=
  map (CC_row data M) (seq 0 M).

(** [a[np.isfinite(a)]] on flattened values *)
Fixpoint finite_values (l : list (option R)) : list R :=
  match l with
  | [] => []
  | Some v :: t => v :: finite_values t
  | None :: t => finite_values t
  end.

Definition TheilSen_fit : Type :=
  (option R * option R * list (list (option R)))%type.

(** [TheilSen_Cummins(data)]: the returned value, [None] when the function
    ends without a [return] value, and what it printed.  The values of
    [data] are finite, so [kd] selects every row. *)
Definition TheilSen_Cummins (data : ndarray)
  : option TheilSen_fit * list message :=
  let sz := shape data in
  if negb (length sz =? 2)%nat || (nth 0 sz 0 <? 2)%nat then
    (None, [Msg_expecting_MxD])
  else if (nth 1 sz 0 =? 2)%nat then
    let M := nth 0 sz 0%nat in
    let CC := CC_matrix data M in
    let m := np_median (finite_values (concat CC)) in
    let bb :=
      match m with
      | Some mv =>
          np_median (map (fun i => get2 data i 1 - mv * get2 data i 0)
                       (seq 0 M))
      | None => None
      end in
    (Some (m, bb, CC), [])
  else (None, []).

(** [r[0]] on the value returned by [TheilSen_Cummins] *)
Definition fit_getitem0 (r : option TheilSen_fit) : result (option R) :=
  match r with
  | Some (m, _, _) => Ok m
  | None => Raise TypeError
  end.

(** ** Monte Carlo trend simulator *)

Record mc_arrays : Type := {
  siml_trends : list (option R);
  siml_acvf : list (list R);
  mean_spec : list R
}.

(** How an iteration of the loop ends: the loop goes on, or the function
    returns [None] at once. *)
Inductive flow (A : Type) : Type :=
| Next (a : A)
| Return_None.
Arguments Next {A} a.
Arguments Return_None {A}.

Section MonteCarlo.
Context {L : Library}.

(** What a run can observe and change outside its arguments. *)
Record world : Type := { rng : rng_state; stdout : list message }.

Definition print (msg : message) (w : world) : world :=
  {| rng := rng w; stdout := stdout w ++ [msg] |}.

Definition base_seed : nat := 42.

(** The slope of one trial by the selected backend.  Each backend raises
    [ValueError] when the timestamps and the surrogate differ in length: the
    library regression when it validates its two inputs, [np.array([time,
    dummy_ts]).T] for the from-scratch one, and [pd.DataFrame({'Date': time,
    'Anomaly': dummy_ts})] for the least-squares fit. *)
Definition fit_trend (time dummy_ts : list R) (ncores_to_use : option Z)
    (sen_flag : Z) (nsim : nat) (trends : list (option R)) (w : world)
  : result (flow (list (option R))) * world :=
  if (sen_flag =? 1)%Z then
    if (length time =? length dummy_ts)%nat then
      let coef_ := TheilSenRegressor_fit ncores_to_use time dummy_ts in
      if negb (length (map (fun c => Reqb c 1) coef_) =? 0)%nat then
        match getitem coef_ 0 with
        | Ok c => (Ok (Next (set_nth nsim (Some c) trends)), w)
        | Raise e => (Raise e, w)
        end
      else (Ok Return_None, print (Msg_more_than_1_coefficient coef_) w)
    else (Raise ValueError, w)
  else if (sen_flag =? 2)%Z then
    match column_pair time dummy_ts with
    | Ok data =>
        let (r, msgs) := TheilSen_Cummins data in
        let w' := {| rng := rng w; stdout := stdout w ++ msgs |} in
        match fit_getitem0 r with
        | Ok m => (Ok (Next (set_nth nsim m trends)), w')
        | Raise e => (Raise e, w')
        end
    | Raise e => (Raise e, w)
    end
  else if (length time =? length dummy_ts)%nat then
    let res := OLS_fit time dummy_ts in
    (Ok (Next (set_nth nsim (Some (params_Date res)) trends)), w)
  else (Raise ValueError, w).

(** The phases and the surrogate of trial [nsim], as the generator seeded
    with [base_seed + nsim] draws them. *)
Definition trial_phases (npts nsim : nat) : list R :=
  map (fun v => 2 * PI * v)
    (fst (np_random_random_sample npts (np_random_seed (base_seed + nsim)))).

Definition trial_series (data_mag : list R) (npts nsim : nat) : list R :=
  surrogate data_mag (trial_phases npts nsim).

(** One iteration of [for nsim in trange(max_siml)].  [acovf] of statsmodels
    raises [ValueError] when [nlag] is more than the number of observations
    minus 1; otherwise it returns [nlag + 1] values, which fit the row
    [siml_acvf[nsim, :]]. *)
Definition trial (maxlag : nat) (time data_mag : list R) (npts : nat)
    (ncores_to_use : option Z) (sen_flag : Z) (nsim : nat)
    (a : mc_arrays) (w : world) : result (flow mc_arrays) * world :=
  let w1 := {| rng := np_random_seed (base_seed + nsim);
               stdout := stdout w |} in
  let (u, g) := np_random_random_sample npts (rng w1) in
  let w2 := {| rng := g; stdout := stdout w1 |} in
  let ph_ang := map (fun v => 2 * PI * v) u in
  let dummy_ts := surrogate data_mag ph_ang in
  let spec := map (fun p => fst p + snd p * snd p / INR npts)
                (combine (mean_spec a) (amplitude_spectrum dummy_ts)) in
  match fit_trend time dummy_ts ncores_to_use sen_flag nsim (siml_trends a) w2
  with
  | (Ok (Next trends), w3) =>
      if (length dummy_ts <=? maxlag)%nat then (Raise ValueError, w3)
      else
        let xc := acovf dummy_ts maxlag in
        (Ok (Next {| siml_trends := trends;
                     siml_acvf := set_nth nsim xc (siml_acvf a);
                     mean_spec := spec |}), w3)
  | (Ok Return_None, w3) => (Ok Return_None, w3)
  | (Raise e, w3) => (Raise e, w3)
  end.

Fixpoint trials (maxlag : nat) (time data_mag : list R) (npts : nat)
    (ncores_to_use : option Z) (sen_flag : Z) (nsims : list nat)
    (a : mc_arrays) (w : world) : result (flow mc_arrays) * world :=
  match nsims with
  | [] => (Ok (Next a), w)
  | nsim :: rest =>
      match trial maxlag time data_mag npts ncores_to_use sen_flag nsim a w
      with
      | (Ok (Next a'), w') =>
          trials maxlag time data_mag npts ncores_to_use sen_flag rest a' w'
      | other => other
      end
  end.

(** [np.std]: the root of the mean squared deviation *)
Definition np_std (l : list R) : R :=
  sqrt (np_mean (map (fun v => (v - np_mean l) * (v - np_mean l)) l)).

Definition mc_output : Type := (list (option R) * R * R * list R)%type.

(** [monte_carlo_trend].  [fft(data_record)] of scipy raises [ValueError]
    for an empty record, after the number of points is printed and before
    the first trial. *)
Definition monte_carlo_trend (max_siml maxlag : nat) (time data_record : list R)
    (ncores_to_use : option Z) (sen_flag : Z) (w : world)
  : result (option mc_output) * world :=
  let npts := length data_record in
  let w0 := print (Msg_number_of_points npts) w in
  let a0 := {| siml_trends := repeat (Some 0) max_siml;
               siml_acvf := repeat (repeat 0 (maxlag + 1)) max_siml;
               mean_spec := repeat 0 npts |} in
  if (npts =? 0)%nat then (Raise ValueError, w0)
  else
    let data_mag := amplitude_spectrum data_record in
    match trials maxlag time data_mag npts ncores_to_use sen_flag
            (seq 0 max_siml) a0 w0 with
    | (Ok (Next a), w') =>
        let mean_acvf := np_mean (concat (siml_acvf a)) in
        let std_acvf := np_std (concat (siml_acvf a)) in
        let mean_spec' := map (fun v => v / INR max_siml) (mean_spec a) in
        (Ok (Some (siml_trends a, mean_acvf, std_acvf, mean_spec')), w')
    | (Ok Return_None, w') => (Ok None, w')
    | (Raise e, w') => (Raise e, w')
    end.

End MonteCarlo.

(** ** Empirical percentile extractor (in [calc_trend]) *)

Definition nbins_of (max_siml : nat) : nat :=
  if (500 <=? max_siml)%nat then 100%nat else 5%nat.

(** The range of [np.histogram] when none is given: (0, 1) for no data, the
    minimum and maximum otherwise, widened by one half on each side when they
    agree. *)
Definition outer_edges (a : list R) : R * R :=
  match a with
  | [] => (0, 1)
  | x :: t =>
      let first_edge := fold_left Rmin t x in
      let last_edge := fold_left Rmax t x in
      if Req_dec_T first_edge last_edge
      then (first_edge - 5 / 10, last_edge + 5 / 10)
      else (first_edge, last_edge)
  end.

(** [np.linspace(start, stop, n + 1)] *)
Definition linspace (start stop : R) (n : nat) : list R :=
  map (fun j => if (j =? n)%nat then stop
                else start + INR j * ((stop - start) / INR n))
    (seq 0 (n + 1)).

(** Bin [j] of [nbins] takes the values from its left edge up to its right
    edge, which belongs to it only in the last bin. *)
Definition in_bin (edges : list R) (nbins j : nat) (v : R) : bool :=
  Rleb (nth j edges 0) v
  && (if (j =? nbins - 1)%nat then Rleb v (nth (j + 1) edges 0)
      else Rltb v (nth (j + 1) edges 0)).

(** [np.histogram(a, bins=nbins)] for finite values and [nbins >= 1] *)
Definition np_histogram (a : list R) (nbins : nat) : list nat * list R :=
  let (first_edge, last_edge) := outer_edges a in
  let bin_edges := linspace first_edge last_edge nbins in
  (map (fun j => length (filter (in_bin bin_edges nbins j) a)) (seq 0 nbins),
   bin_edges).

(** The array [N] of [calc_trend]: [N[k] = sum(count[:k] / N_input)]. *)
Definition empirical_cdf (count : list nat) (nbins : nat) : list R :=
  let N_input := fold_left Nat.add count 0%nat in
  map (fun k => np_sum (map (fun c => INR c / INR N_input) (firstn k count)))
    (seq 0 nbins).

(** The two local variables of [calc_trend] that the scan may assign;
    [None] is a name not yet bound. *)
Record locals : Type := {
  temp_conf_int_low : option R;
  temp_conf_int_high : option R
}.

Definition unbound : locals :=
  {| temp_conf_int_low := None; temp_conf_int_high := None |}.

Definition alim_low : R := 25 / 1000.
Definition alim_high : R := 975 / 1000.

Definition straddles_low (N : list R) (n : nat) : bool :=
  Rltb (nth n N 0) alim_low && Rleb alim_low (nth (n + 1) N 0).

Definition straddles_high (N : list R) (n : nat) : bool :=
  Rleb (nth n N 0) alim_high && Rltb alim_high (nth (n + 1) N 0).

Definition midpoint (bin_edges : list R) (n : nat) : R :=
  5 / 10 * (nth n bin_edges 0 + nth (n + 1) bin_edges 0).

(** The body of [for n in range(nbins - 1)] *)
Definition scan_step (N bin_edges : list R) (env : locals) (n : nat) : locals :=
  let env1 :=
    if straddles_low N n
    then {| temp_conf_int_low := Some (midpoint bin_edges n);
            temp_conf_int_high := temp_conf_int_high env |}
    else env in
  if straddles_high N n
  then {| temp_conf_int_low := temp_conf_int_low env1;
          temp_conf_int_high := Some (midpoint bin_edges n) |}
  else env1.

Definition scan_bounds (N bin_edges : list R) (nbins : nat) (env : locals)
  : locals :=
  fold_left (scan_step N bin_edges) (seq 0 (nbins - 1)) env.

(** What a scan leaves in one variable: the value [f n] of the last [n]
    that satisfies [p], or the value before the scan. *)
Definition last_assigned (p : nat -> bool) (f : nat -> R) (ns : list nat)
    (v : option R) : option R :=
  fold_left (fun acc n => if p n then Some (f n) else acc) ns v.

(** [temp_conf_int_95 = 0.5 * (-temp_conf_int_low + temp_conf_int_high)] *)
Definition half_width (env : locals) : result R :=
  match temp_conf_int_low env with
  | None => Raise (UnboundLocalError "temp_conf_int_low")
  | Some lo =>
      match temp_conf_int_high env with
      | None => Raise (UnboundLocalError "temp_conf_int_high")
      | Some hi => Ok (5 / 10 * (- lo + hi))
      end
  end.

(** Lines 562 - 587 of [calc_trend] for one station: from the simulated
    slopes and the local variables as the earlier stations left them, to
    [temp_conf_int_95] and the local variables afterwards. *)
Definition percentile_extractor (max_siml : nat) (siml : list R) (env : locals)
  : result R * locals :=
  let nbins := nbins_of max_siml in
  let (count, bin_edges) := np_histogram siml nbins in
  let N := empirical_cdf count nbins in
  let env' := scan_bounds N bin_edges nbins env in
  (half_width env', env').

(** The arrays [count], [bin_edges] and [N] of [calc_trend] for one
    station. *)
Definition station_count (max_siml : nat) (siml : list R) : list nat :=
  fst (np_histogram siml (nbins_of max_siml)).

Definition station_bin_edges (max_siml : nat) (siml : list R) : list R :=
  snd (np_histogram siml (nbins_of max_siml)).

Definition station_N (max_siml : nat) (siml : list R) : list R :=
  empirical_cdf (station_count max_siml siml) (nbins_of max_siml).

(** The stations of one run, in order: the loop stops at the first
    exception, and the local variables pass from one station to the next. *)
Fixpoint extract_stations (max_siml : nat) (stations : list (list R))
    (env : locals) : result (list R) :=
  match stations with
  | [] => Ok []
  | siml :: rest =>
      let (r, env') := percentile_extractor max_siml siml env in
      ci <- r ;;
      cis <- extract_stations max_siml rest env' ;;
      Ok (ci :: cis)
  end.

(** The predictor grows from each observation to the next ones. *)
Definition strictly_increasing (x : list R) : Prop :=
  forall i j, (i < j)%nat -> (j < length x)%nat -> nth i x 0 < nth j x 0.

(** The noiseless line [y = a x + b] over the predictor [x] *)
Definition on_line (a b : R) (x : list R) : list R :=
  map (fun v => a * v + b) x.

(** ** Closed-form stand-ins for the library calls

    Least squares in closed form, a generator that always draws 0, and a
    critical value that is positive and decreases with the degrees of
    freedom: enough to run the model on concrete inputs. *)

Definition closed_form_ols (x y : list R) : ols_result :=
  let x_bar := np_mean x in
  let y_bar := np_mean y in
  let slope :=
    np_sum (map (fun p => (fst p - x_bar) * (snd p - y_bar)) (combine x y))
    / np_sum (map (fun v => (v - x_bar) * (v - x_bar)) x) in
  let intercept := y_bar - slope * x_bar in
  {| params_Intercept := intercept;
     params_Date := slope;
     fittedvalues := map (fun v => intercept + slope * v) x;
     conf_int_Date := (slope, slope);
     df_resid := INR (length x) - 2 |}.

Definition stand_in_library : Library :=
  {| rng_state := nat;
     np_random_seed := fun n => n;
     np_random_random_sample := fun npts g => (repeat 0 npts, S g);
     TheilSenRegressor_fit := fun _ x y => [params_Date (closed_form_ols x y)];
     OLS_fit := closed_form_ols;
     acovf := fun _ nlag => repeat 0 (nlag + 1);
     t_ppf := fun _ d => 2 + 1 / d |}.

(** A record of eight months with the pattern + + - -. *)
Definition months8 : list R := [0; 1; 2; 3; 4; 5; 6; 7].
Definition anomaly8 : list R := [1; 1; -1; -1; 1; 1; -1; -1].

(** Simulated slopes of two stations in a run of 50 trials: 49 slopes of 0
    and one of 10, and 48 slopes of 0 and two of 1. *)
Definition station_A : list R := repeat 0 49 ++ repeat 10 1.
Definition station_B : list R := repeat 0 48 ++ repeat 1 2.

(** ** Reading a station: [flatten_dframe], [nans_to_strip], [treat_nans] *)

(** A two-dimensional array of floats is the list of its rows here.
    [np.meshgrid(a, b)] gives two arrays of [len(b)] rows and [len(a)]
    columns: the first has [a] in every row, the second has [b[j]]
    throughout row [j]. *)
Definition np_meshgrid (a b : list R) : list (list R) * list (list R) :=
  (map (fun _ => a) b, map (fun v => map (fun _ => v) a) b).

(** [m.T] for an array [m] of [ncols] columns *)
Definition np_transpose (m : list (list R)) (ncols : nat) : list (list R) :=
  map (fun j => map (fun row => nth j row 0) m) (seq 0 ncols).

(** [a + b] for two arrays of one shape *)
Definition np_add2d (a b : list (list R)) : list (list R) :=
  map (fun rows => map (fun p => fst p + snd p)
                     (combine (fst rows) (snd rows)))
    (combine a b).

(** A data frame of monthly values: the row labels [df.index.to_numpy(float)]
    and the rows of [df.to_numpy(float)], a missing value (NaN) being
    [None]. *)
Record DataFrame : Type := {
  index : list R;
  values : list (list (option R))
}.

Definition flatten_dframe (df : DataFrame) : list R * list (option R) :=
  let years := index df in
  let months := removelast (linspace 0 1 12) in
  let (years2d, months2d) := np_meshgrid years months in
  let x := concat (np_add2d (np_transpose years2d (length years))
                     (np_transpose months2d (length years))) in
  let y := concat (values df) in
  (x, y).

(** [nstrip[i, :] = row] on an array of rows; there must be a row [i]. *)
Definition set_row (i : nat) (row : nat * nat) (nstrip : list (nat * nat))
  : result (list (nat * nat)) :=
  if (i <? length nstrip)%nat then Ok (set_nth i row nstrip)
  else Raise IndexError.

Definition nans_to_strip (N : nat) : result (list (nat * nat)) :=
  let nstrip := repeat (0%nat, 0%nat) N in
  nstrip <- set_row 0 (7, 8)%nat nstrip ;;
  nstrip <- set_row 1 (3, 8)%nat nstrip ;;
  nstrip <- set_row 2 (3, 8)%nat nstrip ;;
  nstrip <- set_row 3 (4, 36)%nat nstrip ;;
  nstrip <- set_row 4 (0, 8)%nat nstrip ;;
  nstrip <- set_row 5 (50, 9)%nat nstrip ;;
  nstrip <- set_row 6 (0, 8)%nat nstrip ;;
  nstrip <- set_row 7 (1, 8)%nat nstrip ;;
  Ok nstrip.

(** [a[nstart:-nend]] for [nstart >= 0] and [nend >= 0].  A negative stop
    counts from the end of the array, but [-0] is the index 0. *)
Definition slice_strip {A : Type} (a : list A) (nstart nend : nat) : list A :=
  let stop := if (nend =? 0)%nat then 0%nat else (length a - nend)%nat in
  firstn (stop - nstart) (skipn nstart a).

(** [a[mask]] for a boolean array [mask], which must have the length of
    [a]. *)
Definition boolean_index {A : Type} (a : list A) (mask : list bool)
  : result (list A) :=
  if (length a =? length mask)%nat
  then Ok (map fst (filter snd (combine a mask)))
  else Raise IndexError.

(** [pd.notna(yy)] *)
Definition pd_notna (yy : list (option R)) : list bool :=
  map (fun v => match v with Some _ => true | None => false end) yy.

Section TreatNans.

(** [interp1d(x, y, kind='slinear')(x_new)], a call of scipy: the values at
    [x_new] of the piecewise-linear function through the points of [x] and
    [y], or an exception. *)
Variable interp1d_slinear : list R -> list R -> list R -> result (list R).

Definition treat_nans (x : list R) (y : list (option R)) (nstart nend : nat)
  : result (list R * list R) :=
  let xx := slice_strip x nstart nend in
  let yy := slice_strip y nstart nend in
  xx_with_gaps <- boolean_index xx (pd_notna yy) ;;
  yy_with_gaps <- boolean_index yy (pd_notna yy) ;;
  yy_filled <- interp1d_slinear xx_with_gaps (finite_values yy_with_gaps) xx ;;
  Ok (xx, yy_filled).

End TreatNans.

(** Whole years in a row: each row label is the one before plus 1. *)
Definition consecutive_years (years : list R) : Prop :=
  forall i, (i + 1 < length years)%nat ->
            nth (i + 1) years 0 = nth i years 0 + 1.

(** ** One station of [main_ols] *)

(** [min(a)] and [max(a)] of Python, which raise for an empty sequence. *)
Definition py_min (a : list R) : result R :=
  match a with
  | [] => Raise ValueError
  | x :: t => Ok (fold_left Rmin t x)
  end.

Definition py_max (a : list R) : result R :=
  match a with
  | [] => Raise ValueError
  | x :: t => Ok (fold_left Rmax t x)
  end.

Record ols_row : Type := {
  Start_date : R;
  End_date : R;
  Number_of_observations : nat;
  OLS_degrees_of_freedom : R;
  OLS_trend : R;
  CI_95 : R
}.

Section MainOls.
Context {L : Library}.
Variable interp1d_slinear : list R -> list R -> list R -> result (list R).

(** The body of the loop of [main_ols] for one station, from its frame and
    its row [nstart, nend] of [nstrip]. *)
Definition main_ols_station (dframe : DataFrame) (nstart nend : nat)
  : result ols_row :=
  let (xx, yy) := flatten_dframe dframe in
  let xx := slice_strip xx nstart nend in
  let yy := slice_strip yy nstart nend in
  let mask_satellite_duration :=
    map (fun v => Rleb (1981 + nth 8 (linspace 0 1 12) 0) v) xx in
  xx1 <- boolean_index xx mask_satellite_duration ;;
  yy1 <- boolean_index yy mask_satellite_duration ;;
  xx_with_gaps <- boolean_index xx1 (pd_notna yy1) ;;
  yy_with_gaps <- boolean_index yy1 (pd_notna yy1) ;;
  yy_filled <- interp1d_slinear xx_with_gaps (finite_values yy_with_gaps) xx1 ;;
  let res := OLS_fit xx1 yy_filled in
  lo <- py_min xx1 ;;
  hi <- py_max xx1 ;;
  Ok {| Start_date := lo;
        End_date := hi;
        Number_of_observations := length xx1;
        OLS_degrees_of_freedom := df_resid res;
        OLS_trend := params_Date res * 100;
        CI_95 := (snd (conf_int_Date res) - fst (conf_int_Date res)) / 2
                 * 100 |}.

End MainOls.

(** [y + (a * x + c)] for two arrays of one length: the response with a
    line added. *)
Definition add_line (a c : R) (x y : list R) : list R :=
  map (fun p => snd p + (a * fst p + c)) (combine x y).

(** ** The station loops of [main_te] and [calc_trend] *)

(** [nstrip[i, 0]] and [nstrip[i, 1]]: the row [i] of the table, which must
    exist. *)
Definition get_row (nstrip : list (nat * nat)) (i : nat)
  : result (nat * nat) :=
  match nth_error nstrip i with
  | Some row => Ok row
  | None => Raise IndexError
  end.

Section MainTe.
Context {L : Library}.
Variable interp1d_slinear : list R -> list R -> list R -> result (list R).

(** The loop [for i in range(len(file_list))] of [main_te] from station
    [i] on, over the frames that [pd.read_csv] gives for the sorted files;
    the rows of [df_res] in the order of the loop. *)
Fixpoint main_te_loop (compute_cis : bool) (delta_tau_factor : R)
    (nlag_vals_to_use : nat) (nstrip : list (nat * nat)) (i : nat)
    (frames : list DataFrame) : result (list te_row) :=
  match frames with
  | [] => Ok []
  | dframe :: rest =>
      let (x, y) := flatten_dframe dframe in
      row <- get_row nstrip i ;;
      t <- treat_nans interp1d_slinear x y (fst row) (snd row) ;;
      r <- main_te_station compute_cis delta_tau_factor nlag_vals_to_use
             (fst t) (snd t) ;;
      rs <- main_te_loop compute_cis delta_tau_factor nlag_vals_to_use
              nstrip (S i) rest ;;
      Ok (r :: rs)
  end.

Definition main_te (compute_cis : bool) (delta_tau_factor : R)
    (nlag_vals_to_use : nat) (frames : list DataFrame)
  : result (list te_row) :=
  nstrip <- nans_to_strip (length frames) ;;
  main_te_loop compute_cis delta_tau_factor nlag_vals_to_use nstrip 0 frames.

End MainTe.

(** What [calc_trend] prints: the station name, what the functions it calls
    print, and the result of the station. *)
Inductive calc_message : Type :=
| Msg_station_name (name : string)
| Msg_callee (msg : message)
| Msg_trend_and_CI (trend_century : option R) (ci_century : R).

(** What [calc_trend] carries from one station to the next: the global
    generator, the output so far, and the two local variables of the
    percentile extractor. *)
Record calc_state {L : Library} : Type := {
  cs_rng : rng_state;
  cs_stdout : list calc_message;
  cs_locals : locals
}.

(** A computation of [calc_trend]: it changes the state and returns a value
    or raises. *)
Definition run {L : Library} (A : Type) : Type :=
  calc_state -> result A * calc_state.

Definition run_bind {L : Library} {A B : Type} (m : run A) (k : A -> run B)
  : run B :=
  fun st => match m st with
            | (Ok a, st') => k a st'
            | (Raise e, st') => (Raise e, st')
            end.

Definition lift {L : Library} {A : Type} (r : result A) : run A :=
  fun st => (r, st).

Notation "x <~ m ;; k" := (run_bind m (fun x => k))
  (at level 61, m at next level, right associativity).

Definition say {L : Library} (msgs : list calc_message) : run unit :=
  fun st => (Ok tt, {| cs_rng := cs_rng st;
                       cs_stdout := cs_stdout st ++ msgs;
                       cs_locals := cs_locals st |}).

(** [lstq_model(anom_1d, date_numeric_1d)] on anomalies without NaN, for
    which the mask [~pd.isna(anom_1d)] selects every value. *)
Definition lstq_model {L : Library} (anom_1d date_numeric_1d : list R)
  : ols_result :=
  OLS_fit date_numeric_1d anom_1d.

(** [a - b] for two one-dimensional arrays: elementwise for one length, a
    single value is broadcast, and other shapes do not fit. *)
Definition np_subtract (a b : list R) : result (list R) :=
  if (length a =? length b)%nat
  then Ok (map (fun p => fst p - snd p) (combine a b))
  else if (length b =? 1)%nat then Ok (map (fun v => v - nth 0 b 0) a)
  else if (length a =? 1)%nat then Ok (map (fun v => nth 0 a 0 - v) b)
  else Raise ValueError.

(** The values of an array of floats when none of them is nan. *)
Fixpoint all_finite (l : list (option R)) : option (list R) :=
  match l with
  | [] => Some []
  | Some v :: t => option_map (cons v) (all_finite t)
  | None :: t => None
  end.

(** [monte_carlo_trend] called from [calc_trend]: it shares the generator
    and the output. *)
Definition call_monte_carlo_trend {L : Library} (max_siml maxlag : nat)
    (time data_record : list R) (ncores_to_use : option Z) (sen_flag : Z)
  : run (option mc_output) :=
  fun st =>
    let (r, w) := monte_carlo_trend max_siml maxlag time data_record
                    ncores_to_use sen_flag
                    {| rng := cs_rng st; stdout := [] |} in
    (r, {| cs_rng := rng w;
           cs_stdout := cs_stdout st ++ map Msg_callee (stdout w);
           cs_locals := cs_locals st |}).

(** Lines 562 - 587 on the slopes of the station.  [np.histogram] refuses
    an array with a nan, whose range is not finite. *)
Definition call_percentile_extractor {L : Library} (max_siml : nat)
    (siml_trends : list (option R)) : run R :=
  fun st =>
    match all_finite siml_trends with
    | None => (Raise ValueError, st)
    | Some siml =>
        let (r, env) := percentile_extractor max_siml siml (cs_locals st) in
        (r, {| cs_rng := cs_rng st;
               cs_stdout := cs_stdout st;
               cs_locals := env |})
    end.

Section CalcTrend.
Context {L : Library}.
Variable interp1d_slinear : list R -> list R -> list R -> result (list R).

(** The body of the loop of [calc_trend] for station [i]: its name, the
    frame read from its file, and the row [[trend_century, ci_century]]
    that it adds to [df_res]. *)
Definition calc_trend_station (max_siml : nat) (ncores_to_use : option Z)
    (sen_flag : Z) (nstrip : list (nat * nat)) (i : nat)
    (station_name : string) (dframe : DataFrame) : run (option R * R) :=
  let maxlag := 50%nat in
  _ <~ say [Msg_station_name station_name] ;;
  let (x, y) := flatten_dframe dframe in
  row <~ lift (get_row nstrip i) ;;
  t <~ lift (treat_nans interp1d_slinear x y (fst row) (snd row)) ;;
  let (xx, yy_filled) := t in
  let lstq_res := lstq_model yy_filled xx in
  let ls_trend_line := fittedvalues lstq_res in
  temp_anomaly_detrend <~ lift (np_subtract yy_filled ls_trend_line) ;;
  mc <~ call_monte_carlo_trend max_siml maxlag xx temp_anomaly_detrend
          ncores_to_use sen_flag ;;
  out <~ lift (match mc with
               | Some out => Ok out
               | None => Raise TypeError
               end) ;;
  let '(siml_trends, mean_acvf, std_acvf, mean_spec) := out in
  temp_conf_int_95 <~ call_percentile_extractor max_siml siml_trends ;;
  res <~ (if (sen_flag =? 1)%Z then
            let coef_ := TheilSenRegressor_fit None xx yy_filled in
            c <~ lift (getitem coef_ 0) ;;
            lift (Ok (Some (c * 100), temp_conf_int_95 * 100))
          else if (sen_flag =? 2)%Z then
            data <~ lift (column_pair xx yy_filled) ;;
            let (r, msgs) := TheilSen_Cummins data in
            _ <~ say (map Msg_callee msgs) ;;
            m <~ lift (fit_getitem0 r) ;;
            lift (Ok (option_map (fun v => v * 100) m, temp_conf_int_95 * 100))
          else
            let res := lstq_model yy_filled xx in
            lift (Ok (Some (params_Date res * 100),
                      np_mean (map (fun v => Rabs (v - fst (conf_int_Date res)))
                                 (fittedvalues res))))) ;;
  _ <~ say [Msg_trend_and_CI (fst res) (snd res)] ;;
  lift (Ok res).

(** The loop of [calc_trend] from station [i] on. *)
Fixpoint calc_trend_loop (max_siml : nat) (ncores_to_use : option Z)
    (sen_flag : Z) (nstrip : list (nat * nat)) (i : nat)
    (stations : list (string * DataFrame)) : run (list (option R * R)) :=
  match stations with
  | [] => lift (Ok [])
  | (station_name, dframe) :: rest =>
      r <~ calc_trend_station max_siml ncores_to_use sen_flag nstrip i
             station_name dframe ;;
      rs <~ calc_trend_loop max_siml ncores_to_use sen_flag nstrip (S i)
              rest ;;
      lift (Ok (r :: rs))
  end.

(** [calc_trend(max_siml, ncores_to_use, sen_flag)] over the stations of
    the sorted files; the rows of [df_res] in the order of the loop. *)
Definition calc_trend (max_siml : option nat) (ncores_to_use : option Z)
    (sen_flag : Z) (stations : list (string * DataFrame))
  : run (list (option R * R)) :=
  nstrip <~ lift (nans_to_strip 8) ;;
  let max_siml := match max_siml with
                  | None => 500%nat
                  | Some n => n
                  end in
  calc_trend_loop max_siml ncores_to_use sen_flag nstrip 0 stations.

End CalcTrend.

(** ** Frames and an interpolation to run the model *)

(** A frame of the years 2000 and 2001 without a missing value, and an
    interpolation that fills every date with 0. *)
Definition two_years : DataFrame :=
  {| index := [2000; 2001];
     values := [repeat (Some 0) 12; repeat (Some 0) 12] |}.

Definition fill_with_zeros (x y x_new : list R) : result (list R) :=
  Ok (map (fun _ => 0) x_new).

(** A frame of the year 1981 without a missing value. *)
Definition year_1981 : DataFrame :=
  {| index := [1981]; values := [repeat (Some 0) 12] |}.

(** The state in which a run of [calc_trend] with the stand-in library
    starts: nothing printed, no bound assigned. *)
Definition initial_state : calc_state (L := stand_in_library) :=
  @Build_calc_state stand_in_library 0%nat [] unbound.

(** A frame of the years 2000 to 2005 without a missing value. *)
Definition six_years : DataFrame :=
  {| index := [2000; 2001; 2002; 2003; 2004; 2005];
     values := repeat (repeat (Some 0) 12) 6 |}.

(** ** Sums and folds *)

Lemma fold_left_Rplus_acc (l : list R) (a : R) :
  fold_left Rplus l a = a + fold_left Rplus l 0.
Proof.
  revert a; induction l as [|x l IH]; intros a; simpl.
  - lra.
  - rewrite (IH (a + x)), (IH (0 + x)). lra.
Qed.

Lemma np_sum_cons (x : R) (l : list R) : np_sum (x :: l) = x + np_sum l.
Proof.
  unfold np_sum; simpl. rewrite fold_left_Rplus_acc. lra.
Qed.

Lemma np_sum_app (l1 l2 : list R) : np_sum (l1 ++ l2) = np_sum l1 + np_sum l2.
Proof.
  induction l1 as [|x l1 IH]; simpl.
  - unfold np_sum at 2; simpl. lra.
  - rewrite !np_sum_cons, IH. lra.
Qed.

Lemma fold_left_ext_in {A B : Type} (f g : A -> B -> A) (l : list B) (a : A) :
  (forall acc i, In i l -> f acc i = g acc i) ->
  fold_left f l a = fold_left g l a.
Proof.
  revert a; induction l as [|x l IH]; intros a H; simpl; [reflexivity|].
  rewrite (H a x (or_introl eq_refl)).
  apply IH. intros acc i Hi. apply H. now right.
Qed.

(** An index loop that adds [h i] is the sum of the list of the [h i]. *)
Lemma fold_seq_sum (h : nat -> R) (s n : nat) (a : R) :
  fold_left (fun acc i => acc + h i) (seq s n) a
  = a + np_sum (map h (seq s n)).
Proof.
  revert s a; induction n as [|n IH]; intros s a; simpl.
  - unfold np_sum; simpl; lra.
  - rewrite IH, np_sum_cons. lra.
Qed.

Lemma map_nth_seq (g : R -> R) (y : list R) :
  map (fun i => g (nth i y 0)) (seq 0 (length y)) = map g y.
Proof.
  induction y as [|x y IH]; simpl; [reflexivity|].
  f_equal. rewrite <- seq_shift, map_map. exact IH.
Qed.

Lemma np_sum_map_add (l : list R) (c : R) :
  np_sum (map (fun v => v + c) l) = np_sum l + INR (length l) * c.
Proof.
  induction l as [|x l IH].
  - simpl. unfold np_sum; simpl. lra.
  - cbn [map length]. rewrite !np_sum_cons, IH, S_INR. lra.
Qed.

Lemma np_sum_map_scale (l : list R) (c : R) :
  np_sum (map (fun v => c * v) l) = c * np_sum l.
Proof.
  induction l as [|x l IH].
  - simpl. unfold np_sum; simpl. lra.
  - cbn [map]. rewrite !np_sum_cons, IH. lra.
Qed.

Lemma np_mean_add_scalar (y : list R) (c : R) :
  y <> [] -> np_mean (np_add_scalar y c) = np_mean y + c.
Proof.
  intros Hy. unfold np_mean, np_add_scalar.
  rewrite length_map, np_sum_map_add.
  assert (INR (length y) <> 0).
  { apply not_0_INR. destruct y; [congruence|simpl; lia]. }
  field. assumption.
Qed.

Lemma nth_map_in_range (f : R -> R) (l : list R) (i : nat) :
  (i < length l)%nat -> nth i (map f l) 0 = f (nth i l 0).
Proof.
  intros Hi. rewrite (nth_indep _ 0 (f 0)) by (now rewrite length_map).
  apply map_nth.
Qed.

Lemma np_sum_nonneg (l : list R) : Forall (fun v => 0 <= v) l -> 0 <= np_sum l.
Proof.
  induction 1 as [|x l Hx _ IH].
  - unfold np_sum; simpl; lra.
  - rewrite np_sum_cons. lra.
Qed.

Lemma np_sum_pos (l : list R) (x : R) :
  Forall (fun v => 0 <= v) l -> In x l -> 0 < x -> 0 < np_sum l.
Proof.
  induction 1 as [|z l Hz Hl IH]; intros Hin Hx; [contradiction|].
  rewrite np_sum_cons. destruct Hin as [->|Hin].
  - pose proof (np_sum_nonneg l Hl). lra.
  - specialize (IH Hin Hx). lra.
Qed.

(** ** Autocovariance *)

Lemma C_divisor (k : nat) (y : list R) :
  (k + 1 < length y)%nat ->
  (Z.of_nat (length y) - 1 - Z.of_nat k =? 0)%Z = false.
Proof. intros H. apply Z.eqb_neq. lia. Qed.

Lemma C_defined (k : nat) (y : list R) :
  (k + 1 < length y)%nat -> exists v, C k y = Ok v.
Proof.
  intros H. unfold C. rewrite (C_divisor k y H). eauto.
Qed.

Lemma C_lag0 (y : list R) :
  (2 <= length y)%nat -> C 0 y = Ok (sample_variance y).
Proof.
  intros HN. unfold C. rewrite C_divisor by (simpl; lia).
  f_equal. unfold sample_variance.
  rewrite Nat.sub_0_r.
  rewrite (fold_left_ext_in _
             (fun acc i => acc + (fun j => (nth j y 0 - np_mean y)
                                           * (nth j y 0 - np_mean y)) i)).
  2:{ intros acc i _. now rewrite Nat.add_0_r. }
  rewrite fold_seq_sum.
  rewrite (map_nth_seq (fun v => (v - np_mean y) * (v - np_mean y)) y).
  replace (IZR (Z.of_nat (length y) - 1 - Z.of_nat 0))
    with (INR (length y) - 1).
  2:{ rewrite !minus_IZR, <- INR_IZR_INZ.
      change (IZR (Z.of_nat 0)) with 0. lra. }
  assert (INR (length y) - 1 <> 0).
  { assert (2 <= INR (length y)) by (apply (le_INR 2), HN). lra. }
  field. assumption.
Qed.

Lemma not_constant_length (y : list R) :
  ~ constant_series y -> (2 <= length y)%nat.
Proof.
  intros H. destruct (le_lt_dec 2 (length y)) as [|Hlt]; [assumption|].
  exfalso. apply H. intros i j Hi Hj.
  assert (i = j) by lia. now subst.
Qed.

Lemma not_constant_off_mean (y : list R) :
  ~ constant_series y ->
  exists i, (i < length y)%nat /\ nth i y 0 <> np_mean y.
Proof.
  intros H.
  destruct (Forall_Exists_dec (fun v => v = np_mean y)
              (fun v => Req_dec_T v (np_mean y)) y) as [Hall|Hex].
  - exfalso. apply H. intros i j Hi Hj.
    rewrite Forall_forall in Hall.
    rewrite (Hall (nth i y 0)) by (now apply nth_In).
    rewrite (Hall (nth j y 0)) by (now apply nth_In).
    reflexivity.
  - apply Exists_exists in Hex. destruct Hex as [v [Hin Hv]].
    destruct (In_nth y v 0 Hin) as [i [Hi Heq]].
    exists i. split; [assumption|]. now rewrite Heq.
Qed.

(** The variance of a series that is not constant is positive, so the
    division by [C(0, y)] in the integral timescale is a division by a
    nonzero number. *)
Lemma C_lag0_pos (y : list R) :
  ~ constant_series y -> exists v, C 0 y = Ok v /\ 0 < v.
Proof.
  intros H. pose proof (not_constant_length y H) as HN.
  exists (sample_variance y). split; [now apply C_lag0|].
  unfold sample_variance.
  assert (1 < INR (length y)).
  { assert (2 <= INR (length y)) by (apply (le_INR 2), HN). lra. }
  apply Rdiv_lt_0_compat; [|lra].
  destruct (not_constant_off_mean y H) as [i [Hi Hne]].
  apply (np_sum_pos _ ((nth i y 0 - np_mean y) * (nth i y 0 - np_mean y))).
  - apply Forall_forall. intros v Hv. apply in_map_iff in Hv.
    destruct Hv as [u [<- _]]. exact (Rle_0_sqr (u - np_mean y)).
  - apply in_map_iff. exists (nth i y 0). split; [reflexivity|now apply nth_In].
  - assert (Hd : nth i y 0 - np_mean y <> 0) by lra.
    exact (Rsqr_pos_lt _ Hd).
Qed.

Lemma C_add_scalar (k : nat) (y : list R) (c : R) :
  C k (np_add_scalar y c) = C k y.
Proof.
  destruct y as [|x y']; [reflexivity|].
  set (y := x :: y').
  assert (Hlen : length (np_add_scalar y c) = length y)
    by apply length_map.
  unfold C. rewrite np_mean_add_scalar by discriminate. rewrite !Hlen.
  destruct (Z.of_nat (length y) - 1 - Z.of_nat k =? 0)%Z; [reflexivity|].
  f_equal. f_equal.
  apply fold_left_ext_in. intros acc i Hi.
  apply in_seq in Hi. unfold np_add_scalar.
  rewrite !nth_map_in_range by lia. lra.
Qed.

Lemma timescale_loop_add_scalar (dtau : R) (y : list R) (c : R)
    (ks : list nat) (T : R) :
  timescale_loop dtau (np_add_scalar y c) ks T = timescale_loop dtau y ks T.
Proof.
  revert T; induction ks as [|k ks IH]; intros T; simpl; [reflexivity|].
  rewrite !C_add_scalar.
  destruct (C (k + 1) y); simpl; [|reflexivity].
  destruct (C k y); simpl; [|reflexivity].
  apply IH.
Qed.

Lemma timescale_loop_scale (lambda dtau : R) (y : list R) (ks : list nat)
    (T : R) :
  timescale_loop (lambda * dtau) y ks (lambda * T)
  = rmap (Rmult lambda) (timescale_loop dtau y ks T).
Proof.
  revert T; induction ks as [|k ks IH]; intros T; simpl; [reflexivity|].
  destruct (C (k + 1) y) as [c1|]; simpl; [|reflexivity].
  destruct (C k y) as [c0|]; simpl; [|reflexivity].
  rewrite <- IH. f_equal. lra.
Qed.

Lemma timescale_loop_defined (dtau : R) (y : list R) (n s : nat) (T : R) :
  (s + n + 1 < length y)%nat ->
  exists T', timescale_loop dtau y (seq s n) T = Ok T'.
Proof.
  revert s T; induction n as [|n IH]; intros s T H; simpl; [eauto|].
  destruct (C_defined (s + 1) y) as [c1 ->]; [lia|].
  destruct (C_defined s y) as [c0 ->]; [lia|]. simpl.
  apply IH. lia.
Qed.

(** The integral timescale is computed, without a division of ints by zero,
    whenever the record is longer than the number of lags. *)
Lemma integral_timescale_defined (dtau : R) (y : list R) (m : nat) :
  (m < length y)%nat -> (1 <= m)%nat ->
  exists T, integral_timescale_discrete dtau y m = Ok T.
Proof.
  intros H Hm. unfold integral_timescale_discrete.
  destruct (timescale_loop_defined dtau y (m - 1) 0 0) as [T ->]; [lia|].
  destruct (C_defined 0 y) as [c0 ->]; [lia|]. simpl. eauto.
Qed.

(** C7.  For every series of at least two values the autocovariance at lag
    zero, [C(0, y)], is the sample variance: the sum of the squared
    deviations from the mean, divided by [N - 1]. *)
Theorem C7_autocovariance_lag0_is_variance (y : list R) :
  (2 <= length y)%nat ->
  C 0 y = Ok (np_sum (map (fun v => (v - np_mean y) * (v - np_mean y)) y)
              / (INR (length y) - 1)).
Proof. intros H. exact (C_lag0 y H). Qed.

Lemma C7_witness :
  (2 <= length [1; 3])%nat /\ C 0 [1; 3] = Ok 2.
Proof.
  split; [simpl; lia|].
  rewrite (C7_autocovariance_lag0_is_variance [1; 3]) by (simpl; lia).
  f_equal. unfold np_mean, np_sum. simpl. lra.
Defined.

(** C8.  For a series that is not constant, so that [C(0, y)] is not zero,
    at least two lags, any constant [c] and positive [dtau] and [lambda]:
    adding [c] to the series leaves the integral timescale unchanged, and
    multiplying [dtau] by [lambda] multiplies the integral timescale by
    [lambda]. *)
Theorem C8_timescale_shift_and_scale (y : list R) (m : nat)
    (c dtau lambda : R) :
  ~ constant_series y -> (2 <= m)%nat -> 0 < dtau -> 0 < lambda ->
  (exists v, C 0 y = Ok v /\ v <> 0)
  /\ integral_timescale_discrete dtau (np_add_scalar y c) m
     = integral_timescale_discrete dtau y m
  /\ integral_timescale_discrete (lambda * dtau) y m
     = rmap (Rmult lambda) (integral_timescale_discrete dtau y m).
Proof.
  intros Hy _ _ _. split; [|split].
  - destruct (C_lag0_pos y Hy) as [v [Hv Hpos]].
    exists v. split; [assumption|lra].
  - unfold integral_timescale_discrete.
    now rewrite timescale_loop_add_scalar, C_add_scalar.
  - unfold integral_timescale_discrete.
    replace 0 with (lambda * 0) at 1 by lra.
    rewrite timescale_loop_scale.
    destruct (timescale_loop dtau y (seq 0 (m - 1)) 0) as [T|];
      simpl; [|reflexivity].
    destruct (C 0 y) as [c0|]; simpl; [|reflexivity].
    f_equal. lra.
Qed.

Example integral_timescale_example :
  integral_timescale_discrete 1 [0; 1; 0] 2 = Ok (- (1 / 3)).
Proof.
  unfold integral_timescale_discrete, timescale_loop, C, np_mean, np_sum.
  simpl. f_equal. lra.
Qed.

Lemma C8_witness :
  (exists v, C 0 [0; 1; 0] = Ok v /\ v <> 0)
  /\ integral_timescale_discrete 1 (np_add_scalar [0; 1; 0] 5) 2
  = integral_timescale_discrete 1 [0; 1; 0] 2
  /\ integral_timescale_discrete (3 * 1) [0; 1; 0] 2
     = rmap (Rmult 3) (integral_timescale_discrete 1 [0; 1; 0] 2).
Proof.
  apply (C8_timescale_shift_and_scale [0; 1; 0] 2 5 1 3).
  - intros H.
    assert (E : 0 = 1) by (apply (H 0%nat 1%nat); simpl; lia).
    lra.
  - lia.
  - lra.
  - lra.
Defined.

(** ** Analytic confidence limit *)

Section AnalyticFacts.
Context {L : Library}.

(** What [conf_limit] computes from its second argument. *)
Lemma conf_limit_unfold (s_eta N_star s_x : R) :
  conf_limit s_eta N_star s_x
  = s_eta * t_ppf (975 / 1000) (N_star - 2) / (sqrt (N_star - 1) * s_x).
Proof.
  unfold conf_limit. replace (1 - 5 / 100 / 2) with (975 / 1000) by lra.
  reflexivity.
Qed.

(** A station with confidence intervals is computed only when each step is,
    and then the last column is [conf_limit] at [ESS - 2]. *)
Lemma main_te_station_cis (f : R) (nlag : nat) (xx yy : list R) (row : te_row) :
  main_te_station true f nlag xx yy = Ok row ->
  exists x0 x1 it SEE SDX,
    getitem xx 0 = Ok x0 /\ getitem xx 1 = Ok x1
    /\ integral_timescale_discrete (f * (x1 - x0)) yy nlag = Ok it
    /\ standard_error_of_estimate yy (fittedvalues (OLS_fit xx yy)) = Ok SEE
    /\ std_dev_x xx = Ok SDX
    /\ Effective_degrees_of_freedom row
       = effective_sample_size (length yy) (x1 - x0) it - 2
    /\ Effective_confidence_limit row
       = Some (conf_limit SEE
                 (effective_sample_size (length yy) (x1 - x0) it - 2) SDX
               * 100).
Proof.
  unfold main_te_station.
  destruct (getitem xx 1) as [x1|] eqn:E1; simpl; [|discriminate].
  destruct (getitem xx 0) as [x0|] eqn:E0; simpl; [|discriminate].
  destruct (integral_timescale_discrete (f * (x1 - x0)) yy nlag)
    as [it|] eqn:Eit; simpl; [|discriminate].
  destruct (standard_error_of_estimate yy (fittedvalues (OLS_fit xx yy)))
    as [SEE|] eqn:Es; simpl; [|discriminate].
  destruct (std_dev_x xx) as [SDX|] eqn:Ex; simpl; [|discriminate].
  intros H. injection H as <-. simpl.
  exists x0, x1, it, SEE, SDX. repeat split; assumption || reflexivity.
Qed.

(** C1 on the code.  For every station that [main_te] completes with
    confidence intervals, the reported effective confidence limit is
    [s_eta * t(0.975, ESS - 4) / (sqrt (ESS - 3) * s_x)] (times 100), where
    [ESS = N dt / T] is the effective sample size of the series: [main_te]
    passes [ESS - 2] to [conf_limit], which subtracts 2 again for the degrees
    of freedom and 1 under the root. *)
Theorem C1_main_te_limit_formula (f : R) (nlag : nat) (xx yy : list R)
    (row : te_row) :
  main_te_station true f nlag xx yy = Ok row ->
  exists x0 x1 it SEE SDX,
    getitem xx 0 = Ok x0 /\ getitem xx 1 = Ok x1
    /\ integral_timescale_discrete (f * (x1 - x0)) yy nlag = Ok it
    /\ standard_error_of_estimate yy (fittedvalues (OLS_fit xx yy)) = Ok SEE
    /\ std_dev_x xx = Ok SDX
    /\ let ESS := effective_sample_size (length yy) (x1 - x0) it in
       Effective_confidence_limit row
       = Some (SEE * t_ppf (975 / 1000) (ESS - 4)
               / (sqrt (ESS - 3) * SDX) * 100).
Proof.
  intros H.
  destruct (main_te_station_cis f nlag xx yy row H)
    as (x0 & x1 & it & SEE & SDX & H0 & H1 & Hit & Hs & Hx & _ & Hci).
  exists x0, x1, it, SEE, SDX. repeat (split; [assumption|]).
  cbv zeta. rewrite Hci, conf_limit_unfold.
  set (ESS := effective_sample_size (length yy) (x1 - x0) it).
  replace (ESS - 2 - 2) with (ESS - 4) by lra.
  replace (ESS - 2 - 1) with (ESS - 3) by lra.
  reflexivity.
Qed.

(** With the critical value of Student's t positive and not increasing in
    the degrees of freedom, the limit [conf_limit] gives at [ESS - 2] is
    strictly wider than the limit of the specification at [ESS]. *)
Lemma conf_limit_wider_than_spec (s_eta ESS s_x : R) :
  (forall d, 0 < d -> 0 < t_ppf (975 / 1000) d) ->
  (forall d1 d2, 0 < d1 -> d1 <= d2 ->
                 t_ppf (975 / 1000) d2 <= t_ppf (975 / 1000) d1) ->
  4 < ESS -> 0 < s_eta -> 0 < s_x ->
  spec_conf_limit s_eta ESS s_x < conf_limit s_eta (ESS - 2) s_x.
Proof.
  intros Hpos Hmon HE Hs Hx.
  rewrite conf_limit_unfold. unfold spec_conf_limit.
  replace (ESS - 2 - 2) with (ESS - 4) by lra.
  replace (ESS - 2 - 1) with (ESS - 3) by lra.
  set (t2 := t_ppf (975 / 1000) (ESS - 2)).
  set (t4 := t_ppf (975 / 1000) (ESS - 4)).
  assert (Ht2 : 0 < t2) by (apply Hpos; lra).
  assert (Ht : t2 <= t4) by (apply Hmon; lra).
  assert (Hr : sqrt (ESS - 3) < sqrt (ESS - 1)) by (apply sqrt_lt_1; lra).
  assert (Hr3 : 0 < sqrt (ESS - 3)) by (apply sqrt_lt_R0; lra).
  assert (Hd1 : 0 < sqrt (ESS - 1) * s_x) by (apply Rmult_lt_0_compat; lra).
  assert (Hd3 : 0 < sqrt (ESS - 3) * s_x) by (apply Rmult_lt_0_compat; lra).
  apply Rle_lt_trans with (s_eta * t4 / (sqrt (ESS - 1) * s_x)).
  - unfold Rdiv. apply Rmult_le_compat_r.
    + left. now apply Rinv_0_lt_compat.
    + apply Rmult_le_compat_l; lra.
  - unfold Rdiv. apply Rmult_lt_compat_l.
    + apply Rmult_lt_0_compat; lra.
    + apply Rinv_lt_contravar.
      * now apply Rmult_lt_0_compat.
      * apply Rmult_lt_compat_r; assumption.
Qed.

End AnalyticFacts.

Example integral_timescale_anomaly8 :
  integral_timescale_discrete (1 * (1 - 0)) anomaly8 2 = Ok (55 / 48).
Proof.
  unfold integral_timescale_discrete, timescale_loop, C, np_mean, np_sum,
    anomaly8.
  simpl. f_equal. lra.
Qed.

Lemma main_te_station_anomaly8 :
  exists row,
    main_te_station (L := stand_in_library) true 1 2 months8 anomaly8 = Ok row.
Proof.
  unfold main_te_station. change (getitem months8 1) with (@Ok R 1).
  change (getitem months8 0) with (@Ok R 0). cbn [bind].
  rewrite integral_timescale_anomaly8. cbn [bind].
  unfold standard_error_of_estimate, std_dev_x.
  change (length anomaly8) with 8%nat. change (length months8) with 8%nat.
  change ((Z.of_nat 8 - 2 =? 0)%Z) with false.
  change ((Z.of_nat 8 - 1 =? 0)%Z) with false.
  cbn [bind]. eexists. reflexivity.
Qed.

Lemma C1_witness :
  exists row,
    main_te_station (L := stand_in_library) true 1 2 months8 anomaly8 = Ok row
    /\ exists x0 x1 it SEE SDX,
        getitem months8 0 = Ok x0 /\ getitem months8 1 = Ok x1
        /\ integral_timescale_discrete (1 * (x1 - x0)) anomaly8 2 = Ok it
        /\ standard_error_of_estimate anomaly8
             (fittedvalues (OLS_fit (Library := stand_in_library)
                              months8 anomaly8)) = Ok SEE
        /\ std_dev_x months8 = Ok SDX
        /\ let ESS := effective_sample_size (length anomaly8) (x1 - x0) it in
           Effective_confidence_limit row
           = Some (SEE * t_ppf (Library := stand_in_library)
                           (975 / 1000) (ESS - 4)
                   / (sqrt (ESS - 3) * SDX) * 100).
Proof.
  destruct main_te_station_anomaly8 as [row Hrow].
  exists row. split; [exact Hrow|].
  exact (C1_main_te_limit_formula (L := stand_in_library)
           1 2 months8 anomaly8 row Hrow).
Defined.

Lemma std_dev_x_months8 :
  exists SDX, std_dev_x months8 = Ok SDX /\ 0 < SDX.
Proof.
  unfold std_dev_x. change (length months8) with 8%nat.
  change ((Z.of_nat 8 - 1 =? 0)%Z) with false.
  eexists. split; [reflexivity|].
  apply sqrt_lt_R0. unfold np_mean, np_sum, months8. simpl. lra.
Qed.

Lemma standard_error_anomaly8 :
  exists SEE,
    standard_error_of_estimate anomaly8
      (fittedvalues (OLS_fit (Library := stand_in_library) months8 anomaly8))
    = Ok SEE
    /\ 0 < SEE.
Proof.
  unfold standard_error_of_estimate. change (length anomaly8) with 8%nat.
  change ((Z.of_nat 8 - 2 =? 0)%Z) with false.
  eexists. split; [reflexivity|].
  apply sqrt_lt_R0.
  unfold OLS_fit, stand_in_library, closed_form_ols, fittedvalues, sq_diffs,
    np_mean, np_sum, months8, anomaly8.
  simpl. lra.
Qed.

(** The station of eight months, with the stand-in critical value: the
    effective sample size is 384/55, the table reports 384/55 - 2 as the
    effective degrees of freedom, and the reported limit is wider than the
    limit of the specification at the effective sample size. *)
Example main_te_anomaly8_wider :
  exists row SEE SDX v,
    main_te_station (L := stand_in_library) true 1 2 months8 anomaly8 = Ok row
    /\ standard_error_of_estimate anomaly8
         (fittedvalues (OLS_fit (Library := stand_in_library)
                          months8 anomaly8)) = Ok SEE
    /\ std_dev_x months8 = Ok SDX
    /\ Effective_degrees_of_freedom row = 384 / 55 - 2
    /\ Effective_confidence_limit row = Some v
    /\ spec_conf_limit (L := stand_in_library) SEE (384 / 55) SDX * 100 < v.
Proof.
  destruct main_te_station_anomaly8 as [row Hrow].
  destruct (main_te_station_cis (L := stand_in_library) 1 2 months8 anomaly8
              row Hrow)
    as (x0 & x1 & it & SEE & SDX & H0 & H1 & Hit & Hs & Hx & Hdf & Hci).
  injection H0 as <-. injection H1 as <-.
  rewrite integral_timescale_anomaly8 in Hit. injection Hit as <-.
  assert (HE : effective_sample_size (length anomaly8) (1 - 0) (55 / 48)
               = 384 / 55).
  { unfold effective_sample_size. simpl. lra. }
  rewrite HE in Hdf, Hci.
  destruct standard_error_anomaly8 as (SEE' & Hs' & HSEE).
  destruct std_dev_x_months8 as (SDX' & Hx' & HSDX).
  assert (SEE' = SEE) by congruence. assert (SDX' = SDX) by congruence.
  subst SEE' SDX'.
  exists row, SEE, SDX,
    (conf_limit (L := stand_in_library) SEE (384 / 55 - 2) SDX * 100).
  repeat (split; [assumption|]).
  apply Rmult_lt_compat_r; [lra|].
  apply (conf_limit_wider_than_spec (L := stand_in_library)); try lra.
  - intros d Hd. cbn [t_ppf stand_in_library].
    assert (0 < 1 / d) by (apply Rdiv_lt_0_compat; lra). lra.
  - intros d1 d2 Hd1 Hd. cbn [t_ppf stand_in_library].
    assert (/ d2 <= / d1) by (apply Rinv_le_contravar; assumption).
    lra.
Qed.

(** ** Sorting and the median *)

Lemma insert_sorted_length (v : R) (l : list R) :
  length (insert_sorted v l) = S (length l).
Proof.
  induction l as [|x l IH]; simpl; [reflexivity|].
  destruct (Rle_dec v x); simpl; [reflexivity|now rewrite IH].
Qed.

Lemma sort_length (l : list R) : length (sort l) = length l.
Proof.
  induction l as [|x l IH]; simpl; [reflexivity|].
  now rewrite insert_sorted_length, IH.
Qed.

Lemma insert_sorted_Forall (P : R -> Prop) (v : R) (l : list R) :
  P v -> Forall P l -> Forall P (insert_sorted v l).
Proof.
  intros Hv. induction 1 as [|x l Hx Hl IH]; simpl.
  - constructor; [assumption|constructor].
  - destruct (Rle_dec v x).
    + constructor; [assumption|]. now constructor.
    + now constructor.
Qed.

Lemma sort_Forall (P : R -> Prop) (l : list R) :
  Forall P l -> Forall P (sort l).
Proof.
  induction 1 as [|x l Hx Hl IH]; simpl; [constructor|].
  now apply insert_sorted_Forall.
Qed.

Lemma Forall_nth_eq (a : R) (l : list R) (i : nat) :
  Forall (eq a) l -> (i < length l)%nat -> nth i l 0 = a.
Proof.
  intros H Hi. rewrite Forall_forall in H.
  symmetry. apply H. now apply nth_In.
Qed.

(** The median of values that all agree is that value. *)
Lemma np_median_all_equal (a : R) (l : list R) :
  l <> [] -> Forall (eq a) l -> np_median l = Some a.
Proof.
  intros Hne Hall. unfold np_median.
  pose proof (sort_Forall _ _ Hall) as Hs.
  pose proof (sort_length l) as Hlen.
  assert (Hpos : (0 < length (sort l))%nat).
  { rewrite Hlen. destruct l; [congruence|simpl; lia]. }
  destruct (Nat.eqb_spec (length (sort l)) 0) as [E|_]; [lia|].
  assert (Hhalf : (length (sort l) / 2 < length (sort l))%nat)
    by (apply Nat.div_lt; lia).
  destruct (Nat.even (length (sort l))).
  - rewrite !(Forall_nth_eq a) by (assumption || lia). f_equal. lra.
  - now rewrite (Forall_nth_eq a).
Qed.

(** ** From-scratch Theil-Sen *)

Lemma finite_values_In (v : R) (l : list (option R)) :
  In v (finite_values l) <-> In (Some v) l.
Proof.
  induction l as [|[u|] l IH]; simpl.
  - tauto.
  - rewrite IH. split; intros [H|H]; auto; left; congruence.
  - rewrite IH. split; [auto|]. intros [H|H]; [discriminate|assumption].
Qed.

Lemma nth_flat_pairs (l : list (R * R)) (i : nat) :
  (i < length l)%nat ->
  nth (i * 2 + 0) (flat_map (fun p => [fst p; snd p]) l) 0
  = fst (nth i l (0, 0))
  /\ nth (i * 2 + 1) (flat_map (fun p => [fst p; snd p]) l) 0
     = snd (nth i l (0, 0)).
Proof.
  revert i; induction l as [|p l IH]; intros i Hi; simpl in Hi; [lia|].
  destruct i as [|i]; [split; reflexivity|].
  destruct (IH i) as [H0 H1]; [lia|].
  replace (S i * 2 + 0)%nat with (S (S (i * 2 + 0))) by lia.
  replace (S i * 2 + 1)%nat with (S (S (i * 2 + 1))) by lia.
  simpl. split; assumption.
Qed.

(** The rows of [np.array([x, y]).T] are the points [(x[i], y[i])]. *)
Lemma column_pair_rows (x y : list R) (data : ndarray) (i : nat) :
  column_pair x y = Ok data -> (i < length x)%nat ->
  shape data = [length x; 2%nat]
  /\ get2 data i 0 = nth i x 0 /\ get2 data i 1 = nth i y 0.
Proof.
  unfold column_pair. destruct (Nat.eqb_spec (length x) (length y)) as [E|];
    [|discriminate].
  intros H Hi. injection H as <-. split; [reflexivity|].
  unfold get2. cbn [shape flat nth].
  destruct (nth_flat_pairs (combine x y) i) as [H0 H1].
  { rewrite length_combine. lia. }
  rewrite H0, H1, combine_nth by assumption. split; reflexivity.
Qed.

(** Decisions between explicit reals, by linear arithmetic. *)
Ltac decide_reals :=
  repeat match goal with
         | |- context [Req_dec_T ?a ?b] =>
             destruct (Req_dec_T a b); try lra
         | |- context [Rle_dec ?a ?b] =>
             destruct (Rle_dec a b); try lra
         end.

(** Three points of a parabola: the pairwise slopes are 1, 2 and 3, their
    median is 2, and the median of the residuals 0, -1, 0 is 0. *)
Example TheilSen_Cummins_parabola :
  exists data CC,
    column_pair [0; 1; 2] [0; 1; 4] = Ok data
    /\ TheilSen_Cummins data = (Some (Some 2, Some 0, CC), []).
Proof.
  eexists. eexists. split; [reflexivity|].
  unfold TheilSen_Cummins.
  cbn [shape length Nat.eqb negb orb nth Nat.ltb Nat.leb].
  unfold CC_matrix, CC_row, pairwise_slope, get2.
  cbn [shape flat seq map Nat.ltb Nat.leb nth Nat.mul Nat.add flat_map combine
       fst snd app].
  decide_reals. cbn [concat app finite_values].
  unfold np_median, sort. cbn [fold_right insert_sorted].
  decide_reals. cbn [insert_sorted]. decide_reals.
  cbn [length Nat.eqb Nat.even Nat.div Nat.divmod fst nth].
  cbn [map seq fold_right insert_sorted].
  decide_reals. cbn [insert_sorted]. decide_reals.
  cbn [length Nat.eqb Nat.even Nat.div Nat.divmod fst nth].
  repeat f_equal; lra.
Qed.

(** One observation: the function reports the malformed input and returns
    [None]. *)
Example TheilSen_Cummins_one_row :
  TheilSen_Cummins {| shape := [1; 2]%nat; flat := [0; 1] |}
  = (None, [Msg_expecting_MxD]).
Proof. reflexivity. Qed.

Section OnLine.
Variables (a b : R) (x : list R) (data : ndarray).
Hypothesis Hdata : column_pair x (on_line a b x) = Ok data.
Hypothesis Hinc : strictly_increasing x.

Let M := length x.

Lemma on_line_row (i : nat) :
  (i < M)%nat ->
  get2 data i 0 = nth i x 0 /\ get2 data i 1 = a * nth i x 0 + b.
Proof.
  intros Hi. destruct (column_pair_rows _ _ _ i Hdata Hi) as (_ & H0 & H1).
  split; [assumption|]. rewrite H1. unfold on_line.
  now apply (nth_map_in_range (fun v => a * v + b)).
Qed.

(** A pairwise slope of points on the line is not finite or equal to [a]. *)
Lemma on_line_pairwise_slope (i j : nat) (v : R) :
  (i < M)%nat -> (j < M)%nat -> pairwise_slope data i j = Some v -> v = a.
Proof.
  intros Hi Hj. unfold pairwise_slope.
  destruct (on_line_row i Hi) as [-> ->].
  destruct (on_line_row j Hj) as [-> ->].
  destruct (Req_dec_T (nth i x 0 - nth j x 0) 0) as [|Hne]; [discriminate|].
  intros H. injection H as <-. field. exact Hne.
Qed.

Lemma on_line_pairwise_slope_finite (i j : nat) :
  (i < j)%nat -> (j < M)%nat -> pairwise_slope data i j = Some a.
Proof.
  intros Hij Hj. unfold pairwise_slope.
  pose proof (Hinc i j Hij Hj) as Hlt.
  destruct (on_line_row i) as [-> ->]; [unfold M in *; lia|].
  destruct (on_line_row j Hj) as [-> ->].
  destruct (Req_dec_T (nth i x 0 - nth j x 0) 0) as [E|Hne]; [lra|].
  f_equal. field. exact Hne.
Qed.

Lemma on_line_CC_entries (v : R) :
  In (Some v) (concat (CC_matrix data M)) -> v = a.
Proof.
  intros H. apply in_concat in H. destruct H as [row [Hrow Hv]].
  unfold CC_matrix in Hrow. apply in_map_iff in Hrow.
  destruct Hrow as [i [<- Hi]]. apply in_seq in Hi.
  unfold CC_row in Hv. apply in_map_iff in Hv.
  destruct Hv as [j [Hv Hj]]. apply in_seq in Hj.
  destruct (j <? i)%nat; [discriminate|].
  apply (on_line_pairwise_slope i j); [lia|lia|assumption].
Qed.

Lemma on_line_CC_has_slope :
  (2 <= M)%nat -> In (Some a) (concat (CC_matrix data M)).
Proof.
  intros HM. apply in_concat. exists (CC_row data M 0). split.
  - unfold CC_matrix. apply in_map, in_seq. lia.
  - unfold CC_row. apply in_map_iff. exists 1%nat. split.
    + simpl. apply on_line_pairwise_slope_finite; lia.
    + apply in_seq. lia.
Qed.

Lemma on_line_fit :
  (2 <= M)%nat ->
  TheilSen_Cummins data = (Some (Some a, Some b, CC_matrix data M), []).
Proof.
  intros HM. unfold TheilSen_Cummins.
  destruct (column_pair_rows _ _ _ 0 Hdata) as (Hshape & _); [fold M; lia|].
  rewrite Hshape. fold M. cbn [length nth].
  destruct (Nat.ltb_spec M 2) as [|_]; [lia|]. cbn [Nat.eqb negb orb].
  assert (Hm : np_median (finite_values (concat (CC_matrix data M))) = Some a).
  { apply np_median_all_equal.
    - pose proof (on_line_CC_has_slope HM) as Hin.
      apply finite_values_In in Hin. intros E. now rewrite E in Hin.
    - apply Forall_forall. intros v Hv. apply finite_values_In in Hv.
      symmetry. now apply on_line_CC_entries. }
  rewrite Hm.
  assert (Hb : np_median (map (fun i => get2 data i 1 - a * get2 data i 0)
                            (seq 0 M)) = Some b).
  { apply np_median_all_equal.
    - destruct M; [lia|]. discriminate.
    - apply Forall_forall. intros v Hv. apply in_map_iff in Hv.
      destruct Hv as [i [<- Hi]]. apply in_seq in Hi.
      destruct (on_line_row i) as [-> ->]; [lia|]. lra. }
  now rewrite Hb.
Qed.

End OnLine.

(** C9.  For every [a] and [b] and every strictly increasing predictor of at
    least two values, the from-scratch Theil-Sen estimator on the points
    [(x[i], a x[i] + b)] returns the slope [a] and the intercept [b]: every
    finite pairwise slope is [a] and every residual [y[i] - a x[i]] is [b]. *)
Theorem C9_TheilSen_Cummins_exact_on_line (a b : R) (x : list R) :
  (2 <= length x)%nat -> strictly_increasing x ->
  exists data CC,
    column_pair x (on_line a b x) = Ok data
    /\ TheilSen_Cummins data = (Some (Some a, Some b, CC), [])
    /\ (forall v, In (Some v) (concat CC) -> v = a)
    /\ In (Some a) (concat CC)
    /\ (forall i, (i < length x)%nat ->
                  nth i (on_line a b x) 0 - a * nth i x 0 = b).
Proof.
  intros HM Hinc.
  assert (Hdata : exists data, column_pair x (on_line a b x) = Ok data).
  { unfold column_pair, on_line. rewrite length_map, Nat.eqb_refl. eauto. }
  destruct Hdata as [data Hdata].
  exists data, (CC_matrix data (length x)).
  split; [assumption|]. split; [now apply (on_line_fit a b x)|].
  split; [intros v; now apply (on_line_CC_entries a b x)|].
  split; [now apply (on_line_CC_has_slope a b x)|].
  intros i Hi. unfold on_line.
  rewrite (nth_map_in_range (fun v => a * v + b)) by assumption. lra.
Qed.

Lemma C9_witness :
  exists data CC,
    column_pair [0; 1; 3] (on_line 2 5 [0; 1; 3]) = Ok data
    /\ TheilSen_Cummins data = (Some (Some 2, Some 5, CC), [])
    /\ (forall v, In (Some v) (concat CC) -> v = 2)
    /\ In (Some 2) (concat CC)
    /\ (forall i, (i < length [0; 1; 3])%nat ->
                  nth i (on_line 2 5 [0; 1; 3]) 0 - 2 * nth i [0; 1; 3] 0 = 5).
Proof.
  apply (C9_TheilSen_Cummins_exact_on_line 2 5 [0; 1; 3]).
  - simpl; lia.
  - intros i j Hij Hj. simpl in Hj.
    destruct j as [|[|[|j]]]; [lia| | |lia];
      destruct i as [|[|i]]; try lia; simpl; lra.
Defined.

(** C10.  On a matrix of at least two rows whose number of columns is not 2,
    [TheilSen_Cummins] returns [None] and prints nothing, so indexing the
    returned value raises; a fit is returned only for two columns. *)
Theorem C10_TheilSen_Cummins_other_widths (data : ndarray) (r c : nat) :
  shape data = [r; c] -> (2 <= r)%nat -> c <> 2%nat ->
  TheilSen_Cummins data = (None, [])
  /\ fit_getitem0 (fst (TheilSen_Cummins data)) = Raise TypeError
  /\ (forall data' fit msgs,
         TheilSen_Cummins data' = (Some fit, msgs) ->
         exists r', shape data' = [r'; 2%nat] /\ (2 <= r')%nat).
Proof.
  intros Hs Hr Hc.
  assert (H : TheilSen_Cummins data = (None, [])).
  { unfold TheilSen_Cummins. rewrite Hs. cbn [length nth].
    destruct (Nat.ltb_spec r 2) as [|_]; [lia|]. cbn [Nat.eqb negb orb].
    destruct (Nat.eqb_spec c 2) as [|_]; [contradiction|reflexivity]. }
  split; [exact H|]. split; [now rewrite H|].
  intros data' fit msgs. unfold TheilSen_Cummins.
  destruct (shape data') as [|r' [|c' [|z sz]]]; cbn [length Nat.eqb negb orb];
    try discriminate.
  cbn [nth]. destruct (Nat.ltb_spec r' 2) as [|Hr']; [discriminate|].
  destruct (Nat.eqb_spec c' 2) as [->|_]; [|discriminate].
  intros _. exists r'. split; [reflexivity|assumption].
Qed.

Lemma C10_witness :
  TheilSen_Cummins {| shape := [2; 3]%nat; flat := [0; 1; 2; 3; 4; 5] |}
  = (None, [])
  /\ fit_getitem0
       (fst (TheilSen_Cummins
               {| shape := [2; 3]%nat; flat := [0; 1; 2; 3; 4; 5] |}))
     = Raise TypeError
  /\ (forall data' fit msgs,
         TheilSen_Cummins data' = (Some fit, msgs) ->
         exists r', shape data' = [r'; 2%nat] /\ (2 <= r')%nat).
Proof.
  apply (C10_TheilSen_Cummins_other_widths _ 2 3).
  - reflexivity.
  - lia.
  - lia.
Defined.

(** ** Monte Carlo trend simulator *)

Section MonteCarloFacts.
Context {L : Library}.

Lemma fit_trend_result_indep (time dummy_ts : list R) (nc : option Z)
    (sen_flag : Z) (nsim : nat) (trends : list (option R)) (w1 w2 : world) :
  fst (fit_trend time dummy_ts nc sen_flag nsim trends w1)
  = fst (fit_trend time dummy_ts nc sen_flag nsim trends w2).
Proof.
  unfold fit_trend.
  destruct (sen_flag =? 1)%Z.
  - destruct (length time =? length dummy_ts)%nat; [|reflexivity].
    destruct (negb _); [|reflexivity].
    destruct (getitem _ 0); reflexivity.
  - destruct (sen_flag =? 2)%Z.
    + destruct (column_pair time dummy_ts) as [data|]; [|reflexivity].
      destruct (TheilSen_Cummins data) as [r msgs].
      destruct (fit_getitem0 r); reflexivity.
    + destruct (length time =? length dummy_ts)%nat; reflexivity.
Qed.

(** A trial reads nothing of the generator state it starts from. *)
Lemma trial_result_indep (maxlag : nat) (time data_mag : list R) (npts : nat)
    (nc : option Z) (sen_flag : Z) (nsim : nat) (a : mc_arrays)
    (w1 w2 : world) :
  fst (trial maxlag time data_mag npts nc sen_flag nsim a w1)
  = fst (trial maxlag time data_mag npts nc sen_flag nsim a w2).
Proof.
  unfold trial. cbn [rng stdout].
  destruct (np_random_random_sample npts (np_random_seed (base_seed + nsim)))
    as [u g].
  match goal with
  | |- fst (match fit_trend ?t ?d ?n ?s ?i ?tr ?wa with _ => _ end)
       = fst (match fit_trend _ _ _ _ _ _ ?wb with _ => _ end) =>
      pose proof (fit_trend_result_indep t d n s i tr wa wb) as H;
      destruct (fit_trend t d n s i tr wa) as [[[tr1|]|e1] wa'];
      destruct (fit_trend t d n s i tr wb) as [[[tr2|]|e2] wb'];
      simpl in H; try discriminate; try (injection H as ->);
      try reflexivity
  end.
  destruct (length _ <=? maxlag)%nat; reflexivity.
Qed.

Lemma trials_result_indep (maxlag : nat) (time data_mag : list R) (npts : nat)
    (nc : option Z) (sen_flag : Z) (nsims : list nat) (a : mc_arrays)
    (w1 w2 : world) :
  fst (trials maxlag time data_mag npts nc sen_flag nsims a w1)
  = fst (trials maxlag time data_mag npts nc sen_flag nsims a w2).
Proof.
  revert a w1 w2; induction nsims as [|nsim rest IH]; intros a w1 w2;
    [reflexivity|].
  cbn [trials].
  pose proof (trial_result_indep maxlag time data_mag npts nc sen_flag nsim
                a w1 w2) as H.
  destruct (trial maxlag time data_mag npts nc sen_flag nsim a w1)
    as [[[a1|]|e1] w1'];
    destruct (trial maxlag time data_mag npts nc sen_flag nsim a w2)
      as [[[a2|]|e2] w2'];
    simpl in H; try discriminate; try (injection H as ->);
    try reflexivity.
  apply IH.
Qed.

Lemma fit_trend_rng (time dummy_ts : list R) (nc : option Z)
    (sen_flag : Z) (nsim : nat) (trends : list (option R)) (w : world) :
  rng (snd (fit_trend time dummy_ts nc sen_flag nsim trends w)) = rng w.
Proof.
  unfold fit_trend.
  destruct (sen_flag =? 1)%Z.
  - destruct (length time =? length dummy_ts)%nat; [|reflexivity].
    destruct (negb _); [|reflexivity].
    destruct (getitem _ 0); reflexivity.
  - destruct (sen_flag =? 2)%Z.
    + destruct (column_pair time dummy_ts) as [data|]; [|reflexivity].
      destruct (TheilSen_Cummins data) as [r msgs].
      destruct (fit_getitem0 r); reflexivity.
    + destruct (length time =? length dummy_ts)%nat; reflexivity.
Qed.

(** Trial [nsim] draws from the generator seeded with [42 + nsim] and
    leaves it as that one draw does. *)
Lemma trial_rng (maxlag : nat) (time data_mag : list R) (npts : nat)
    (nc : option Z) (sen_flag : Z) (nsim : nat) (a : mc_arrays) (w : world) :
  rng (snd (trial maxlag time data_mag npts nc sen_flag nsim a w))
  = snd (np_random_random_sample npts (np_random_seed (42 + nsim))).
Proof.
  unfold trial. cbn [rng stdout]. change base_seed with 42%nat.
  destruct (np_random_random_sample npts (np_random_seed (42 + nsim)))
    as [u g]. cbn [snd].
  match goal with
  | |- rng (snd (match fit_trend ?t ?d ?n ?s ?i ?tr ?wa with _ => _ end))
       = _ =>
      pose proof (fit_trend_rng t d n s i tr wa) as H;
      destruct (fit_trend t d n s i tr wa) as [[[tr1|]|e1] wa'];
      try exact H
  end.
  destruct (length _ <=? maxlag)%nat; exact H.
Qed.

(** With the from-scratch backend ([sen_flag = 2]) a series of fewer than
    two points makes [TheilSen_Cummins] return [None], and the index [[0]]
    on it raises. *)
Lemma fit_trend_sen2_short_series (time dummy_ts : list R) (nc : option Z)
    (nsim : nat) (trends : list (option R)) (w : world) :
  length time = length dummy_ts -> (length time < 2)%nat ->
  fit_trend time dummy_ts nc 2 nsim trends w
  = (Raise TypeError,
     {| rng := rng w; stdout := stdout w ++ [Msg_expecting_MxD] |}).
Proof.
  intros Hlen Hshort. unfold fit_trend. cbn [Z.eqb Pos.eqb].
  unfold column_pair. rewrite Hlen, Nat.eqb_refl.
  unfold TheilSen_Cummins. cbn [shape length Nat.eqb negb orb nth].
  rewrite <- Hlen.
  destruct (Nat.ltb_spec (length time) 2) as [_|]; [|lia].
  reflexivity.
Qed.

(** C6.  Two runs of [monte_carlo_trend] with the same trial count, maximum
    lag, timestamps, residual series and backend give the same result, slopes
    included, whatever the state of the random generator and the output
    before each run: every trial seeds the generator with [42 + nsim] before
    it draws, and so draws what that seed gives. *)
Theorem C6_monte_carlo_trend_deterministic (max_siml maxlag : nat)
    (time data_record : list R) (nc : option Z) (sen_flag : Z)
    (w1 w2 : world) :
  fst (monte_carlo_trend max_siml maxlag time data_record nc sen_flag w1)
  = fst (monte_carlo_trend max_siml maxlag time data_record nc sen_flag w2)
  /\ forall nsim a,
      rng (snd (trial maxlag time (amplitude_spectrum data_record)
                  (length data_record) nc sen_flag nsim a w1))
      = snd (np_random_random_sample (length data_record)
               (np_random_seed (42 + nsim)))
      /\ fst (trial maxlag time (amplitude_spectrum data_record)
                (length data_record) nc sen_flag nsim a w1)
         = fst (trial maxlag time (amplitude_spectrum data_record)
                  (length data_record) nc sen_flag nsim a w2).
Proof.
  split.
  - unfold monte_carlo_trend.
    destruct (length data_record =? 0)%nat; [reflexivity|].
    match goal with
    | |- fst (match trials ?ml ?t ?dm ?np ?n ?s ?ns ?a ?wa with _ => _ end)
         = fst (match trials _ _ _ _ _ _ _ _ ?wb with _ => _ end) =>
        pose proof (trials_result_indep ml t dm np n s ns a wa wb) as H;
        destruct (trials ml t dm np n s ns a wa) as [[[a1|]|e1] wa'];
        destruct (trials ml t dm np n s ns a wb) as [[[a2|]|e2] wb'];
        simpl in H; try discriminate; try (injection H as ->); reflexivity
    end.
  - intros nsim a. split; [apply trial_rng|apply trial_result_indep].
Qed.

End MonteCarloFacts.

(** ** Writing into an array *)

Lemma set_nth_length {A : Type} (i : nat) (v : A) (l : list A) :
  length (set_nth i v l) = length l.
Proof.
  revert i; induction l as [|x l IH]; intros [|i]; simpl; auto.
Qed.

Lemma set_nth_same {A : Type} (i : nat) (v d : A) (l : list A) :
  (i < length l)%nat -> nth i (set_nth i v l) d = v.
Proof.
  revert i; induction l as [|x l IH]; intros [|i] H; simpl in *;
    try lia; [reflexivity|].
  apply IH. lia.
Qed.

Lemma set_nth_other {A : Type} (i j : nat) (v d : A) (l : list A) :
  i <> j -> nth i (set_nth j v l) d = nth i l d.
Proof.
  revert i j; induction l as [|x l IH]; intros [|i] [|j] H; simpl;
    try reflexivity; try congruence.
  apply IH. congruence.
Qed.

(** The length of a surrogate: the amplitudes and the phases are multiplied
    elementwise, and the transforms keep the length. *)
Lemma surrogate_length_min (data_mag ph_ang : list R) :
  length (surrogate data_mag ph_ang)
  = Nat.min (length data_mag) (length ph_ang).
Proof.
  unfold surrogate, ifft, synthetic_spectrum. cbv zeta.
  rewrite !length_map, length_seq. apply length_combine.
Qed.

Lemma amplitude_spectrum_length (x : list R) :
  length (amplitude_spectrum x) = length x.
Proof.
  unfold amplitude_spectrum, fft. now rewrite !length_map, length_seq.
Qed.

Section TrialSeries.
Context {L : Library}.

(** [np.random.random_sample(n)] draws [n] numbers. *)
Hypothesis Hdraw :
  forall n g, length (fst (np_random_random_sample n g)) = n.

Lemma trial_phases_length (npts nsim : nat) :
  length (trial_phases npts nsim) = npts.
Proof. unfold trial_phases. now rewrite length_map, Hdraw. Qed.

Lemma trial_series_length (data_mag : list R) (npts nsim : nat) :
  length data_mag = npts -> length (trial_series data_mag npts nsim) = npts.
Proof.
  intros H. unfold trial_series.
  rewrite surrogate_length_min, trial_phases_length, H. apply Nat.min_id.
Qed.

End TrialSeries.

Section LibraryTheilSenBackend.
Context {L : Library}.
Variables (maxlag : nat) (time data_mag : list R) (npts : nat)
  (nc : option Z).




End LibraryTheilSenBackend.

Section LibraryTheilSenRun.
Context {L : Library}.
Variables (max_siml maxlag : nat) (time data_record : list R)
  (nc : option Z).

Hypothesis Hdraw :
  forall n g, length (fst (np_random_random_sample n g)) = n.
Hypothesis Htime : length time = length data_record.
Hypothesis Hlag : (maxlag < length data_record)%nat.





End LibraryTheilSenRun.

Lemma stand_in_draw_length (n : nat)
    (g : rng_state (Library := stand_in_library)) :
  length (fst (np_random_random_sample (Library := stand_in_library) n g)) = n.
Proof. simpl. apply repeat_length. Qed.


(** ** Spectral surrogates *)

Lemma Cabs_nonneg (z : complex) : 0 <= Cabs z.
Proof. apply sqrt_pos. Qed.

Lemma Cabs_real (r : R) : 0 <= r -> Cabs (mkC r 0) = r.
Proof.
  intros Hr. unfold Cabs. cbn [re im].
  replace (r * r + 0 * 0) with (r * r) by lra. now apply sqrt_square.
Qed.

(** A nonnegative amplitude times a unit phase factor has that amplitude as
    its modulus. *)
Lemma Cabs_scale_phase (A phi : R) :
  0 <= A -> Cabs (Cscale A (Cexp_i phi)) = A.
Proof.
  intros HA. unfold Cabs, Cscale, Cexp_i. cbn [re im].
  replace (A * cos phi * (A * cos phi) + A * sin phi * (A * sin phi))
    with (A * A * ((sin phi)² + (cos phi)²)) by (unfold Rsqr; lra).
  rewrite sin2_cos2, Rmult_1_r. now apply sqrt_square.
Qed.

Lemma synthetic_spectrum_amplitudes (mags phs : list R) :
  length phs = length mags -> Forall (fun A => 0 <= A) mags ->
  map Cabs (synthetic_spectrum mags phs) = mags.
Proof.
  revert phs; induction mags as [|A mags IH]; intros phs Hlen Hpos.
  - reflexivity.
  - destruct phs as [|phi phs]; [discriminate|].
    inversion Hpos as [|? ? HA Hrest]; subst.
    unfold synthetic_spectrum in *. cbn [combine map fst snd].
    rewrite Cabs_scale_phase by assumption.
    f_equal. apply IH; [simpl in Hlen; lia|assumption].
Qed.

Lemma amplitude_spectrum_nonneg (x : list R) :
  Forall (fun A => 0 <= A) (amplitude_spectrum x).
Proof.
  unfold amplitude_spectrum. apply Forall_forall. intros A HA.
  apply in_map_iff in HA. destruct HA as [z [<- _]]. apply Cabs_nonneg.
Qed.

(** The transforms of two points. *)
Lemma fft_pair (x0 x1 : R) :
  fft [RtoC x0; RtoC x1] = [mkC (x0 + x1) 0; mkC (x0 - x1) 0].
Proof.
  unfold fft, Csum, Cmul, Cadd, Cexp_i, RtoC, C0.
  cbn [length seq map nth fold_left re im INR].
  replace (- (2 * PI * 0 * 0 / (1 + 1))) with 0 by lra.
  replace (- (2 * PI * 0 * 1 / (1 + 1))) with 0 by lra.
  replace (- (2 * PI * 1 * 0 / (1 + 1))) with 0 by lra.
  replace (- (2 * PI * 1 * 1 / (1 + 1))) with (- PI) by lra.
  rewrite cos_neg, sin_neg, cos_PI, sin_PI, cos_0, sin_0.
  f_equal; [f_equal; lra|]. f_equal. f_equal; lra.
Qed.

Lemma ifft_pair (z0 z1 : complex) :
  ifft [z0; z1]
  = [mkC ((re z0 + re z1) / 2) ((im z0 + im z1) / 2);
     mkC ((re z0 - re z1) / 2) ((im z0 - im z1) / 2)].
Proof.
  unfold ifft, Csum, Cscale, Cmul, Cadd, Cexp_i, C0.
  cbn [length seq map nth fold_left re im INR].
  replace (2 * PI * 0 * 0 / (1 + 1)) with 0 by lra.
  replace (2 * PI * 0 * 1 / (1 + 1)) with 0 by lra.
  replace (2 * PI * 1 * 0 / (1 + 1)) with 0 by lra.
  replace (2 * PI * 1 * 1 / (1 + 1)) with PI by lra.
  rewrite cos_PI, sin_PI, cos_0, sin_0.
  f_equal; [f_equal; lra|]. f_equal. f_equal; lra.
Qed.

Lemma Cabs_real_abs (r : R) : Cabs (mkC r 0) = Rabs r.
Proof.
  unfold Cabs. cbn [re im].
  replace (r * r + 0 * 0) with (Rsqr r) by (unfold Rsqr; lra).
  apply sqrt_Rsqr_abs.
Qed.

(** The amplitude spectrum of the surrogate of two points: at each frequency
    the amplitude that went in, times [sqrt 2 * |cos phase|]. *)
Lemma surrogate_pair_amplitudes (A0 A1 phi0 phi1 : R) :
  amplitude_spectrum (surrogate [A0; A1] [phi0; phi1])
  = [Rabs (sqrt 2 * (A0 * cos phi0)); Rabs (sqrt 2 * (A1 * cos phi1))].
Proof.
  unfold surrogate, synthetic_spectrum. cbn [combine map fst snd].
  rewrite ifft_pair. unfold Cscale, Cexp_i. cbn [map re im].
  unfold amplitude_spectrum. cbn [map]. rewrite fft_pair. cbn [map].
  rewrite !Cabs_real_abs. f_equal; [f_equal; lra|].
  f_equal. f_equal. lra.
Qed.

Lemma amplitude_spectrum_plus_minus :
  amplitude_spectrum [1; -1] = [0; 2].
Proof.
  unfold amplitude_spectrum. cbn [map]. rewrite fft_pair. cbn [map].
  replace (1 + -1) with 0 by lra. replace (1 - -1) with 2 by lra.
  rewrite !Cabs_real by lra. reflexivity.
Qed.

Lemma sqrt2_not_1 : sqrt 2 <> 1.
Proof.
  intros E. pose proof (sqrt_sqrt 2 ltac:(lra)) as H. rewrite E in H. lra.
Qed.

(** *** The transform of a surrogate of any length *)

Lemma sum_upto_0 (f : nat -> R) : sum_upto 0 f = 0.
Proof. reflexivity. Qed.

Lemma sum_upto_S N f : sum_upto (S N) f = sum_upto N f + f N.
Proof.
  unfold sum_upto. rewrite seq_S, map_app, np_sum_app. cbn [map Nat.add].
  rewrite np_sum_cons. unfold np_sum at 2. cbn [fold_left]. lra.
Qed.

Lemma sum_upto_shift N f :
  sum_upto (S N) f = f 0%nat + sum_upto N (fun n => f (S n)).
Proof.
  unfold sum_upto. cbn [seq map]. rewrite np_sum_cons.
  now rewrite <- seq_shift, map_map.
Qed.

Lemma sum_upto_ext N f g :
  (forall n, (n < N)%nat -> f n = g n) -> sum_upto N f = sum_upto N g.
Proof.
  intros H. unfold sum_upto. f_equal. apply map_ext_in. intros n Hn.
  apply in_seq in Hn. apply H. lia.
Qed.

Lemma sum_upto_plus N f g :
  sum_upto N (fun n => f n + g n) = sum_upto N f + sum_upto N g.
Proof.
  induction N as [|N IH]; [rewrite !sum_upto_0; lra|].
  rewrite !sum_upto_S, IH. lra.
Qed.

Lemma sum_upto_scale N c f :
  sum_upto N (fun n => c * f n) = c * sum_upto N f.
Proof.
  induction N as [|N IH]; [rewrite !sum_upto_0; lra|].
  rewrite !sum_upto_S, IH. lra.
Qed.

Lemma sum_upto_const N c : sum_upto N (fun _ => c) = INR N * c.
Proof.
  induction N as [|N IH]; [rewrite sum_upto_0; simpl; lra|].
  rewrite sum_upto_S, IH, S_INR. lra.
Qed.

Lemma sum_upto_swap N M (f : nat -> nat -> R) :
  sum_upto N (fun n => sum_upto M (fun j => f n j))
  = sum_upto M (fun j => sum_upto N (fun n => f n j)).
Proof.
  induction N as [|N IH].
  - rewrite sum_upto_0. symmetry. rewrite (sum_upto_ext _ _ (fun _ => 0)).
    + rewrite sum_upto_const. lra.
    + intros. apply sum_upto_0.
  - rewrite sum_upto_S, IH, <- sum_upto_plus. apply sum_upto_ext. intros j _.
    now rewrite sum_upto_S.
Qed.

Lemma sum_upto_delta N k v : (k < N)%nat ->
  sum_upto N (fun j => if (j =? k)%nat then v j else 0) = v k.
Proof.
  induction N as [|N IH]; [lia|]. intros Hk. rewrite sum_upto_S.
  destruct (Nat.eq_dec k N) as [->|Hne].
  - rewrite Nat.eqb_refl. rewrite (sum_upto_ext _ _ (fun _ => 0)).
    + rewrite sum_upto_const. lra.
    + intros n Hn. destruct (Nat.eqb_spec n N); [lia|reflexivity].
  - rewrite IH by lia. destruct (Nat.eqb_spec N k); [lia|]. lra.
Qed.

(** The sums of the cosines and of the sines of the multiples of an angle
    that closes after [N] steps and is not a full turn are zero. *)
Lemma trig_sum_zero (N : nat) (theta : R) :
  cos (INR N * theta) = 1 -> sin (INR N * theta) = 0 -> cos theta <> 1 ->
  sum_upto N (fun n => cos (INR n * theta)) = 0
  /\ sum_upto N (fun n => sin (INR n * theta)) = 0.
Proof.
  intros HcN HsN Hc.
  set (Sc := sum_upto N (fun n => cos (INR n * theta))).
  set (Ss := sum_upto N (fun n => sin (INR n * theta))).
  assert (H1 : sum_upto N (fun n => cos (INR (S n) * theta)) = Sc).
  { pose proof (sum_upto_S N (fun n => cos (INR n * theta))) as A.
    pose proof (sum_upto_shift N (fun n => cos (INR n * theta))) as B.
    rewrite A in B. simpl INR in B at 2.
    rewrite Rmult_0_l, cos_0, HcN in B. fold Sc in B. lra. }
  assert (H2 : sum_upto N (fun n => sin (INR (S n) * theta)) = Ss).
  { pose proof (sum_upto_S N (fun n => sin (INR n * theta))) as A.
    pose proof (sum_upto_shift N (fun n => sin (INR n * theta))) as B.
    rewrite A in B. simpl INR in B at 2.
    rewrite Rmult_0_l, sin_0, HsN in B. fold Ss in B. lra. }
  assert (H3 : sum_upto N (fun n => cos (INR (S n) * theta))
               = cos theta * Sc - sin theta * Ss).
  { rewrite (sum_upto_ext _ _ (fun n => cos theta * cos (INR n * theta)
                                    + (- sin theta) * sin (INR n * theta))).
    - rewrite sum_upto_plus, !sum_upto_scale. fold Sc Ss. lra.
    - intros n _. rewrite S_INR.
      replace ((INR n + 1) * theta) with (INR n * theta + theta) by lra.
      rewrite cos_plus. lra. }
  assert (H4 : sum_upto N (fun n => sin (INR (S n) * theta))
               = sin theta * Sc + cos theta * Ss).
  { rewrite (sum_upto_ext _ _ (fun n => sin theta * cos (INR n * theta)
                                    + cos theta * sin (INR n * theta))).
    - rewrite sum_upto_plus, !sum_upto_scale. fold Sc Ss. lra.
    - intros n _. rewrite S_INR.
      replace ((INR n + 1) * theta) with (INR n * theta + theta) by lra.
      rewrite sin_plus. lra. }
  rewrite H1 in H3. rewrite H2 in H4.
  set (c := cos theta) in *. set (s := sin theta) in *.
  assert (Hd : 0 < (1 - c) * (1 - c) + s * s).
  { assert (1 - c <> 0) by lra. nra. }
  assert (A1 : (1 - c) * Sc = - s * Ss) by lra.
  assert (A2 : (1 - c) * Ss = s * Sc) by lra.
  assert (E1 : ((1 - c) * (1 - c) + s * s) * Sc = 0).
  { replace (((1 - c) * (1 - c) + s * s) * Sc)
      with ((1 - c) * ((1 - c) * Sc) + s * (s * Sc)) by ring.
    rewrite A1, <- A2. ring. }
  assert (E2 : ((1 - c) * (1 - c) + s * s) * Ss = 0).
  { replace (((1 - c) * (1 - c) + s * s) * Ss)
      with ((1 - c) * ((1 - c) * Ss) + s * (s * Ss)) by ring.
    rewrite A2. replace (s * (s * Ss)) with (- s * (- s * Ss)) by ring.
    rewrite <- A1. ring. }
  split.
  - destruct (Rmult_integral _ _ E1); [lra|assumption].
  - destruct (Rmult_integral _ _ E2); [lra|assumption].
Qed.

Lemma cos_2PI_nat (q : nat) : cos (2 * INR q * PI) = 1.
Proof.
  replace (2 * INR q * PI) with (0 + 2 * INR q * PI) by lra.
  rewrite cos_period. apply cos_0.
Qed.

Lemma sin_2PI_nat (q : nat) : sin (2 * INR q * PI) = 0.
Proof.
  replace (2 * INR q * PI) with (0 + 2 * INR q * PI) by lra.
  rewrite sin_period. apply sin_0.
Qed.

(** The angle [2 pi m / N] is a full turn only when [N] divides [m]. *)
Lemma cos_eq_1_divides (N m : nat) :
  (1 <= N)%nat -> cos (2 * PI * INR m / INR N) = 1 -> (m mod N = 0)%nat.
Proof.
  intros HN Hc.
  assert (HNR : 0 < INR N) by (apply lt_0_INR; lia).
  replace (2 * PI * INR m / INR N) with (2 * (PI * INR m / INR N)) in Hc
    by (field; lra).
  rewrite cos_2a_sin in Hc.
  assert (Hs : sin (PI * INR m / INR N) = 0).
  { set (s := sin (PI * INR m / INR N)) in *.
    assert (s * s = 0) by lra.
    destruct (Rmult_integral _ _ H); assumption. }
  destruct (sin_eq_0_0 _ Hs) as [k Hk].
  pose proof PI_RGT_0 as Hpi.
  assert (E : INR m = IZR k * INR N).
  { assert (H : PI * INR m = IZR k * PI * INR N)
      by (rewrite <- Hk; field; lra).
    apply (Rmult_eq_reg_l PI); [|lra]. rewrite H. ring. }
  rewrite !INR_IZR_INZ, <- mult_IZR in E. apply eq_IZR in E.
  assert (Hk0 : (0 <= k)%Z) by nia.
  apply Nat.Div0.mod_divides. exists (Z.to_nat k). nia.
Qed.

(** The cosines of the sampled angles add up to [N] when [N] divides [m] and
    to 0 otherwise; the sines add up to 0. *)
Lemma trig_sum (N m : nat) :
  (1 <= N)%nat ->
  sum_upto N (fun n => cos (angle N m n))
  = (if (m mod N =? 0)%nat then INR N else 0)
  /\ sum_upto N (fun n => sin (angle N m n)) = 0.
Proof.
  intros HN.
  assert (HNR : 0 < INR N) by (apply lt_0_INR; lia).
  destruct (Nat.eqb_spec (m mod N) 0) as [Hdiv|Hndiv].
  - apply Nat.Div0.mod_divides in Hdiv. destruct Hdiv as [q ->].
    assert (E : forall n, angle N (N * q) n = 2 * INR (q * n) * PI).
    { intros n. unfold angle. rewrite !mult_INR. field. lra. }
    split.
    + rewrite (sum_upto_ext _ _ (fun _ => 1)).
      * rewrite sum_upto_const. lra.
      * intros n _. rewrite E. apply cos_2PI_nat.
    + rewrite (sum_upto_ext _ _ (fun _ => 0)).
      * rewrite sum_upto_const. lra.
      * intros n _. rewrite E. apply sin_2PI_nat.
  - set (theta := 2 * PI * INR m / INR N).
    assert (E : forall n, angle N m n = INR n * theta).
    { intros n. unfold angle, theta. field. lra. }
    assert (EN : INR N * theta = 2 * INR m * PI).
    { unfold theta. field. lra. }
    destruct (trig_sum_zero N theta) as [Hc Hs].
    + rewrite EN. apply cos_2PI_nat.
    + rewrite EN. apply sin_2PI_nat.
    + intros Hc. apply Hndiv. now apply cos_eq_1_divides.
    + split.
      * rewrite (sum_upto_ext _ _ (fun n => cos (INR n * theta))); [exact Hc|].
        intros n _. now rewrite E.
      * rewrite (sum_upto_ext _ _ (fun n => sin (INR n * theta))); [exact Hs|].
        intros n _. now rewrite E.
Qed.

Lemma angle_sum (N j k n : nat) : angle N j n + angle N k n = angle N (j + k) n.
Proof. unfold angle. rewrite plus_INR. unfold Rdiv. ring. Qed.

Lemma cos_angle_diff (N j k n : nat) :
  cos (angle N j n - angle N k n) = cos (angle N (gap j k) n).
Proof.
  unfold gap. destruct (Nat.leb_spec k j) as [H|H].
  - f_equal. unfold angle. rewrite minus_INR by assumption. unfold Rdiv. ring.
  - rewrite <- cos_neg. f_equal. unfold angle.
    rewrite minus_INR by lia. unfold Rdiv. ring.
Qed.

Lemma sin_angle_diff (N j k n : nat) :
  sin (angle N j n - angle N k n)
  = (if (k <=? j)%nat then 1 else -1) * sin (angle N (gap j k) n).
Proof.
  unfold gap. destruct (Nat.leb_spec k j) as [H|H].
  - rewrite Rmult_1_l. f_equal. unfold angle.
    rewrite minus_INR by assumption. unfold Rdiv. ring.
  - replace (-1 * sin (angle N (k - j) n)) with (- sin (angle N (k - j) n))
      by lra.
    rewrite <- sin_neg. f_equal. unfold angle.
    rewrite minus_INR by lia. unfold Rdiv. ring.
Qed.

Section Orthogonality.
Variables (N : nat).
Hypothesis HN : (1 <= N)%nat.

Let d1 (j k : nat) : R := indicator (gap j k mod N =? 0)%nat.
Let d2 (j k : nat) : R := indicator ((j + k) mod N =? 0)%nat.

Lemma sum_cos_ind (m : nat) :
  sum_upto N (fun n => cos (angle N m n))
  = INR N * indicator (m mod N =? 0)%nat.
Proof.
  destruct (trig_sum N m HN) as [-> _]. unfold indicator.
  destruct (m mod N =? 0)%nat; lra.
Qed.

Lemma sum_sin_zero (m : nat) : sum_upto N (fun n => sin (angle N m n)) = 0.
Proof. now destruct (trig_sum N m HN). Qed.

Lemma sum_cos_cos (j k : nat) :
  sum_upto N (fun n => cos (angle N j n) * cos (angle N k n))
  = INR N / 2 * (d1 j k + d2 j k).
Proof.
  rewrite (sum_upto_ext _ _ (fun n => / 2 * cos (angle N (gap j k) n)
                                  + / 2 * cos (angle N (j + k) n))).
  - rewrite sum_upto_plus, !sum_upto_scale, !sum_cos_ind. unfold d1, d2. lra.
  - intros n _.
    rewrite <- cos_angle_diff, <- angle_sum, cos_minus, cos_plus. lra.
Qed.

Lemma sum_sin_sin (j k : nat) :
  sum_upto N (fun n => sin (angle N j n) * sin (angle N k n))
  = INR N / 2 * (d1 j k - d2 j k).
Proof.
  rewrite (sum_upto_ext _ _ (fun n => / 2 * cos (angle N (gap j k) n)
                                  + (- / 2) * cos (angle N (j + k) n))).
  - rewrite sum_upto_plus, !sum_upto_scale, !sum_cos_ind. unfold d1, d2. lra.
  - intros n _.
    rewrite <- cos_angle_diff, <- angle_sum, cos_minus, cos_plus. lra.
Qed.

Lemma sum_sin_cos (j k : nat) :
  sum_upto N (fun n => sin (angle N j n) * cos (angle N k n)) = 0.
Proof.
  rewrite (sum_upto_ext _ _
             (fun n => / 2 * sin (angle N (j + k) n)
                       + (/ 2 * (if (k <=? j)%nat then 1 else -1))
                         * sin (angle N (gap j k) n))).
  - rewrite sum_upto_plus, !sum_upto_scale, !sum_sin_zero. lra.
  - intros n _. rewrite Rmult_assoc, <- sin_angle_diff, <- angle_sum.
    rewrite sin_minus, sin_plus. lra.
Qed.

Lemma sum_cos_sin (j k : nat) :
  sum_upto N (fun n => cos (angle N j n) * sin (angle N k n)) = 0.
Proof.
  rewrite (sum_upto_ext _ _ (fun n => sin (angle N k n) * cos (angle N j n))).
  - apply sum_sin_cos.
  - intros n _. lra.
Qed.

End Orthogonality.

Lemma fold_Cadd_parts (l : list complex) (z : complex) :
  re (fold_left Cadd l z) = re z + np_sum (map re l)
  /\ im (fold_left Cadd l z) = im z + np_sum (map im l).
Proof.
  revert z; induction l as [|x l IH]; intros z.
  - simpl. unfold np_sum; simpl. split; lra.
  - cbn [fold_left map]. destruct (IH (Cadd z x)) as [-> ->].
    rewrite !np_sum_cons. unfold Cadd; cbn [re im]. split; lra.
Qed.

Lemma Csum_re (N : nat) (f : nat -> complex) :
  re (Csum (map f (seq 0 N))) = sum_upto N (fun j => re (f j)).
Proof.
  unfold Csum, sum_upto.
  destruct (fold_Cadd_parts (map f (seq 0 N)) C0) as [-> _].
  rewrite map_map. cbn [re C0]. lra.
Qed.

Lemma Csum_im (N : nat) (f : nat -> complex) :
  im (Csum (map f (seq 0 N))) = sum_upto N (fun j => im (f j)).
Proof.
  unfold Csum, sum_upto.
  destruct (fold_Cadd_parts (map f (seq 0 N)) C0) as [_ ->].
  rewrite map_map. cbn [im C0]. lra.
Qed.

Lemma nth_map_index {A : Type} (f : nat -> A) (N k : nat) (d : A) :
  (k < N)%nat -> nth k (map f (seq 0 N)) d = f k.
Proof.
  intros Hk. rewrite (nth_indep _ d (f 0%nat))
    by (rewrite length_map, length_seq; lia).
  rewrite (map_nth f), seq_nth by lia. reflexivity.
Qed.

Lemma gap_ind (N j k : nat) :
  (j < N)%nat -> (k < N)%nat ->
  (gap j k mod N =? 0)%nat = (j =? k)%nat.
Proof.
  intros Hj Hk. unfold gap.
  destruct (Nat.leb_spec k j); rewrite Nat.mod_small by lia;
    destruct (Nat.eqb_spec j k), (Nat.eqb_spec (j - k) 0),
      (Nat.eqb_spec (k - j) 0); try reflexivity; lia.
Qed.

Lemma mirror_indicator (N j k : nat) :
  (j < N)%nat -> (k < N)%nat ->
  ((j + k) mod N =? 0)%nat = (j =? (N - k) mod N)%nat.
Proof.
  intros Hj Hk.
  destruct (Nat.eq_dec k 0) as [->|Hk0].
  - rewrite Nat.add_0_r, Nat.sub_0_r, Nat.Div0.mod_same.
    rewrite Nat.mod_small by lia. reflexivity.
  - rewrite (Nat.mod_small (N - k)) by lia.
    destruct (Nat.lt_ge_cases (j + k) N) as [Hlt|Hge].
    + rewrite Nat.mod_small by lia.
      destruct (Nat.eqb_spec (j + k) 0), (Nat.eqb_spec j (N - k));
        try reflexivity; lia.
    + replace (j + k)%nat with ((j + k - N) + 1 * N)%nat by lia.
      rewrite Nat.Div0.mod_add, Nat.mod_small by lia.
      destruct (Nat.eqb_spec (j + k - N) 0), (Nat.eqb_spec j (N - k));
        try reflexivity; lia.
Qed.

Lemma sum_upto_pick (N k : nat) (a : nat -> R) :
  (k < N)%nat -> sum_upto N (fun j => a j * indicator (j =? k)%nat) = a k.
Proof.
  intros Hk. rewrite <- (sum_upto_delta N k a Hk). apply sum_upto_ext.
  intros j _. unfold indicator. destruct (j =? k)%nat; lra.
Qed.

Section SurrogateSpectrum.
Variable Z : list complex.
Let N := length Z.
Hypothesis HN : (1 <= N)%nat.

Let a (j : nat) : R := re (nth j Z C0).
Let b (j : nat) : R := im (nth j Z C0).

Let s (n : nat) : R :=
  sqrt 2 * (1 / INR N * sum_upto N (fun j => a j * cos (angle N j n)
                                       - b j * sin (angle N j n))).

Lemma surrogate_nth (n : nat) :
  (n < N)%nat ->
  nth n (map (fun z => sqrt 2 * re z) (ifft Z)) 0 = s n.
Proof.
  intros Hn. unfold ifft. fold N. rewrite map_map.
  rewrite nth_map_index by assumption.
  unfold Cscale. cbn [re]. rewrite Csum_re. unfold s. do 3 f_equal.
Qed.

Lemma surrogate_length :
  length (map (fun z => sqrt 2 * re z) (ifft Z)) = N.
Proof. unfold ifft. now rewrite !length_map, length_seq. Qed.

Lemma sum_s_cos (k : nat) :
  (k < N)%nat ->
  sum_upto N (fun n => s n * cos (angle N k n))
  = sqrt 2 / 2 * (a k + a (mirror N k)).
Proof.
  intros Hk.
  assert (HNR : 0 < INR N) by (apply lt_0_INR; lia).
  rewrite (sum_upto_ext _ _
             (fun n =>
                sqrt 2 / INR N
                * sum_upto N
                    (fun j => a j * (cos (angle N j n) * cos (angle N k n))
                              + (- b j) * (sin (angle N j n)
                                           * cos (angle N k n))))).
  2:{ intros n _.
      rewrite (sum_upto_ext N _
                 (fun j =>
                    cos (angle N k n)
                    * (a j * cos (angle N j n) - b j * sin (angle N j n))))
        by (intros; ring).
      rewrite sum_upto_scale. unfold s. field. lra. }
  rewrite sum_upto_scale, sum_upto_swap.
  rewrite (sum_upto_ext _ _
             (fun j => INR N / 2 * (a j * indicator (j =? k)%nat)
                       + INR N / 2 * (a j * indicator (j =? mirror N k)%nat))).
  2:{ intros j Hj. rewrite sum_upto_plus, !sum_upto_scale.
      rewrite sum_cos_cos, sum_sin_cos by assumption.
      rewrite gap_ind, mirror_indicator by assumption. unfold mirror. ring. }
  rewrite sum_upto_plus, !sum_upto_scale, !sum_upto_pick.
  - field. lra.
  - unfold mirror. apply Nat.mod_upper_bound. lia.
  - assumption.
Qed.

Lemma sum_s_sin (k : nat) :
  (k < N)%nat ->
  sum_upto N (fun n => s n * sin (angle N k n))
  = - (sqrt 2 / 2 * (b k - b (mirror N k))).
Proof.
  intros Hk.
  assert (HNR : 0 < INR N) by (apply lt_0_INR; lia).
  rewrite (sum_upto_ext _ _
             (fun n =>
                sqrt 2 / INR N
                * sum_upto N
                    (fun j => a j * (cos (angle N j n) * sin (angle N k n))
                              + (- b j) * (sin (angle N j n)
                                           * sin (angle N k n))))).
  2:{ intros n _.
      rewrite (sum_upto_ext N _
                 (fun j =>
                    sin (angle N k n)
                    * (a j * cos (angle N j n) - b j * sin (angle N j n))))
        by (intros; ring).
      rewrite sum_upto_scale. unfold s. field. lra. }
  rewrite sum_upto_scale, sum_upto_swap.
  rewrite (sum_upto_ext _ _
             (fun j => (- (INR N / 2)) * (b j * indicator (j =? k)%nat)
                       + INR N / 2 * (b j * indicator (j =? mirror N k)%nat))).
  2:{ intros j Hj. rewrite sum_upto_plus, !sum_upto_scale.
      rewrite sum_cos_sin, sum_sin_sin by assumption.
      rewrite gap_ind, mirror_indicator by assumption. unfold mirror. ring. }
  rewrite sum_upto_plus, !sum_upto_scale, !sum_upto_pick.
  - field. lra.
  - unfold mirror. apply Nat.mod_upper_bound. lia.
  - assumption.
Qed.

(** The transform of the surrogate built from the spectrum [Z]: at frequency
    [k] it is [sqrt 2 / 2] times [Z[k]] plus the conjugate of [Z[N - k]]. *)
Lemma surrogate_transform (k : nat) :
  (k < N)%nat ->
  nth k (fft (map RtoC (map (fun z => sqrt 2 * re z) (ifft Z)))) C0
  = mkC (sqrt 2 / 2 * (a k + a (mirror N k)))
        (sqrt 2 / 2 * (b k - b (mirror N k))).
Proof.
  intros Hk. unfold fft. rewrite length_map, surrogate_length.
  rewrite nth_map_index by assumption.
  assert (Hn : forall n, (n < N)%nat ->
             nth n (map RtoC (map (fun z => sqrt 2 * re z) (ifft Z))) C0
             = RtoC (s n)).
  { intros n Hlt. change C0 with (RtoC 0). rewrite map_nth.
    f_equal. now apply surrogate_nth. }
  match goal with
  | |- ?z = mkC ?x ?y =>
      assert (Hre : re z = x); [|assert (Him : im z = y)]
  end.
  - rewrite Csum_re, <- sum_s_cos by assumption. apply sum_upto_ext.
    intros n Hlt. rewrite Hn by assumption.
    unfold Cmul, RtoC, Cexp_i. cbn [re im]. rewrite cos_neg. fold (angle N k n).
    ring.
  - rewrite Csum_im.
    replace (sqrt 2 / 2 * (b k - b (mirror N k)))
      with (- - (sqrt 2 / 2 * (b k - b (mirror N k)))) by ring.
    rewrite <- sum_s_sin by assumption.
    rewrite <- (Rmult_1_l (sum_upto N (fun n => s n * sin (angle N k n)))).
    rewrite Ropp_mult_distr_l, <- sum_upto_scale. apply sum_upto_ext.
    intros n Hlt. rewrite Hn by assumption.
    unfold Cmul, RtoC, Cexp_i. cbn [re im]. rewrite sin_neg, cos_neg.
    fold (angle N k n). ring.
  - destruct (Csum _) as [x y]. cbn [re im] in Hre, Him. now subst.
Qed.

End SurrogateSpectrum.

Lemma nth_map_any {A B : Type} (f : A -> B) (l : list A) (k : nat)
    (d : B) (d' : A) :
  (k < length l)%nat -> nth k (map f l) d = f (nth k l d').
Proof.
  intros Hk. rewrite (nth_indep _ d (f d')) by (now rewrite length_map).
  apply map_nth.
Qed.

Lemma angle_mirror (N k n : nat) :
  (1 <= N)%nat -> (k < N)%nat ->
  cos (angle N (mirror N k) n) = cos (angle N k n)
  /\ sin (angle N (mirror N k) n) = - sin (angle N k n).
Proof.
  intros HN Hk.
  assert (HNR : 0 < INR N) by (apply lt_0_INR; lia).
  unfold mirror. destruct (Nat.eq_dec k 0) as [->|Hk0].
  - rewrite Nat.sub_0_r, Nat.Div0.mod_same.
    unfold angle. simpl INR. replace (2 * PI * 0 * INR n / INR N) with 0
      by (field; lra).
    rewrite sin_0. split; [reflexivity|lra].
  - rewrite Nat.mod_small by lia.
    assert (E : angle N (N - k) n = - angle N k n + 2 * INR n * PI).
    { unfold angle. rewrite minus_INR by lia. field. lra. }
    rewrite E, cos_period, sin_period, cos_neg, sin_neg. split; reflexivity.
Qed.

(** The transform of a real series at the mirrored frequency is the
    conjugate, so the amplitude spectrum is symmetric. *)
Lemma amplitude_spectrum_mirror (x : list R) (k : nat) :
  (k < length x)%nat ->
  nth (mirror (length x) k) (amplitude_spectrum x) 0
  = nth k (amplitude_spectrum x) 0.
Proof.
  intros Hk. set (N := length x).
  assert (HN : (1 <= N)%nat) by (unfold N; lia).
  assert (Hm : (mirror N k < N)%nat)
    by (unfold mirror; apply Nat.mod_upper_bound; lia).
  unfold amplitude_spectrum, fft. rewrite length_map. fold N.
  rewrite !(nth_map_any Cabs _ _ 0 C0)
    by (rewrite length_map, length_seq; assumption).
  rewrite !nth_map_index by assumption.
  unfold Cabs. rewrite !Csum_re, !Csum_im.
  assert (Hre : sum_upto N (fun j => re (Cmul (nth j (map RtoC x) C0)
                                      (Cexp_i (- (2 * PI * INR (mirror N k)
                                                  * INR j / INR N)))))
                = sum_upto N (fun j => re (Cmul (nth j (map RtoC x) C0)
                                         (Cexp_i (- (2 * PI * INR k
                                                     * INR j / INR N)))))).
  { apply sum_upto_ext. intros n Hn. change C0 with (RtoC 0). rewrite map_nth.
    unfold Cmul, RtoC, Cexp_i. cbn [re im].
    fold (angle N (mirror N k) n). fold (angle N k n).
    rewrite !cos_neg, !sin_neg.
    destruct (angle_mirror N k n HN Hk) as [-> ->]. ring. }
  assert (Him : sum_upto N (fun j => im (Cmul (nth j (map RtoC x) C0)
                                      (Cexp_i (- (2 * PI * INR (mirror N k)
                                                  * INR j / INR N)))))
                = - sum_upto N (fun j => im (Cmul (nth j (map RtoC x) C0)
                                           (Cexp_i (- (2 * PI * INR k
                                                       * INR j / INR N)))))).
  { rewrite <- (Rmult_1_l (sum_upto N (fun j => im (Cmul (nth j (map RtoC x) C0)
                                           (Cexp_i (- (2 * PI * INR k
                                                       * INR j / INR N))))))).
    rewrite Ropp_mult_distr_l, <- sum_upto_scale.
    apply sum_upto_ext. intros n Hn. change C0 with (RtoC 0). rewrite map_nth.
    unfold Cmul, RtoC, Cexp_i. cbn [re im].
    fold (angle N (mirror N k) n). fold (angle N k n).
    rewrite !cos_neg, !sin_neg.
    destruct (angle_mirror N k n HN Hk) as [-> ->]. ring. }
  rewrite Hre, Him. f_equal. ring.
Qed.

Lemma synthetic_spectrum_nth (A phs : list R) (j : nat) :
  length phs = length A -> (j < length A)%nat ->
  nth j (synthetic_spectrum A phs) C0
  = mkC (nth j A 0 * cos (nth j phs 0)) (nth j A 0 * sin (nth j phs 0)).
Proof.
  intros Hlen Hj. unfold synthetic_spectrum.
  rewrite (nth_map_any _ _ _ C0 (0, 0)) by (rewrite length_combine; lia).
  rewrite combine_nth by (symmetry; assumption). reflexivity.
Qed.

Lemma synthetic_spectrum_length (A phs : list R) :
  length phs = length A -> length (synthetic_spectrum A phs) = length A.
Proof.
  intros Hlen. unfold synthetic_spectrum.
  rewrite length_map, length_combine. lia.
Qed.

(** The modulus of [sqrt 2 / 2] times the sum of a number of modulus [A]
    and phase [p] and the conjugate of one of modulus [A] and phase [q]. *)
Lemma mixed_amplitude (A p q : R) :
  0 <= A ->
  Cabs (mkC (sqrt 2 / 2 * (A * cos p + A * cos q))
            (sqrt 2 / 2 * (A * sin p - A * sin q)))
  = A * sqrt (1 + cos (p + q)).
Proof.
  intros HA. unfold Cabs. cbn [re im].
  pose proof (sqrt_sqrt 2 ltac:(lra)) as H2.
  pose proof (sin2_cos2 p) as Hp. pose proof (sin2_cos2 q) as Hq.
  unfold Rsqr in Hp, Hq.
  replace (sqrt 2 / 2 * (A * cos p + A * cos q)
           * (sqrt 2 / 2 * (A * cos p + A * cos q))
           + sqrt 2 / 2 * (A * sin p - A * sin q)
             * (sqrt 2 / 2 * (A * sin p - A * sin q)))
    with (A * A * (1 + cos (p + q))).
  - rewrite sqrt_mult.
    + now rewrite sqrt_square.
    + apply Rle_0_sqr.
    + pose proof (COS_bound (p + q)). lra.
  - rewrite cos_plus.
    replace (sqrt 2 / 2 * (A * cos p + A * cos q)
             * (sqrt 2 / 2 * (A * cos p + A * cos q))
             + sqrt 2 / 2 * (A * sin p - A * sin q)
               * (sqrt 2 / 2 * (A * sin p - A * sin q)))
      with ((sqrt 2 * sqrt 2) / 4 * (A * A)
            * ((sin p * sin p + cos p * cos p)
               + (sin q * sin q + cos q * cos q)
               + 2 * (cos p * cos q - sin p * sin q))) by (field; lra).
    rewrite H2, Hp, Hq. field.
Qed.

Lemma fft_length (l : list complex) : length (fft l) = length l.
Proof. unfold fft. now rewrite length_map, length_seq. Qed.

Lemma ifft_length (l : list complex) : length (ifft l) = length l.
Proof. unfold ifft. now rewrite length_map, length_seq. Qed.

(** The amplitude spectrum of a surrogate, for a series of any length: at
    frequency [k] it is the amplitude of the residual times
    [sqrt (1 + cos (phase[k] + phase[N - k]))]. *)
Lemma surrogate_amplitude_law (x phs : list R) (k : nat) :
  length phs = length x -> (k < length x)%nat ->
  nth k (amplitude_spectrum (surrogate (amplitude_spectrum x) phs)) 0
  = nth k (amplitude_spectrum x) 0
    * sqrt (1 + cos (nth k phs 0 + nth (mirror (length x) k) phs 0)).
Proof.
  intros Hlen Hk.
  set (A := amplitude_spectrum x).
  assert (HA : length A = length x) by apply amplitude_spectrum_length.
  assert (Hlen' : length phs = length A) by congruence.
  assert (HZ : length (synthetic_spectrum A phs) = length x)
    by (rewrite synthetic_spectrum_length; assumption).
  assert (Hm : (mirror (length x) k < length x)%nat)
    by (unfold mirror; apply Nat.mod_upper_bound; lia).
  unfold amplitude_spectrum at 1.
  rewrite (nth_map_any Cabs _ _ 0 C0).
  2:{ rewrite fft_length, length_map. unfold surrogate.
      rewrite length_map, ifft_length, HZ. assumption. }
  unfold surrogate. rewrite surrogate_transform by (rewrite HZ; lia).
  rewrite HZ. rewrite !synthetic_spectrum_nth by (assumption || lia).
  cbn [re im].
  assert (Hsym : nth (mirror (length x) k) A 0 = nth k A 0)
    by (now apply amplitude_spectrum_mirror).
  rewrite Hsym. apply mixed_amplitude.
  pose proof (amplitude_spectrum_nonneg x) as Hpos.
  rewrite Forall_forall in Hpos. apply Hpos. apply nth_In. fold A. lia.
Qed.

(** C2 as amended.  For every residual series and every vector of as many
    phase angles: the synthetic spectrum [data_mag * exp(i * ph_ang)] that is
    inverted has the amplitude spectrum of the residual, only its phases
    differ; and the amplitude spectrum of the surrogate is, at each frequency
    [k], the amplitude of the residual times
    [sqrt (1 + cos (ph_ang[k] + ph_ang[(N - k) mod N]))]. *)
Theorem C2_surrogate_amplitude_spectrum (data_record ph_ang : list R) :
  length ph_ang = length data_record ->
  map Cabs (synthetic_spectrum (amplitude_spectrum data_record) ph_ang)
  = amplitude_spectrum data_record
  /\ forall k, (k < length data_record)%nat ->
       nth k (amplitude_spectrum
                (surrogate (amplitude_spectrum data_record) ph_ang)) 0
       = nth k (amplitude_spectrum data_record) 0
         * sqrt (1 + cos (nth k ph_ang 0
                          + nth (mirror (length data_record) k) ph_ang 0)).
Proof.
  intros Hlen. split.
  - apply synthetic_spectrum_amplitudes.
    + now rewrite amplitude_spectrum_length.
    + apply amplitude_spectrum_nonneg.
  - intros k Hk. now apply surrogate_amplitude_law.
Qed.

Lemma C2_witness :
  map Cabs (synthetic_spectrum (amplitude_spectrum [1; -1]) [0; PI])
  = amplitude_spectrum [1; -1]
  /\ forall k, (k < 2)%nat ->
       nth k (amplitude_spectrum
                (surrogate (amplitude_spectrum [1; -1]) [0; PI])) 0
       = nth k (amplitude_spectrum [1; -1]) 0
         * sqrt (1 + cos (nth k [0; PI] 0
                          + nth (mirror 2 k) [0; PI] 0)).
Proof.
  apply (C2_surrogate_amplitude_spectrum [1; -1] [0; PI]).
  reflexivity.
Defined.

(** C2 as stated fails: for the residual [1, -1] and the phases [0, 0] the
    amplitude spectrum of the surrogate is [0, 2 sqrt 2], not the amplitude
    spectrum [0, 2] of the residual. *)
Lemma C2_counterexample :
  amplitude_spectrum (surrogate (amplitude_spectrum [1; -1]) [0; 0])
  <> amplitude_spectrum [1; -1].
Proof.
  rewrite amplitude_spectrum_plus_minus, surrogate_pair_amplitudes.
  rewrite cos_0. intros E. injection E as _ E.
  assert (Hs : 0 <= sqrt 2) by apply sqrt_pos.
  rewrite Rabs_right in E by lra.
  apply sqrt2_not_1. lra.
Qed.

(** ** Empirical percentile extractor: histogram *)

Lemma Rleb_true (x y : R) : x <= y -> Rleb x y = true.
Proof. intros H. unfold Rleb. destruct (Rle_dec x y); tauto. Qed.

Lemma Rleb_false (x y : R) : y < x -> Rleb x y = false.
Proof. intros H. unfold Rleb. destruct (Rle_dec x y); [lra|reflexivity]. Qed.

Lemma Rltb_true (x y : R) : x < y -> Rltb x y = true.
Proof. intros H. unfold Rltb. destruct (Rlt_dec x y); tauto. Qed.

Lemma Rltb_false (x y : R) : y <= x -> Rltb x y = false.
Proof. intros H. unfold Rltb. destruct (Rlt_dec x y); [lra|reflexivity]. Qed.

Lemma fold_left_Rmin_le (t : list R) (x : R) :
  fold_left Rmin t x <= x /\ forall v, In v t -> fold_left Rmin t x <= v.
Proof.
  revert x; induction t as [|y t IH]; intros x; simpl.
  - split; [lra|tauto].
  - destruct (IH (Rmin x y)) as [H1 H2].
    pose proof (Rmin_l x y). pose proof (Rmin_r x y).
    split; [lra|]. intros v [<-|Hv]; [lra|now apply H2].
Qed.

Lemma fold_left_Rmax_ge (t : list R) (x : R) :
  x <= fold_left Rmax t x /\ forall v, In v t -> v <= fold_left Rmax t x.
Proof.
  revert x; induction t as [|y t IH]; intros x; simpl.
  - split; [lra|tauto].
  - destruct (IH (Rmax x y)) as [H1 H2].
    pose proof (Rmax_l x y). pose proof (Rmax_r x y).
    split; [lra|]. intros v [<-|Hv]; [lra|now apply H2].
Qed.

Lemma fold_left_Rmin_In (t : list R) (x : R) : In (fold_left Rmin t x) (x :: t).
Proof.
  revert x; induction t as [|y t IH]; intros x; simpl; [now left|].
  destruct (IH (Rmin x y)) as [H|H].
  - unfold Rmin in H at 1. destruct (Rle_dec x y); auto.
  - auto.
Qed.

Lemma fold_left_Rmax_In (t : list R) (x : R) : In (fold_left Rmax t x) (x :: t).
Proof.
  revert x; induction t as [|y t IH]; intros x; simpl; [now left|].
  destruct (IH (Rmax x y)) as [H|H].
  - unfold Rmax in H at 1. destruct (Rle_dec x y); auto.
  - auto.
Qed.

(** The range of the histogram is not empty and holds every value. *)
Lemma outer_edges_cover (a : list R) :
  fst (outer_edges a) < snd (outer_edges a)
  /\ forall v, In v a -> fst (outer_edges a) <= v <= snd (outer_edges a).
Proof.
  destruct a as [|x t]; simpl; [split; [lra|tauto]|].
  destruct (fold_left_Rmin_le t x) as [Hl1 Hl2].
  destruct (fold_left_Rmax_ge t x) as [Hh1 Hh2].
  assert (Hall : forall v, x = v \/ In v t ->
                           fold_left Rmin t x <= v <= fold_left Rmax t x).
  { intros v [<-|Hv]; [lra|]. split; [now apply Hl2|now apply Hh2]. }
  destruct (Req_dec_T (fold_left Rmin t x) (fold_left Rmax t x)) as [E|Hne];
    simpl.
  - split; [lra|]. intros v Hv. specialize (Hall v Hv). lra.
  - split; [|exact Hall]. specialize (Hall x (or_introl eq_refl)). lra.
Qed.

(** The range of values that are not all the same is their minimum and
    maximum. *)
Lemma outer_edges_min_max (a : list R) (lo hi : R) :
  In lo a -> In hi a -> lo < hi -> (forall v, In v a -> lo <= v <= hi) ->
  outer_edges a = (lo, hi).
Proof.
  intros Hlo Hhi Hlt Hall. destruct a as [|x t]; [contradiction|].
  unfold outer_edges.
  destruct (fold_left_Rmin_le t x) as [Hl1 Hl2].
  destruct (fold_left_Rmax_ge t x) as [Hh1 Hh2].
  pose proof (Hall _ (fold_left_Rmin_In t x)) as Hm.
  pose proof (Hall _ (fold_left_Rmax_In t x)) as HM.
  assert (Emin : fold_left Rmin t x = lo).
  { destruct Hlo as [<-|Hlo]; [lra|]. specialize (Hl2 lo Hlo). lra. }
  assert (Emax : fold_left Rmax t x = hi).
  { destruct Hhi as [<-|Hhi]; [lra|]. specialize (Hh2 hi Hhi). lra. }
  rewrite Emin, Emax.
  destruct (Req_dec_T lo hi); [lra|reflexivity].
Qed.

Lemma linspace_nth (start stop : R) (n j : nat) :
  (j <= n)%nat ->
  nth j (linspace start stop n) 0
  = if (j =? n)%nat then stop else start + INR j * ((stop - start) / INR n).
Proof.
  intros Hj. unfold linspace.
  rewrite (nth_indep _ 0
             ((fun j => if (j =? n)%nat then stop
                        else start + INR j * ((stop - start) / INR n)) 0%nat))
    by (rewrite length_map, length_seq; lia).
  rewrite (map_nth (fun j => if (j =? n)%nat then stop
                             else start + INR j * ((stop - start) / INR n))).
  rewrite seq_nth by lia. reflexivity.
Qed.

Lemma linspace_length (start stop : R) (n : nat) :
  length (linspace start stop n) = (n + 1)%nat.
Proof. unfold linspace. now rewrite length_map, length_seq. Qed.

(** The edges grow from [start] to [stop]. *)
Lemma linspace_edges (start stop : R) (n : nat) :
  (1 <= n)%nat -> start < stop ->
  nth 0 (linspace start stop n) 0 = start
  /\ nth n (linspace start stop n) 0 = stop
  /\ forall j, (j < n)%nat ->
               nth j (linspace start stop n) 0
               < nth (j + 1) (linspace start stop n) 0.
Proof.
  intros Hn Hlt.
  assert (HnR : 0 < INR n) by (apply lt_0_INR; lia).
  split; [|split].
  - rewrite linspace_nth by lia.
    destruct (Nat.eqb_spec 0 n); [lia|]. simpl. lra.
  - rewrite linspace_nth by lia. now rewrite Nat.eqb_refl.
  - intros j Hj. rewrite !linspace_nth by lia.
    destruct (Nat.eqb_spec j n); [lia|].
    assert (Hstep : 0 < (stop - start) / INR n)
      by (apply Rdiv_lt_0_compat; lra).
    destruct (Nat.eqb_spec (j + 1) n) as [E|_].
    + replace stop with (start + INR n * ((stop - start) / INR n))
        at 2 by (field; lra).
      apply Rplus_lt_compat_l, Rmult_lt_compat_r; [assumption|].
      apply lt_INR. lia.
    + apply Rplus_lt_compat_l, Rmult_lt_compat_r; [assumption|].
      apply lt_INR. lia.
Qed.

Lemma nat_sum_acc (l : list nat) (a : nat) :
  fold_left Nat.add l a = (a + fold_left Nat.add l 0)%nat.
Proof.
  revert a; induction l as [|x l IH]; intros a; simpl; [lia|].
  rewrite (IH (a + x)%nat), (IH x). lia.
Qed.

Lemma nat_sum_map_add (f g : nat -> nat) (l : list nat) :
  fold_left Nat.add (map (fun j => (f j + g j)%nat) l) 0%nat
  = (fold_left Nat.add (map f l) 0 + fold_left Nat.add (map g l) 0)%nat.
Proof.
  induction l as [|x l IH]; simpl; [reflexivity|].
  rewrite (nat_sum_acc _ (f x + g x)), (nat_sum_acc _ (f x)),
    (nat_sum_acc _ (g x)), IH. lia.
Qed.

Lemma nat_sum_indicator (p : nat -> bool) (l : list nat) :
  fold_left Nat.add (map (fun j => if p j then 1%nat else 0%nat) l) 0%nat
  = length (filter p l).
Proof.
  induction l as [|x l IH]; simpl; [reflexivity|].
  rewrite nat_sum_acc, IH. destruct (p x); simpl; lia.
Qed.

Section Bins.
Variables (edges : list R) (nbins : nat).
Hypothesis Hbins : (1 <= nbins)%nat.
Hypothesis Hgrow :
  forall j, (j < nbins)%nat -> nth j edges 0 < nth (j + 1) edges 0.

(** The number of bins below bin [k] that take the value [v]. *)
Let hits (v : R) (k : nat) : nat :=
  length (filter (fun j => in_bin edges nbins j v) (seq 0 k)).

Lemma hits_S (v : R) (k : nat) :
  hits v (S k)
  = (hits v k + if in_bin edges nbins k v then 1 else 0)%nat.
Proof.
  unfold hits. rewrite seq_S, filter_app, length_app. simpl.
  destruct (in_bin edges nbins k v); reflexivity.
Qed.

Lemma hits_half_open (v : R) (k : nat) :
  (k <= nbins - 1)%nat -> nth 0 edges 0 <= v ->
  hits v k = if Rltb v (nth k edges 0) then 1%nat else 0%nat.
Proof.
  intros Hk H0. induction k as [|k IH].
  - unfold hits. simpl. now rewrite Rltb_false.
  - rewrite hits_S, IH by lia. unfold in_bin.
    destruct (Nat.eqb_spec k (nbins - 1)); [lia|].
    pose proof (Hgrow k ltac:(lia)) as Hlt.
    replace (S k) with (k + 1)%nat by lia.
    destruct (Rlt_dec v (nth k edges 0)) as [Hv|Hv].
    + rewrite (Rltb_true _ _ Hv), Rleb_false by assumption.
      rewrite Rltb_true by lra. reflexivity.
    + rewrite Rltb_false, Rleb_true by lra. simpl.
      destruct (Rltb v (nth (k + 1) edges 0)); reflexivity.
Qed.

(** Every value of the range falls into exactly one bin. *)
Lemma hits_once (v : R) :
  nth 0 edges 0 <= v <= nth nbins edges 0 -> hits v nbins = 1%nat.
Proof.
  intros [H0 H1].
  replace (hits v nbins) with (hits v (S (nbins - 1))) by (f_equal; lia).
  rewrite hits_S, hits_half_open by (assumption || lia).
  unfold in_bin. rewrite Nat.eqb_refl.
  replace (nbins - 1 + 1)%nat with nbins by lia.
  destruct (Rlt_dec v (nth (nbins - 1) edges 0)) as [Hv|Hv].
  - now rewrite (Rltb_true _ _ Hv), Rleb_false.
  - rewrite Rltb_false, !Rleb_true by lra. reflexivity.
Qed.

Lemma bin_counts_total (a : list R) :
  (forall v, In v a -> nth 0 edges 0 <= v <= nth nbins edges 0) ->
  fold_left Nat.add
    (map (fun j => length (filter (in_bin edges nbins j) a)) (seq 0 nbins))
    0%nat
  = length a.
Proof.
  induction a as [|v a IH]; intros Hall.
  - simpl. induction (seq 0 nbins) as [|j l IHl]; simpl; auto.
  - rewrite (map_ext _
               (fun j => ((if in_bin edges nbins j v then 1 else 0)
                          + length (filter (in_bin edges nbins j) a))%nat)).
    2:{ intros j. simpl. destruct (in_bin edges nbins j v); reflexivity. }
    rewrite nat_sum_map_add, nat_sum_indicator, IH.
    + fold (hits v nbins). rewrite hits_once; [reflexivity|].
      apply Hall. now left.
    + intros u Hu. apply Hall. now right.
Qed.

End Bins.

Lemma np_histogram_shape (a : list R) (nbins : nat) :
  length (fst (np_histogram a nbins)) = nbins
  /\ length (snd (np_histogram a nbins)) = (nbins + 1)%nat.
Proof.
  unfold np_histogram. destruct (outer_edges a) as [lo hi]. simpl.
  now rewrite length_map, length_seq, linspace_length.
Qed.

(** The counts of the histogram add up to the number of values. *)
Lemma np_histogram_total (a : list R) (nbins : nat) :
  (1 <= nbins)%nat ->
  fold_left Nat.add (fst (np_histogram a nbins)) 0%nat = length a.
Proof.
  intros Hn. unfold np_histogram.
  destruct (outer_edges_cover a) as [Hlt Hall].
  destruct (outer_edges a) as [lo hi]. cbn [fst snd] in *.
  destruct (linspace_edges lo hi nbins Hn Hlt) as (E0 & En & Hgrow).
  apply bin_counts_total; [assumption|assumption|].
  intros v Hv. rewrite E0, En. now apply Hall.
Qed.

Lemma nbins_of_pos (max_siml : nat) : (2 <= nbins_of max_siml)%nat.
Proof. unfold nbins_of. destruct (500 <=? max_siml)%nat; lia. Qed.

(** ** Empirical percentile extractor: cumulative fractions and bounds *)

Lemma firstn_as_nth {A : Type} (d : A) (l : list A) (k : nat) :
  (k <= length l)%nat -> firstn k l = map (fun j => nth j l d) (seq 0 k).
Proof.
  revert l; induction k as [|k IH]; intros l Hk; [reflexivity|].
  destruct l as [|x l]; [simpl in Hk; lia|].
  cbn [firstn seq map nth]. f_equal.
  rewrite <- seq_shift, map_map. apply IH. simpl in Hk. lia.
Qed.

Lemma empirical_cdf_nth (count : list nat) (nbins k : nat) :
  (k < nbins)%nat ->
  nth k (empirical_cdf count nbins) 0
  = np_sum (map (fun c => INR c / INR (fold_left Nat.add count 0%nat))
              (firstn k count)).
Proof.
  intros Hk. unfold empirical_cdf.
  set (f := fun k =>
              np_sum (map (fun c => INR c / INR (fold_left Nat.add count 0%nat))
                        (firstn k count))).
  rewrite (nth_indep _ 0 (f 0%nat)) by (rewrite length_map, length_seq; lia).
  rewrite (map_nth f), seq_nth by lia. reflexivity.
Qed.

Lemma fraction_nonneg (c total : nat) : 0 <= INR c / INR total.
Proof.
  destruct total as [|t].
  - simpl. unfold Rdiv. rewrite Rinv_0. lra.
  - apply Rmult_le_pos; [apply pos_INR|].
    left. apply Rinv_0_lt_compat, lt_0_INR. lia.
Qed.

Lemma np_sum_firstn_mono (f : nat -> R) (l : list nat) (k k' : nat) :
  (forall c, 0 <= f c) -> (k <= k')%nat ->
  np_sum (map f (firstn k l)) <= np_sum (map f (firstn k' l)).
Proof.
  intros Hf. revert k k'; induction l as [|x l IH]; intros k k' Hk.
  - rewrite !firstn_nil. lra.
  - destruct k as [|k].
    + simpl. apply np_sum_nonneg, Forall_forall. intros v Hv.
      apply in_map_iff in Hv. destruct Hv as [c [<- _]]. apply Hf.
    + destruct k' as [|k']; [lia|]. cbn [firstn map].
      rewrite !np_sum_cons. specialize (IH k k' ltac:(lia)). lra.
Qed.

(** The cumulative fractions do not decrease from a bin to the next ones. *)
Lemma empirical_cdf_mono (count : list nat) (nbins k k' : nat) :
  (k <= k')%nat -> (k' < nbins)%nat ->
  nth k (empirical_cdf count nbins) 0 <= nth k' (empirical_cdf count nbins) 0.
Proof.
  intros Hk Hk'. rewrite !empirical_cdf_nth by lia.
  apply (np_sum_firstn_mono
           (fun c => INR c / INR (fold_left Nat.add count 0%nat)));
    [|assumption].
  intros c. apply fraction_nonneg.
Qed.

Lemma straddles_low_spec (N : list R) (n : nat) :
  straddles_low N n = true
  <-> nth n N 0 < alim_low /\ alim_low <= nth (n + 1) N 0.
Proof.
  unfold straddles_low, Rltb, Rleb.
  destruct (Rlt_dec (nth n N 0) alim_low),
    (Rle_dec alim_low (nth (n + 1) N 0)); simpl; split; intros H;
    try discriminate; tauto.
Qed.

Lemma straddles_high_spec (N : list R) (n : nat) :
  straddles_high N n = true
  <-> nth n N 0 <= alim_high /\ alim_high < nth (n + 1) N 0.
Proof.
  unfold straddles_high, Rltb, Rleb.
  destruct (Rle_dec (nth n N 0) alim_high),
    (Rlt_dec alim_high (nth (n + 1) N 0)); simpl; split; intros H;
    try discriminate; tauto.
Qed.

(** At most one pair of neighbouring bins straddles a level. *)
Lemma straddles_low_unique (count : list nat) (nbins n n' : nat) :
  (n + 1 < nbins)%nat -> (n' + 1 < nbins)%nat ->
  straddles_low (empirical_cdf count nbins) n = true ->
  straddles_low (empirical_cdf count nbins) n' = true -> n = n'.
Proof.
  intros Hn Hn' H H'. apply straddles_low_spec in H, H'.
  destruct (Nat.lt_trichotomy n n') as [Hlt|[E|Hlt]]; [|assumption|].
  - pose proof (empirical_cdf_mono count nbins (n + 1) n' ltac:(lia)
                  ltac:(lia)). lra.
  - pose proof (empirical_cdf_mono count nbins (n' + 1) n ltac:(lia)
                  ltac:(lia)). lra.
Qed.

Lemma straddles_high_unique (count : list nat) (nbins n n' : nat) :
  (n + 1 < nbins)%nat -> (n' + 1 < nbins)%nat ->
  straddles_high (empirical_cdf count nbins) n = true ->
  straddles_high (empirical_cdf count nbins) n' = true -> n = n'.
Proof.
  intros Hn Hn' H H'. apply straddles_high_spec in H, H'.
  destruct (Nat.lt_trichotomy n n') as [Hlt|[E|Hlt]]; [|assumption|].
  - pose proof (empirical_cdf_mono count nbins (n + 1) n' ltac:(lia)
                  ltac:(lia)). lra.
  - pose proof (empirical_cdf_mono count nbins (n' + 1) n ltac:(lia)
                  ltac:(lia)). lra.
Qed.

Lemma last_assigned_none (p : nat -> bool) (f : nat -> R) (ns : list nat)
    (v : option R) :
  (forall n, In n ns -> p n = false) -> last_assigned p f ns v = v.
Proof.
  unfold last_assigned. revert v; induction ns as [|n ns IH]; intros v H;
    simpl; [reflexivity|].
  rewrite (H n (or_introl eq_refl)). apply IH. intros m Hm. apply H. now right.
Qed.

Lemma last_assigned_kept (p : nat -> bool) (f : nat -> R) (ns : list nat)
    (r : R) :
  (forall n, In n ns -> p n = true -> f n = r) ->
  last_assigned p f ns (Some r) = Some r.
Proof.
  unfold last_assigned. induction ns as [|n ns IH]; intros H; simpl;
    [reflexivity|].
  destruct (p n) eqn:E.
  - rewrite (H n (or_introl eq_refl) E). apply IH.
    intros m Hm. apply H. now right.
  - apply IH. intros m Hm. apply H. now right.
Qed.

Lemma last_assigned_some (p : nat -> bool) (f : nat -> R) (ns : list nat)
    (v : option R) (r : R) :
  (forall n, In n ns -> p n = true -> f n = r) ->
  (exists n, In n ns /\ p n = true) ->
  last_assigned p f ns v = Some r.
Proof.
  revert v; induction ns as [|n ns IH]; intros v H [m [Hm Hp]];
    [contradiction|].
  change (last_assigned p f (n :: ns) v)
    with (last_assigned p f ns (if p n then Some (f n) else v)).
  destruct (p n) eqn:E.
  - rewrite (H n (or_introl eq_refl) E). apply last_assigned_kept.
    intros k Hk. apply H. now right.
  - destruct Hm as [->|Hm]; [congruence|].
    apply IH; [intros k Hk; apply H; now right|eauto].
Qed.

(** The scan treats its two variables separately. *)
Lemma scan_bounds_split (N bin_edges : list R) (ns : list nat) (env : locals) :
  temp_conf_int_low (fold_left (scan_step N bin_edges) ns env)
  = last_assigned (straddles_low N) (midpoint bin_edges) ns
      (temp_conf_int_low env)
  /\ temp_conf_int_high (fold_left (scan_step N bin_edges) ns env)
     = last_assigned (straddles_high N) (midpoint bin_edges) ns
         (temp_conf_int_high env).
Proof.
  unfold last_assigned. revert env; induction ns as [|n ns IH]; intros env;
    [split; reflexivity|].
  cbn [fold_left]. destruct (IH (scan_step N bin_edges env n)) as [-> ->].
  unfold scan_step.
  destruct (straddles_low N n), (straddles_high N n); split; reflexivity.
Qed.

Lemma percentile_extractor_unfold (max_siml : nat) (siml : list R)
    (env : locals) :
  percentile_extractor max_siml siml env
  = (half_width (scan_bounds (station_N max_siml siml)
                   (station_bin_edges max_siml siml) (nbins_of max_siml) env),
     scan_bounds (station_N max_siml siml)
       (station_bin_edges max_siml siml) (nbins_of max_siml) env).
Proof.
  unfold percentile_extractor, station_N, station_bin_edges, station_count.
  destruct (np_histogram siml (nbins_of max_siml)) as [count bin_edges].
  reflexivity.
Qed.

Section OneStation.
Variables (max_siml : nat) (siml : list R).

Let nbins := nbins_of max_siml.
Let N := station_N max_siml siml.
Let bin_edges := station_bin_edges max_siml siml.

Lemma scan_low_found (env : locals) (n : nat) :
  (n + 1 < nbins)%nat -> straddles_low N n = true ->
  temp_conf_int_low (scan_bounds N bin_edges nbins env)
  = Some (midpoint bin_edges n).
Proof.
  intros Hn Hs. unfold scan_bounds.
  destruct (scan_bounds_split N bin_edges (seq 0 (nbins - 1)) env) as [-> _].
  apply last_assigned_some.
  - intros n' Hn' Hs'. apply in_seq in Hn'. f_equal.
    apply (straddles_low_unique (station_count max_siml siml) nbins);
      try assumption. lia.
  - exists n. split; [apply in_seq; lia|assumption].
Qed.

Lemma scan_high_found (env : locals) (n : nat) :
  (n + 1 < nbins)%nat -> straddles_high N n = true ->
  temp_conf_int_high (scan_bounds N bin_edges nbins env)
  = Some (midpoint bin_edges n).
Proof.
  intros Hn Hs. unfold scan_bounds.
  destruct (scan_bounds_split N bin_edges (seq 0 (nbins - 1)) env) as [_ ->].
  apply last_assigned_some.
  - intros n' Hn' Hs'. apply in_seq in Hn'. f_equal.
    apply (straddles_high_unique (station_count max_siml siml) nbins);
      try assumption. lia.
  - exists n. split; [apply in_seq; lia|assumption].
Qed.

Lemma scan_low_missing (env : locals) :
  (forall n, (n + 1 < nbins)%nat -> straddles_low N n = false) ->
  temp_conf_int_low (scan_bounds N bin_edges nbins env)
  = temp_conf_int_low env.
Proof.
  intros H. unfold scan_bounds.
  destruct (scan_bounds_split N bin_edges (seq 0 (nbins - 1)) env) as [-> _].
  apply last_assigned_none. intros n Hn. apply in_seq in Hn. apply H. lia.
Qed.

Lemma scan_high_missing (env : locals) :
  (forall n, (n + 1 < nbins)%nat -> straddles_high N n = false) ->
  temp_conf_int_high (scan_bounds N bin_edges nbins env)
  = temp_conf_int_high env.
Proof.
  intros H. unfold scan_bounds.
  destruct (scan_bounds_split N bin_edges (seq 0 (nbins - 1)) env) as [_ ->].
  apply last_assigned_none. intros n Hn. apply in_seq in Hn. apply H. lia.
Qed.

(** The cumulative fraction at bin [k] is the sum of the fractions
    [count[j] / M] of the bins before it. *)
Lemma station_N_nth (k : nat) :
  (k < nbins)%nat ->
  nth k N 0
  = np_sum (map (fun j => INR (nth j (station_count max_siml siml) 0%nat)
                          / INR (length siml))
              (seq 0 k)).
Proof.
  intros Hk. unfold N, station_N. fold nbins.
  rewrite empirical_cdf_nth by assumption.
  unfold station_count at 1. fold nbins.
  rewrite np_histogram_total by (pose proof (nbins_of_pos max_siml); lia).
  rewrite (firstn_as_nth 0%nat).
  - now rewrite map_map.
  - unfold station_count. fold nbins.
    destruct (np_histogram_shape siml nbins) as [-> _]. lia.
Qed.

End OneStation.

(** C4.  For the simulated slopes of a station, [M] of them: the cumulative
    fraction at bin [k] is the sum of [count[j] / M] over the bins [j < k];
    for each of the levels 0.025 and 0.975 the bound is the midpoint
    [0.5 * (edge[n] + edge[n + 1])] of the edges of the straddling bin; and
    the reported half-width is half the difference of the upper and the
    lower bound. *)
Theorem C4_percentile_extractor (max_siml : nat) (siml : list R)
    (env : locals) :
  let nbins := nbins_of max_siml in
  let count := station_count max_siml siml in
  let bin_edges := station_bin_edges max_siml siml in
  let N := station_N max_siml siml in
  let env' := snd (percentile_extractor max_siml siml env) in
  (forall k, (k < nbins)%nat ->
     nth k N 0
     = np_sum (map (fun j => INR (nth j count 0%nat) / INR (length siml))
                 (seq 0 k)))
  /\ (forall n, (n + 1 < nbins)%nat -> straddles_low N n = true ->
        temp_conf_int_low env'
        = Some (5 / 10 * (nth n bin_edges 0 + nth (n + 1) bin_edges 0)))
  /\ (forall n, (n + 1 < nbins)%nat -> straddles_high N n = true ->
        temp_conf_int_high env'
        = Some (5 / 10 * (nth n bin_edges 0 + nth (n + 1) bin_edges 0)))
  /\ (forall lo hi,
        temp_conf_int_low env' = Some lo ->
        temp_conf_int_high env' = Some hi ->
        fst (percentile_extractor max_siml siml env) = Ok ((hi - lo) / 2)).
Proof.
  cbv zeta. rewrite percentile_extractor_unfold. cbn [fst snd].
  split; [|split; [|split]].
  - intros k Hk. now apply station_N_nth.
  - intros n Hn Hs. now apply scan_low_found.
  - intros n Hn Hs. now apply scan_high_found.
  - intros lo hi Hlo Hhi. unfold half_width. rewrite Hlo, Hhi.
    f_equal. lra.
Qed.

(** For the first station of a run, where no earlier station has assigned
    the bounds: if no pair of neighbouring bins straddles a level, the bound
    of that level is never assigned and the computation fails with a
    reference to an unbound variable.  For any station, if both levels are
    straddled, both bounds are defined and the half-width is computed. *)
Lemma percentile_extractor_first_station (max_siml : nat) (siml : list R) :
  let nbins := nbins_of max_siml in
  let N := station_N max_siml siml in
  ((forall n, (n + 1 < nbins)%nat -> straddles_low N n = false) ->
     temp_conf_int_low (snd (percentile_extractor max_siml siml unbound))
     = None
     /\ fst (percentile_extractor max_siml siml unbound)
        = Raise (UnboundLocalError "temp_conf_int_low"))
  /\ ((forall n, (n + 1 < nbins)%nat -> straddles_high N n = false) ->
        temp_conf_int_high (snd (percentile_extractor max_siml siml unbound))
        = None
        /\ exists name,
            fst (percentile_extractor max_siml siml unbound)
            = Raise (UnboundLocalError name))
  /\ (forall env,
        (exists n, (n + 1 < nbins)%nat /\ straddles_low N n = true) ->
        (exists n, (n + 1 < nbins)%nat /\ straddles_high N n = true) ->
        exists lo hi,
          temp_conf_int_low (snd (percentile_extractor max_siml siml env))
          = Some lo
          /\ temp_conf_int_high (snd (percentile_extractor max_siml siml env))
             = Some hi
          /\ fst (percentile_extractor max_siml siml env)
             = Ok (5 / 10 * (- lo + hi))).
Proof.
  cbv zeta. split; [|split].
  - intros H. rewrite percentile_extractor_unfold. cbn [fst snd].
    pose proof (scan_low_missing max_siml siml unbound H) as E.
    split; [exact E|]. unfold half_width. now rewrite E.
  - intros H. rewrite percentile_extractor_unfold. cbn [fst snd].
    pose proof (scan_high_missing max_siml siml unbound H) as E.
    split; [exact E|]. unfold half_width. rewrite E.
    cbn [unbound temp_conf_int_high].
    destruct (temp_conf_int_low _); eauto.
  - intros env [n [Hn Hs]] [n' [Hn' Hs']].
    rewrite percentile_extractor_unfold. cbn [fst snd].
    pose proof (scan_low_found max_siml siml env n Hn Hs) as El.
    pose proof (scan_high_found max_siml siml env n' Hn' Hs') as Eh.
    do 2 eexists. split; [exact El|]. split; [exact Eh|].
    unfold half_width. now rewrite El, Eh.
Qed.

(** Once both bounds are assigned, no later station of the run fails on
    them: a level that is not straddled keeps the bound of an earlier
    station. *)
Lemma percentile_extractor_bound_stays (max_siml : nat) (siml : list R)
    (env : locals) (lo hi : R) :
  temp_conf_int_low env = Some lo -> temp_conf_int_high env = Some hi ->
  exists ci, fst (percentile_extractor max_siml siml env) = Ok ci.
Proof.
  intros Hlo Hhi. rewrite percentile_extractor_unfold. cbn [fst].
  unfold scan_bounds, half_width.
  destruct (scan_bounds_split (station_N max_siml siml)
              (station_bin_edges max_siml siml)
              (seq 0 (nbins_of max_siml - 1)) env) as [-> ->].
  rewrite Hlo, Hhi. unfold last_assigned.
  assert (Hkeep : forall (p : nat -> bool) (f : nat -> R) ns v,
             exists r, fold_left (fun acc n => if p n then Some (f n) else acc)
                         ns (Some v) = Some r).
  { intros p f ns. induction ns as [|n ns IH]; intros v; simpl; [eauto|].
    destruct (p n); apply IH. }
  destruct (Hkeep (straddles_low (station_N max_siml siml))
              (midpoint (station_bin_edges max_siml siml))
              (seq 0 (nbins_of max_siml - 1)) lo) as [l ->].
  destruct (Hkeep (straddles_high (station_N max_siml siml))
              (midpoint (station_bin_edges max_siml siml))
              (seq 0 (nbins_of max_siml - 1)) hi) as [h ->].
  eauto.
Qed.

(** ** Two stations of one run *)

Lemma count_repeat (p : R -> bool) (v : R) (n : nat) :
  length (filter p (repeat v n)) = if p v then n else 0%nat.
Proof.
  induction n as [|n IH]; simpl; [now destruct (p v)|].
  destruct (p v); simpl; [now rewrite IH|exact IH].
Qed.

Lemma count_two_values (p : R -> bool) (u v : R) (n0 n1 : nat) :
  length (filter p (repeat u n0 ++ repeat v n1))
  = ((if p u then n0 else 0) + (if p v then n1 else 0))%nat.
Proof. now rewrite filter_app, length_app, !count_repeat. Qed.

(** Two explicit lists of reals agree when their entries do. *)
Ltac list_eq_lra :=
  repeat match goal with
         | |- (_ :: _) = (_ :: _) => apply f_equal2
         end;
  try reflexivity; try lra.

Lemma linspace_five (h : R) :
  linspace 0 h 5 = [0; h / 5; 2 * h / 5; 3 * h / 5; 4 * h / 5; h].
Proof.
  unfold linspace. cbn [seq map Nat.add Nat.eqb INR].
  list_eq_lra.
Qed.

(** The histogram of [n0] slopes of 0 and [n1] slopes of [h] in five bins:
    the first and the last bin hold them. *)
Lemma np_histogram_two_values (h : R) (n0 n1 : nat) :
  0 < h -> (1 <= n0)%nat -> (1 <= n1)%nat ->
  np_histogram (repeat 0 n0 ++ repeat h n1) 5
  = ([n0; 0; 0; 0; n1]%nat, [0; h / 5; 2 * h / 5; 3 * h / 5; 4 * h / 5; h]).
Proof.
  intros Hh H0 H1. unfold np_histogram.
  rewrite (outer_edges_min_max _ 0 h).
  - rewrite linspace_five. f_equal.
    cbn [seq map]. rewrite !count_two_values.
    unfold in_bin. cbn [nth Nat.add Nat.sub Nat.eqb].
    rewrite !(Rleb_true 0 0) by lra.
    rewrite (Rltb_true 0 (h / 5)) by lra.
    rewrite (Rleb_true 0 h) by lra.
    rewrite (Rltb_false h (h / 5)) by lra.
    rewrite (Rleb_false (h / 5) 0) by lra.
    rewrite (Rleb_false (2 * h / 5) 0) by lra.
    rewrite (Rleb_false (3 * h / 5) 0) by lra.
    rewrite (Rleb_false (4 * h / 5) 0) by lra.
    rewrite (Rleb_true (h / 5) h) by lra.
    rewrite (Rleb_true (2 * h / 5) h) by lra.
    rewrite (Rleb_true (3 * h / 5) h) by lra.
    rewrite (Rleb_true (4 * h / 5) h) by lra.
    rewrite (Rltb_false h (2 * h / 5)) by lra.
    rewrite (Rltb_false h (3 * h / 5)) by lra.
    rewrite (Rltb_false h (4 * h / 5)) by lra.
    rewrite (Rleb_true h h) by lra.
    cbn [andb]. repeat f_equal; lia.
  - apply in_or_app. left. destruct n0; [lia|now left].
  - apply in_or_app. right. destruct n1; [lia|now left].
  - assumption.
  - intros v Hv. apply in_app_or in Hv.
    destruct Hv as [Hv|Hv]; apply repeat_spec in Hv; subst; lra.
Qed.

(** The cumulative fractions of such a histogram. *)
Lemma empirical_cdf_two_values (n0 n1 : nat) :
  empirical_cdf [n0; 0; 0; 0; n1]%nat 5
  = [0; INR n0 / INR (n0 + n1); INR n0 / INR (n0 + n1);
     INR n0 / INR (n0 + n1); INR n0 / INR (n0 + n1)].
Proof.
  unfold empirical_cdf. cbn [fold_left seq map firstn].
  replace (0 + n0 + 0 + 0 + 0 + n1)%nat with (n0 + n1)%nat by lia.
  unfold np_sum. cbn [fold_left map INR].
  list_eq_lra.
Qed.

(** The scan over such fractions [q] of the first bin: the lower bound is
    found at the first pair when [q] reaches 0.025, the upper bound only when
    [q] exceeds 0.975. *)
Lemma scan_two_values (q : R) (bin_edges : list R) (env : locals) :
  alim_low <= q ->
  scan_bounds [0; q; q; q; q] bin_edges 5 env
  = {| temp_conf_int_low := Some (midpoint bin_edges 0);
       temp_conf_int_high :=
         if Rltb alim_high q then Some (midpoint bin_edges 0)
         else temp_conf_int_high env |}.
Proof.
  intros Hq. unfold scan_bounds, scan_step, straddles_low, straddles_high.
  cbn [seq Nat.sub fold_left nth Nat.add].
  unfold alim_low, alim_high in *.
  rewrite (Rltb_true 0 (25 / 1000)) by lra.
  rewrite (Rleb_true (25 / 1000) q) by lra.
  rewrite (Rltb_false q (25 / 1000)) by lra.
  rewrite (Rleb_true 0 (975 / 1000)) by lra.
  cbn [andb temp_conf_int_low temp_conf_int_high].
  destruct (Rlt_dec (975 / 1000) q) as [H|H].
  - rewrite (Rltb_true _ _ H), (Rleb_false q (975 / 1000)) by lra.
    reflexivity.
  - rewrite (Rltb_false (975 / 1000) q) by lra.
    rewrite andb_false_r. reflexivity.
Qed.

Lemma fraction_49_50 : INR 49 / INR (49 + 1) = 49 / 50.
Proof. rewrite !INR_IZR_INZ. reflexivity. Qed.

Lemma fraction_48_50 : INR 48 / INR (48 + 2) = 48 / 50.
Proof. rewrite !INR_IZR_INZ. reflexivity. Qed.

Lemma station_A_arrays :
  station_bin_edges 50 station_A = [0; 10 / 5; 2 * 10 / 5; 3 * 10 / 5;
                                    4 * 10 / 5; 10]
  /\ station_N 50 station_A = [0; 49 / 50; 49 / 50; 49 / 50; 49 / 50].
Proof.
  unfold station_N, station_bin_edges, station_count, station_A.
  change (nbins_of 50) with 5%nat.
  rewrite np_histogram_two_values by (lra || lia). cbn [fst snd].
  now rewrite empirical_cdf_two_values, fraction_49_50.
Qed.

Lemma station_B_arrays :
  station_bin_edges 50 station_B = [0; 1 / 5; 2 * 1 / 5; 3 * 1 / 5;
                                    4 * 1 / 5; 1]
  /\ station_N 50 station_B = [0; 48 / 50; 48 / 50; 48 / 50; 48 / 50].
Proof.
  unfold station_N, station_bin_edges, station_count, station_B.
  change (nbins_of 50) with 5%nat.
  rewrite np_histogram_two_values by (lra || lia). cbn [fst snd].
  now rewrite empirical_cdf_two_values, fraction_48_50.
Qed.

(** Station A: both levels are straddled at the first pair of bins. *)
Lemma station_A_extract (env : locals) :
  percentile_extractor 50 station_A env
  = (Ok 0, {| temp_conf_int_low := Some 1; temp_conf_int_high := Some 1 |}).
Proof.
  rewrite percentile_extractor_unfold.
  destruct station_A_arrays as [-> ->]. change (nbins_of 50) with 5%nat.
  rewrite scan_two_values by (unfold alim_low; lra).
  rewrite Rltb_true by (unfold alim_high; lra).
  unfold half_width, midpoint. cbn [temp_conf_int_low temp_conf_int_high nth
                                     Nat.add].
  f_equal; [f_equal; lra|]. f_equal; f_equal; lra.
Qed.

(** Station B: 0.975 is not straddled, and the upper bound stays as it
    was. *)
Lemma station_B_scan (env : locals) :
  snd (percentile_extractor 50 station_B env)
  = {| temp_conf_int_low := Some (1 / 10);
       temp_conf_int_high := temp_conf_int_high env |}.
Proof.
  rewrite percentile_extractor_unfold. cbn [snd].
  destruct station_B_arrays as [-> ->]. change (nbins_of 50) with 5%nat.
  rewrite scan_two_values by (unfold alim_low; lra).
  rewrite Rltb_false by (unfold alim_high; lra).
  unfold midpoint. cbn [nth Nat.add]. f_equal. f_equal. lra.
Qed.

Lemma station_B_not_straddled (n : nat) :
  (n + 1 < nbins_of 50)%nat ->
  straddles_high (station_N 50 station_B) n = false.
Proof.
  change (nbins_of 50) with 5%nat. intros Hn.
  destruct station_B_arrays as [_ ->].
  unfold straddles_high, alim_high.
  destruct n as [|[|[|[|n]]]]; [| | | |lia]; cbn [nth Nat.add];
    rewrite (Rltb_false (975 / 1000) (48 / 50)) by lra;
    apply andb_false_r.
Qed.

Lemma station_B_first :
  fst (percentile_extractor 50 station_B unbound)
  = Raise (UnboundLocalError "temp_conf_int_high").
Proof.
  pose proof (station_B_scan unbound) as H.
  rewrite percentile_extractor_unfold in *. cbn [fst snd] in *.
  unfold half_width. now rewrite H.
Qed.

Lemma station_B_after_A :
  fst (percentile_extractor 50 station_B
         {| temp_conf_int_low := Some 1; temp_conf_int_high := Some 1 |})
  = Ok (9 / 20).
Proof.
  pose proof (station_B_scan
                {| temp_conf_int_low := Some 1;
                   temp_conf_int_high := Some 1 |}) as H.
  rewrite percentile_extractor_unfold in *. cbn [fst snd] in *.
  unfold half_width. rewrite H. cbn [temp_conf_int_low temp_conf_int_high].
  f_equal. lra.
Qed.

(** C5 on the code.  In a run of 50 trials over the stations A and B, no
    pair of bins of station B straddles 0.975, and yet nothing fails: the
    half-width of station B is computed, as 0.45, from the upper bound that
    station A left.  Alone, or first in the run, station B fails with a
    reference to the unbound upper bound. *)
Theorem C5_later_station_reuses_bound :
  (forall n, (n + 1 < nbins_of 50)%nat ->
             straddles_high (station_N 50 station_B) n = false)
  /\ extract_stations 50 [station_A; station_B] unbound = Ok [0; 9 / 20]
  /\ extract_stations 50 [station_B; station_A] unbound
     = Raise (UnboundLocalError "temp_conf_int_high").
Proof.
  split; [exact station_B_not_straddled|]. split.
  - cbn [extract_stations]. rewrite station_A_extract. cbn [bind].
    pose proof station_B_after_A as H.
    destruct (percentile_extractor 50 station_B _) as [r env'].
    cbn [fst] in H. subst r. reflexivity.
  - cbn [extract_stations].
    pose proof station_B_first as H.
    destruct (percentile_extractor 50 station_B unbound) as [r env'].
    cbn [fst] in H. subst r. reflexivity.
Qed.

Lemma C4_witness :
  let nbins := nbins_of 50 in
  let count := station_count 50 station_A in
  let bin_edges := station_bin_edges 50 station_A in
  let N := station_N 50 station_A in
  let env' := snd (percentile_extractor 50 station_A unbound) in
  (forall k, (k < nbins)%nat ->
     nth k N 0
     = np_sum (map (fun j => INR (nth j count 0%nat) / INR (length station_A))
                 (seq 0 k)))
  /\ (forall n, (n + 1 < nbins)%nat -> straddles_low N n = true ->
        temp_conf_int_low env'
        = Some (5 / 10 * (nth n bin_edges 0 + nth (n + 1) bin_edges 0)))
  /\ (forall n, (n + 1 < nbins)%nat -> straddles_high N n = true ->
        temp_conf_int_high env'
        = Some (5 / 10 * (nth n bin_edges 0 + nth (n + 1) bin_edges 0)))
  /\ (forall lo hi,
        temp_conf_int_low env' = Some lo ->
        temp_conf_int_high env' = Some hi ->
        fst (percentile_extractor 50 station_A unbound) = Ok ((hi - lo) / 2)).
Proof. exact (C4_percentile_extractor 50 station_A unbound). Defined.

Example station_B_alone :
  temp_conf_int_high (snd (percentile_extractor 50 station_B unbound)) = None
  /\ exists name,
      fst (percentile_extractor 50 station_B unbound)
      = Raise (UnboundLocalError name).
Proof.
  apply (percentile_extractor_first_station 50 station_B).
  exact station_B_not_straddled.
Qed.

(** ** Autocovariance and integral timescale: the lags that fail *)

Lemma C_last_lag (k : nat) (y : list R) :
  (k + 1 = length y)%nat -> C k y = Raise ZeroDivisionError.
Proof.
  intros H. unfold C.
  replace (Z.of_nat (length y) - 1 - Z.of_nat k =? 0)%Z with true
    by (symmetry; apply Z.eqb_eq; lia).
  reflexivity.
Qed.

Lemma C_other_lag (k : nat) (y : list R) :
  (k + 1 <> length y)%nat -> exists v, C k y = Ok v.
Proof.
  intros H. unfold C.
  destruct (Z.eqb_spec (Z.of_nat (length y) - 1 - Z.of_nat k) 0); [lia|eauto].
Qed.

Lemma C_beyond (k : nat) (y : list R) :
  (length y <= k)%nat -> C k y = Ok 0.
Proof.
  intros H. unfold C.
  replace (Z.of_nat (length y) - 1 - Z.of_nat k =? 0)%Z with false
    by (symmetry; apply Z.eqb_neq; lia).
  replace (length y - k)%nat with 0%nat by lia. simpl. f_equal. lra.
Qed.

(** X1.  The autocovariance raises at one lag only, the last one a record has,
    where [N - 1 - k] is 0; the error is [ZeroDivisionError]. From the lag [N]
    on the loop is empty and the value is 0. *)
Theorem C_raises_only_at_last_lag (k j : nat) (y : list R) (e : exn) :
  (C k y = Raise e <-> e = ZeroDivisionError /\ (k + 1 = length y)%nat)
  /\ C (length y + j) y = Ok 0.
Proof.
  split; [|apply C_beyond; lia]. split.
  - intros H. destruct (Nat.eq_dec (k + 1) (length y)) as [E|NE].
    + rewrite (C_last_lag k y E) in H. injection H as <-. tauto.
    + destruct (C_other_lag k y NE) as [v Hv]. congruence.
  - intros [-> E]. apply C_last_lag, E.
Qed.

Lemma timescale_loop_raises (dtau : R) (y : list R) (n s : nat) (T : R) :
  (s + 1 <= length y)%nat -> (length y <= s + n + 1)%nat -> (1 <= n)%nat ->
  timescale_loop dtau y (seq s n) T = Raise ZeroDivisionError.
Proof.
  revert s T; induction n as [|n IH]; intros s T Hlo Hhi Hn; [lia|].
  cbn [seq timescale_loop].
  destruct (Nat.eq_dec (s + 1 + 1) (length y)) as [E|NE].
  - rewrite (C_last_lag (s + 1) y) by lia. reflexivity.
  - destruct (C_other_lag (s + 1) y) as [c1 ->]; [lia|]. cbn [bind].
    destruct (Nat.eq_dec (s + 1) (length y)) as [E|NE'].
    + rewrite (C_last_lag s y) by lia. reflexivity.
    + destruct (C_other_lag s y) as [c0 ->]; [lia|]. cbn [bind].
      apply IH; lia.
Qed.

Lemma integral_timescale_fails (dtau : R) (y : list R) (m : nat) :
  (1 <= length y)%nat -> (length y <= Nat.max m 1)%nat ->
  integral_timescale_discrete dtau y m = Raise ZeroDivisionError.
Proof.
  intros H1 H2. unfold integral_timescale_discrete.
  destruct (Nat.eq_dec (m - 1) 0) as [E|NE].
  - rewrite E. cbn [seq timescale_loop bind].
    rewrite (C_last_lag 0 y) by lia. reflexivity.
  - rewrite (timescale_loop_raises dtau y (m - 1) 0 0) by lia.
    reflexivity.
Qed.

Lemma integral_timescale_succeeds (dtau : R) (y : list R) (m : nat) :
  (Nat.max m 1 < length y)%nat ->
  exists T, integral_timescale_discrete dtau y m = Ok T.
Proof.
  intros H. unfold integral_timescale_discrete.
  destruct (Nat.eq_dec (m - 1) 0) as [E|NE].
  - rewrite E. cbn [seq timescale_loop bind].
    destruct (C_other_lag 0 y) as [c0 ->]; [lia|]. cbn [bind]. eauto.
  - destruct (integral_timescale_defined dtau y m) as [T HT]; [lia|lia|].
    eauto.
Qed.

(** X2.  When the integral timescale can be computed. For a record that is not
    empty it raises [ZeroDivisionError] exactly when the record has at most
    [max m 1] values, it gives a value exactly when the record is longer, and
    it raises nothing else. *)
Theorem integral_timescale_raises_iff (dtau : R) (y : list R) (m : nat) :
  (1 <= length y)%nat ->
  (integral_timescale_discrete dtau y m = Raise ZeroDivisionError
   <-> (length y <= Nat.max m 1)%nat)
  /\ ((exists T, integral_timescale_discrete dtau y m = Ok T)
      <-> (Nat.max m 1 < length y)%nat)
  /\ (forall e, integral_timescale_discrete dtau y m = Raise e ->
                e = ZeroDivisionError).
Proof.
  intros Hne.
  destruct (le_lt_dec (length y) (Nat.max m 1)) as [H|H].
  - rewrite (integral_timescale_fails dtau y m Hne H). split; [tauto|]. split.
    + split; [|lia]. intros [T HT]. discriminate.
    + intros e He. congruence.
  - destruct (integral_timescale_succeeds dtau y m H) as [T HT]. rewrite HT.
    split.
    + split; [discriminate|lia].
    + split; [split; eauto|]. intros e He. discriminate.
Qed.

Lemma integral_timescale_raises_iff_witness :
  (1 <= length [1; 2; 4])%nat
  /\ (integral_timescale_discrete 1 [1; 2; 4] 3 = Raise ZeroDivisionError
      <-> (length [1; 2; 4] <= Nat.max 3 1)%nat).
Proof.
  split; [simpl; lia|].
  apply (integral_timescale_raises_iff 1 [1; 2; 4] 3). simpl; lia.
Defined.

(** ** Standard deviation and standard error *)

Lemma np_sum_all_equal (l : list R) (c : R) :
  Forall (fun v => v = c) l -> np_sum l = INR (length l) * c.
Proof.
  induction 1 as [|x l Hx _ IH].
  - unfold np_sum; simpl; lra.
  - rewrite np_sum_cons, IH, Hx. cbn [length]. rewrite S_INR. lra.
Qed.

Lemma np_sum_zero_all_zero (l : list R) :
  Forall (fun v => 0 <= v) l -> np_sum l = 0 -> Forall (fun v => v = 0) l.
Proof.
  induction 1 as [|x l Hx Hl IH]; intros Hs; [constructor|].
  rewrite np_sum_cons in Hs. pose proof (np_sum_nonneg l Hl).
  constructor; [lra|]. apply IH. lra.
Qed.

Lemma squares_nonneg {A : Type} (g : A -> R) (l : list A) :
  Forall (fun v => 0 <= v) (map (fun v => g v * g v) l).
Proof.
  apply Forall_forall. intros v Hv. apply in_map_iff in Hv.
  destruct Hv as [u [<- _]]. apply Rle_0_sqr.
Qed.

Lemma sample_variance_nonneg (y : list R) :
  (2 <= length y)%nat -> 0 <= sample_variance y.
Proof.
  intros HN. unfold sample_variance.
  assert (2 <= INR (length y)) by (apply (le_INR 2), HN).
  apply Rmult_le_pos.
  - apply np_sum_nonneg, (squares_nonneg (fun v => v - np_mean y)).
  - left. apply Rinv_0_lt_compat. lra.
Qed.

Lemma constant_series_mean (y : list R) (i : nat) :
  constant_series y -> (i < length y)%nat -> nth i y 0 = np_mean y.
Proof.
  intros Hc Hi.
  assert (Hall : Forall (fun v => v = nth i y 0) y).
  { apply Forall_forall. intros v Hv.
    destruct (In_nth y v 0 Hv) as [j [Hj <-]]. now apply Hc. }
  unfold np_mean. rewrite (np_sum_all_equal y _ Hall).
  assert (0 < INR (length y)) by (apply lt_0_INR; lia).
  field. lra.
Qed.

Lemma sample_variance_constant (y : list R) :
  constant_series y -> sample_variance y = 0.
Proof.
  intros Hc. unfold sample_variance.
  rewrite (np_sum_all_equal _ 0); [unfold Rdiv; ring|].
  apply Forall_forall. intros v Hv. apply in_map_iff in Hv.
  destruct Hv as [u [<- Hu]].
  destruct (In_nth y u 0 Hu) as [j [Hj <-]].
  rewrite (constant_series_mean y j Hc Hj). ring.
Qed.

Lemma sample_variance_zero_constant (y : list R) :
  (2 <= length y)%nat -> sample_variance y = 0 -> constant_series y.
Proof.
  intros HN H0. unfold sample_variance in H0.
  assert (2 <= INR (length y)) by (apply (le_INR 2), HN).
  assert (Hs : np_sum (map (fun v => (v - np_mean y) * (v - np_mean y)) y) = 0).
  { apply (Rmult_eq_reg_r (/ (INR (length y) - 1))).
    - rewrite Rmult_0_l. exact H0.
    - apply Rinv_neq_0_compat. lra. }
  pose proof (np_sum_zero_all_zero _
                (squares_nonneg (fun v => v - np_mean y) y) Hs) as Hall.
  rewrite Forall_forall in Hall.
  assert (Hm : forall i, (i < length y)%nat -> nth i y 0 = np_mean y).
  { intros i Hi.
    assert (Hz : (nth i y 0 - np_mean y) * (nth i y 0 - np_mean y) = 0).
    { apply Hall. apply in_map_iff. exists (nth i y 0).
      split; [reflexivity|]. now apply nth_In. }
    apply Rmult_integral in Hz. lra. }
  intros i j Hi Hj. rewrite (Hm i Hi), (Hm j Hj). reflexivity.
Qed.

Lemma std_dev_x_value (x : list R) :
  (2 <= length x)%nat -> std_dev_x x = Ok (sqrt (sample_variance x)).
Proof.
  intros HN. unfold std_dev_x.
  replace (Z.of_nat (length x) - 1 =? 0)%Z with false
    by (symmetry; apply Z.eqb_neq; lia).
  f_equal. f_equal. unfold sample_variance.
  rewrite minus_IZR, <- INR_IZR_INZ.
  assert (2 <= INR (length x)) by (apply (le_INR 2), HN).
  field. lra.
Qed.

(** X3.  The standard deviation of the x variable and the autocovariance at
    lag zero are the same estimate: for at least two values [std_dev_x] gives
    a root [s >= 0] with [C(0, x) = s * s], and [s] is 0 exactly for a
    constant series, the case in which [conf_limit] divides by zero. *)
Theorem std_dev_x_squares_to_lag0_autocovariance (x : list R) :
  (2 <= length x)%nat ->
  exists s, std_dev_x x = Ok s /\ 0 <= s /\ C 0 x = Ok (s * s)
            /\ (s = 0 <-> constant_series x).
Proof.
  intros HN. exists (sqrt (sample_variance x)).
  pose proof (sample_variance_nonneg x HN) as Hv.
  split; [apply std_dev_x_value, HN|].
  split; [apply sqrt_pos|].
  split; [rewrite sqrt_sqrt by assumption; apply C_lag0, HN|].
  split.
  - intros Hs. apply (sample_variance_zero_constant x HN).
    apply sqrt_eq_0; assumption.
  - intros Hc. rewrite (sample_variance_constant x Hc). apply sqrt_0.
Qed.

Lemma std_dev_x_squares_to_lag0_autocovariance_witness :
  (2 <= length [1; 3])%nat
  /\ exists s, std_dev_x [1; 3] = Ok s /\ 0 <= s /\ C 0 [1; 3] = Ok (s * s)
               /\ (s = 0 <-> constant_series [1; 3]).
Proof.
  split; [simpl; lia|].
  apply (std_dev_x_squares_to_lag0_autocovariance [1; 3]). simpl; lia.
Defined.

Lemma np_sum_sq_diffs_zero (y y_est : list R) :
  length y = length y_est ->
  np_sum (sq_diffs y y_est) = 0 -> y = y_est.
Proof.
  revert y_est; induction y as [|a y IH]; intros [|b y_est] Hlen Hs;
    try discriminate; [reflexivity|].
  unfold sq_diffs in *. cbn [combine map fst snd] in Hs.
  rewrite np_sum_cons in Hs.
  pose proof (np_sum_nonneg _
                (squares_nonneg (fun p : R * R => fst p - snd p)
                   (combine y y_est))) as Hrest.
  pose proof (Rle_0_sqr (a - b)) as Hsq. unfold Rsqr in Hsq.
  assert (Hab : (a - b) * (a - b) = 0) by lra.
  apply Rmult_integral in Hab.
  f_equal; [lra|]. apply IH; [now injection Hlen|lra].
Qed.

(** X4.  The standard error of the estimate, for at least three observations
    and estimates of the same length, is a value [s >= 0], and it is 0 exactly
    when every estimate equals its observation. *)
Theorem standard_error_zero_iff_exact_fit (y y_est : list R) :
  length y = length y_est -> (3 <= length y)%nat ->
  exists s, standard_error_of_estimate y y_est = Ok s /\ 0 <= s
            /\ (s = 0 <-> y = y_est).
Proof.
  intros Hlen HN. unfold standard_error_of_estimate.
  replace (Z.of_nat (length y) - 2 =? 0)%Z with false
    by (symmetry; apply Z.eqb_neq; lia).
  eexists. split; [reflexivity|]. split; [apply sqrt_pos|].
  assert (Hd : 0 < IZR (Z.of_nat (length y) - 2)).
  { apply IZR_lt. lia. }
  pose proof (np_sum_nonneg _
                (squares_nonneg (fun p : R * R => fst p - snd p)
                   (combine y y_est))) as Hs.
  fold (sq_diffs y y_est) in Hs.
  split.
  - intros H0. apply np_sum_sq_diffs_zero; [assumption|].
    apply sqrt_eq_0 in H0.
    + apply Rmult_integral in H0. destruct H0 as [H0|H0]; [|assumption].
      exfalso. unfold Rdiv in H0. rewrite Rmult_1_l in H0.
      apply (Rinv_neq_0_compat _ (Rgt_not_eq _ _ Hd)). exact H0.
    + apply Rmult_le_pos; [|assumption].
      left. unfold Rdiv. rewrite Rmult_1_l. now apply Rinv_0_lt_compat.
  - intros <-.
    replace (np_sum (sq_diffs y y)) with 0; [rewrite Rmult_0_r; apply sqrt_0|].
    symmetry. rewrite (np_sum_all_equal _ 0); [ring|].
    apply Forall_forall. intros v Hv. unfold sq_diffs in Hv.
    apply in_map_iff in Hv. destruct Hv as [[a b] [<- Hp]].
    assert (a = b).
    { clear - Hp. induction y as [|c y IH]; [contradiction|].
      destruct Hp as [Hp|Hp]; [now injection Hp as <- <-|auto]. }
    subst. simpl. ring.
Qed.

Lemma standard_error_zero_iff_exact_fit_witness :
  exists s, standard_error_of_estimate [1; 2; 3] [1; 2; 3] = Ok s /\ 0 <= s
            /\ (s = 0 <-> [1; 2; 3] = [1; 2; 3]).
Proof.
  apply (standard_error_zero_iff_exact_fit [1; 2; 3] [1; 2; 3]).
  - reflexivity.
  - simpl; lia.
Defined.

(** ** One station of [main_te]: failures and the time axis *)

Section StationFacts.
Context {L : Library}.

Lemma getitem_nth (l : list R) (i : nat) :
  (i < length l)%nat -> getitem l i = Ok (nth i l 0).
Proof.
  intros H. unfold getitem.
  rewrite (nth_error_nth' l 0 H). reflexivity.
Qed.

Lemma getitem_out_of_range (l : list R) (i : nat) :
  (length l <= i)%nat -> getitem l i = Raise IndexError.
Proof.
  intros H. unfold getitem.
  replace (nth_error l i) with (@None R); [reflexivity|].
  symmetry. now apply nth_error_None.
Qed.

Lemma standard_error_defined (y y_est : list R) :
  (length y <> 2)%nat -> exists s, standard_error_of_estimate y y_est = Ok s.
Proof.
  intros H. unfold standard_error_of_estimate.
  destruct (Z.eqb_spec (Z.of_nat (length y) - 2) 0); [lia|eauto].
Qed.

Lemma standard_error_two (y y_est : list R) :
  length y = 2%nat ->
  standard_error_of_estimate y y_est = Raise ZeroDivisionError.
Proof.
  intros H. unfold standard_error_of_estimate. rewrite H. reflexivity.
Qed.

Lemma std_dev_x_defined (x : list R) :
  (length x <> 1)%nat -> exists s, std_dev_x x = Ok s.
Proof.
  intros H. unfold std_dev_x.
  destruct (Z.eqb_spec (Z.of_nat (length x) - 1) 0); [lia|eauto].
Qed.

(** The longest record on which a station of [main_te] still fails. *)
Let limit (compute_cis : bool) (nlag : nat) : nat :=
  if compute_cis then Nat.max nlag 2 else Nat.max nlag 1.

Lemma main_te_station_short (b : bool) (f : R) (nlag : nat) (xx yy : list R) :
  (length xx < 2)%nat -> main_te_station b f nlag xx yy = Raise IndexError.
Proof.
  intros H. unfold main_te_station.
  rewrite (getitem_out_of_range xx 1) by lia. reflexivity.
Qed.

Lemma main_te_station_few (b : bool) (f : R) (nlag : nat) (xx yy : list R) :
  length xx = length yy -> (2 <= length yy <= limit b nlag)%nat ->
  main_te_station b f nlag xx yy = Raise ZeroDivisionError.
Proof.
  intros Hlen [H2 Hlim]. unfold main_te_station.
  rewrite (getitem_nth xx 1), (getitem_nth xx 0) by lia. cbn [bind].
  destruct (le_lt_dec (length yy) (Nat.max nlag 1)) as [Hl|Hl].
  - rewrite integral_timescale_fails by lia. reflexivity.
  - destruct (integral_timescale_succeeds
                (f * (nth 1 xx 0 - nth 0 xx 0)) yy nlag Hl) as [T ->].
    cbn [bind]. unfold limit in Hlim. destruct b; [|lia].
    rewrite standard_error_two by lia. reflexivity.
Qed.

Lemma main_te_station_enough (b : bool) (f : R) (nlag : nat) (xx yy : list R) :
  length xx = length yy -> (limit b nlag < length yy)%nat ->
  exists row, main_te_station b f nlag xx yy = Ok row.
Proof.
  intros Hlen Hlim. unfold main_te_station.
  assert (Nat.max nlag 1 < length yy)%nat
    by (unfold limit in Hlim; destruct b; lia).
  rewrite (getitem_nth xx 1), (getitem_nth xx 0) by lia. cbn [bind].
  destruct (integral_timescale_succeeds
              (f * (nth 1 xx 0 - nth 0 xx 0)) yy nlag) as [T ->]; [lia|].
  cbn [bind]. destruct b; [|eauto].
  destruct (standard_error_defined yy (fittedvalues (OLS_fit xx yy)))
    as [s ->]; [unfold limit in Hlim; lia|].
  destruct (std_dev_x_defined xx) as [sx ->]; [lia|].
  cbn [bind]. eauto.
Qed.

(** X5.  Which records a station of [main_te] can process, for dates and
    filled anomalies of one length [N]. With fewer than two values the time
    step [xx[1] - xx[0]] raises [IndexError]; with 2 to [max nlag 1] values
    (to [max nlag 2] when the confidence intervals are computed) a division of
    ints by zero raises [ZeroDivisionError]; every longer record gives its row
    of the table. *)
Theorem main_te_station_failures (compute_cis : bool) (f : R) (nlag : nat)
    (xx yy : list R) :
  length xx = length yy ->
  let lim := if compute_cis then Nat.max nlag 2 else Nat.max nlag 1 in
  (main_te_station compute_cis f nlag xx yy = Raise IndexError
   <-> (length yy < 2)%nat)
  /\ (main_te_station compute_cis f nlag xx yy = Raise ZeroDivisionError
      <-> (2 <= length yy <= lim)%nat)
  /\ ((exists row, main_te_station compute_cis f nlag xx yy = Ok row)
      <-> (lim < length yy)%nat).
Proof.
  intros Hlen lim. change lim with (limit compute_cis nlag).
  assert (H2 : (2 <= limit compute_cis nlag)%nat \/ compute_cis = false)
    by (destruct compute_cis; unfold limit; [left; lia|now right]).
  assert (H1 : (1 <= limit compute_cis nlag)%nat)
    by (destruct compute_cis; unfold limit; lia).
  destruct (le_lt_dec 2 (length yy)) as [Hge|Hlt].
  - destruct (le_lt_dec (length yy) (limit compute_cis nlag)) as [Hl|Hl].
    + rewrite (main_te_station_few compute_cis f nlag xx yy Hlen) by lia.
      split; [split; [discriminate|lia]|].
      split; [tauto|]. split; [intros [row Hr]; discriminate|lia].
    + destruct (main_te_station_enough compute_cis f nlag xx yy Hlen Hl)
        as [row ->].
      split; [split; [discriminate|lia]|].
      split; [split; [discriminate|lia]|]. split; eauto.
  - rewrite (main_te_station_short compute_cis f nlag xx yy) by lia.
    split; [tauto|].
    split; [split; [discriminate|lia]|].
    split; [intros [row Hr]; discriminate|lia].
Qed.

Lemma effective_sample_size_time_step (N : nat) (f ts K : R) :
  ts <> 0 ->
  effective_sample_size N ts (f * ts * K) = INR N / (f * K).
Proof.
  intros Hts. unfold effective_sample_size, Rdiv.
  replace (f * ts * K) with (ts * (f * K)) by ring.
  rewrite Rinv_mult.
  replace (INR N * ts * (/ ts * / (f * K)))
    with (INR N * (ts * / ts) * / (f * K)) by ring.
  rewrite Rinv_r by assumption. ring.
Qed.

Lemma integral_timescale_linear (dtau : R) (y : list R) (m : nat) :
  integral_timescale_discrete dtau y m
  = rmap (Rmult dtau) (integral_timescale_discrete 1 y m).
Proof.
  unfold integral_timescale_discrete.
  pose proof (timescale_loop_scale dtau 1 y (seq 0 (m - 1)) 0) as H.
  rewrite Rmult_1_r, Rmult_0_r in H. rewrite H.
  destruct (timescale_loop 1 y (seq 0 (m - 1)) 0) as [T|]; [|reflexivity].
  unfold rmap. cbn [bind].
  destruct (C 0 y) as [c0|]; [|reflexivity]. cbn [bind]. f_equal. ring.
Qed.

(** X6.  The effective degrees of freedom do not depend on the dates. On two
    time axes that both advance from their first to their second date, a
    station of [main_te] fails in the same way or reports the same effective
    degrees of freedom: the time step cancels between the lag step
    [delta_tau_factor * time_step] and the record duration. *)
Theorem effective_dof_independent_of_time_axis (compute_cis : bool) (f : R)
    (nlag : nat) (xx xx' yy : list R) :
  (2 <= length xx)%nat -> (2 <= length xx')%nat ->
  nth 0 xx 0 < nth 1 xx 0 -> nth 0 xx' 0 < nth 1 xx' 0 ->
  rmap Effective_degrees_of_freedom
    (main_te_station compute_cis f nlag xx yy)
  = rmap Effective_degrees_of_freedom
      (main_te_station compute_cis f nlag xx' yy).
Proof.
  intros Hl Hl' Hs Hs'. unfold main_te_station.
  rewrite (getitem_nth xx 1), (getitem_nth xx 0) by lia.
  rewrite (getitem_nth xx' 1), (getitem_nth xx' 0) by lia. cbn [bind].
  set (ts := nth 1 xx 0 - nth 0 xx 0).
  set (ts' := nth 1 xx' 0 - nth 0 xx' 0).
  rewrite (integral_timescale_linear (f * ts)),
          (integral_timescale_linear (f * ts')).
  destruct (integral_timescale_discrete 1 yy nlag) as [K|]; [|reflexivity].
  unfold rmap. cbn [bind].
  rewrite (effective_sample_size_time_step (length yy) f ts K)
    by (unfold ts; lra).
  rewrite (effective_sample_size_time_step (length yy) f ts' K)
    by (unfold ts'; lra).
  destruct compute_cis; [|reflexivity].
  destruct (Nat.eq_dec (length yy) 2) as [E|NE].
  - rewrite !(standard_error_two yy) by assumption. reflexivity.
  - destruct (standard_error_defined yy (fittedvalues (OLS_fit xx yy)) NE)
      as [s ->].
    destruct (standard_error_defined yy (fittedvalues (OLS_fit xx' yy)) NE)
      as [s' ->].
    destruct (std_dev_x_defined xx) as [sx ->]; [lia|].
    destruct (std_dev_x_defined xx') as [sx' ->]; [lia|]. reflexivity.
Qed.

End StationFacts.

Lemma main_te_station_failures_witness :
  main_te_station (L := stand_in_library) true 1 2 [0; 1] [1; 2]
  = Raise ZeroDivisionError <-> (2 <= 2 <= Nat.max 2 2)%nat.
Proof.
  apply (main_te_station_failures (L := stand_in_library) true 1 2
           [0; 1] [1; 2]).
  reflexivity.
Defined.

Lemma effective_dof_independent_of_time_axis_witness :
  rmap Effective_degrees_of_freedom
    (main_te_station (L := stand_in_library) false 1 2 [0; 1; 2; 3]
       [1; -1; -1; 1])
  = rmap Effective_degrees_of_freedom
      (main_te_station (L := stand_in_library) false 1 2 [10; 12; 14; 19]
         [1; -1; -1; 1]).
Proof.
  apply (effective_dof_independent_of_time_axis (L := stand_in_library)
           false 1 2 [0; 1; 2; 3] [10; 12; 14; 19] [1; -1; -1; 1]);
    simpl; lia || lra.
Defined.

(** ** Reading a station *)

Lemma nth_concat_uniform {A : Type} (rows : list (list A)) (c i j : nat)
    (d : A) :
  Forall (fun r => length r = c) rows -> (j < c)%nat ->
  nth (i * c + j) (concat rows) d = nth j (nth i rows []) d.
Proof.
  intros Hall Hj. revert i. induction Hall as [|r rows Hr _ IH]; intros i.
  - replace (nth i (@nil (list A)) []) with (@nil A)
      by (destruct i; reflexivity).
    cbn [concat]. destruct (i * c + j)%nat, j; reflexivity.
  - destruct i as [|i]; cbn [concat].
    + simpl. apply app_nth1. lia.
    + rewrite app_nth2 by (rewrite Hr; simpl; lia).
      replace (S i * c + j - length r)%nat with (i * c + j)%nat
        by (rewrite Hr; simpl; lia).
      apply IH.
Qed.

Lemma length_concat_uniform {A : Type} (rows : list (list A)) (c : nat) :
  Forall (fun r => length r = c) rows ->
  length (concat rows) = (length rows * c)%nat.
Proof.
  induction 1 as [|r rows Hr _ IH]; [reflexivity|].
  cbn [concat length]. rewrite length_app, IH, Hr. lia.
Qed.

Lemma months_eq :
  removelast (linspace 0 1 12)
  = map (fun j => INR j / 12) (seq 0 12).
Proof.
  unfold linspace. simpl. list_eq_lra.
Qed.

Lemma combine_map_seq {A B : Type} (f : nat -> A) (g : nat -> B) (n : nat) :
  combine (map f (seq 0 n)) (map g (seq 0 n))
  = map (fun i => (f i, g i)) (seq 0 n).
Proof.
  generalize 0%nat. induction n as [|n IH]; intros s; [reflexivity|].
  simpl. f_equal. apply IH.
Qed.

Lemma flatten_dframe_rows (df : DataFrame) :
  fst (flatten_dframe df)
  = concat (map (fun i => map (fun j => nth i (index df) 0 + INR j / 12)
                            (seq 0 12))
              (seq 0 (length (index df)))).
Proof.
  unfold flatten_dframe, np_meshgrid. rewrite months_eq. cbn [fst].
  f_equal. unfold np_add2d, np_transpose.
  rewrite combine_map_seq, map_map.
  apply map_ext_in. intros i Hi. apply in_seq in Hi. cbn [fst snd].
  rewrite !map_map.
  rewrite <- (map_map (fun j : nat => INR j / 12)
                (fun v => nth i (map (fun _ : R => v) (index df)) 0)).
  rewrite <- (map_map (fun j : nat => INR j / 12)
                (fun _ => nth i (index df) 0)).
  rewrite <- (map_map (fun j : nat => INR j / 12)
                (fun m => nth i (index df) 0 + m)).
  set (ms := map (fun j : nat => INR j / 12) (seq 0 12)).
  induction ms as [|m ms IH]; [reflexivity|].
  cbn [map combine fst snd]. f_equal; [|exact IH].
  f_equal. rewrite (nth_map_any _ _ _ 0 0) by lia. reflexivity.
Qed.

Lemma flatten_dframe_x_nth (df : DataFrame) (i j : nat) :
  (i < length (index df))%nat -> (j < 12)%nat ->
  nth (12 * i + j) (fst (flatten_dframe df)) 0
  = nth i (index df) 0 + INR j / 12.
Proof.
  intros Hi Hj. rewrite flatten_dframe_rows.
  replace (12 * i + j)%nat with (i * 12 + j)%nat by lia.
  rewrite nth_concat_uniform.
  - rewrite (nth_map_index _ _ _ _ Hi). now rewrite (nth_map_index _ _ _ _ Hj).
  - apply Forall_forall. intros r Hr. apply in_map_iff in Hr.
    destruct Hr as [k [<- _]]. now rewrite length_map, length_seq.
  - assumption.
Qed.

Lemma flatten_dframe_x_length (df : DataFrame) :
  length (fst (flatten_dframe df)) = (12 * length (index df))%nat.
Proof.
  rewrite flatten_dframe_rows. rewrite (length_concat_uniform _ 12).
  - rewrite length_map, length_seq. lia.
  - apply Forall_forall. intros r Hr. apply in_map_iff in Hr.
    destruct Hr as [k [<- _]]. now rewrite length_map, length_seq.
Qed.

(** X7.  The dates of a flattened frame: twelve per row label, the date of
    month [j] of row [i] being the row label plus [j / 12], and the values are
    the rows of the frame one after the other. *)
Theorem flatten_dframe_dates (df : DataFrame) (i j : nat) :
  (i < length (index df))%nat -> (j < 12)%nat ->
  length (fst (flatten_dframe df)) = (12 * length (index df))%nat
  /\ nth (12 * i + j) (fst (flatten_dframe df)) 0
     = nth i (index df) 0 + INR j / 12
  /\ snd (flatten_dframe df) = concat (values df).
Proof.
  intros Hi Hj. split; [apply flatten_dframe_x_length|].
  split; [now apply flatten_dframe_x_nth|reflexivity].
Qed.

Lemma flatten_dframe_step (df : DataFrame) (n : nat) :
  consecutive_years (index df) ->
  (n + 1 < 12 * length (index df))%nat ->
  nth (n + 1) (fst (flatten_dframe df)) 0
  - nth n (fst (flatten_dframe df)) 0 = 1 / 12.
Proof.
  intros Hyears Hn.
  pose proof (Nat.div_mod_eq n 12) as Hdm.
  pose proof (Nat.mod_upper_bound n 12 ltac:(lia)) as Hm.
  set (i := (n / 12)%nat) in *. set (j := (n mod 12)%nat) in *.
  rewrite Hdm.
  rewrite (flatten_dframe_x_nth df i j) by lia.
  destruct (Nat.eq_dec j 11) as [E|NE].
  - replace (12 * i + j + 1)%nat with (12 * (i + 1) + 0)%nat by lia.
    rewrite (flatten_dframe_x_nth df (i + 1) 0) by lia.
    rewrite Hyears by lia. rewrite E. simpl. lra.
  - replace (12 * i + j + 1)%nat with (12 * i + (j + 1))%nat by lia.
    rewrite (flatten_dframe_x_nth df i (j + 1)) by lia.
    rewrite plus_INR. simpl. lra.
Qed.

(** X8.  For row labels that are whole years in a row, the flattened dates are
    evenly spaced: each date is one twelfth after the one before, also from
    December to January. *)
Theorem flatten_dframe_monthly_step (df : DataFrame) (n : nat) :
  consecutive_years (index df) ->
  (n + 1 < length (fst (flatten_dframe df)))%nat ->
  nth (n + 1) (fst (flatten_dframe df)) 0
  = nth n (fst (flatten_dframe df)) 0 + 1 / 12.
Proof.
  intros Hyears Hn. rewrite flatten_dframe_x_length in Hn.
  pose proof (flatten_dframe_step df n Hyears Hn). lra.
Qed.

Lemma flatten_dframe_dates_witness :
  nth (12 * 1 + 3)
    (fst (flatten_dframe {| index := [2000; 2001]; values := [] |})) 0
  = nth 1 [2000; 2001] 0 + INR 3 / 12.
Proof.
  apply (flatten_dframe_dates {| index := [2000; 2001]; values := [] |} 1 3);
    simpl; lia.
Defined.

Lemma consecutive_years_2000_2001 : consecutive_years [2000; 2001].
Proof.
  intros i Hi. simpl in Hi. assert (i = 0%nat) by lia. subst. simpl. lra.
Qed.

Lemma flatten_dframe_monthly_step_witness :
  nth (11 + 1)
    (fst (flatten_dframe {| index := [2000; 2001]; values := [] |})) 0
  = nth 11 (fst (flatten_dframe {| index := [2000; 2001]; values := [] |})) 0
    + 1 / 12.
Proof.
  apply (flatten_dframe_monthly_step
           {| index := [2000; 2001]; values := [] |} 11).
  - exact consecutive_years_2000_2001.
  - rewrite flatten_dframe_x_length. simpl. lia.
Defined.

Lemma set_row_in_range (i : nat) (row : nat * nat) (a : list (nat * nat)) :
  (i < length a)%nat -> set_row i row a = Ok (set_nth i row a).
Proof.
  intros H. unfold set_row.
  replace (i <? length a)%nat with true by (symmetry; now apply Nat.ltb_lt).
  reflexivity.
Qed.

Lemma set_row_out_of_range (i : nat) (row : nat * nat) (a : list (nat * nat)) :
  (length a <= i)%nat -> set_row i row a = Raise IndexError.
Proof.
  intros H. unfold set_row.
  replace (i <? length a)%nat with false by (symmetry; now apply Nat.ltb_ge).
  reflexivity.
Qed.

Lemma nans_to_strip_short (N : nat) :
  (N < 8)%nat -> nans_to_strip N = Raise IndexError.
Proof.
  intros H. unfold nans_to_strip.
  do 8 (destruct N as [|N]; [reflexivity|]). lia.
Qed.

Lemma nans_to_strip_long (k : nat) :
  nans_to_strip (8 + k)
  = Ok ([(7, 8); (3, 8); (3, 8); (4, 36); (0, 8); (50, 9); (0, 8); (1, 8)]%nat
        ++ repeat (0, 0)%nat k).
Proof. reflexivity. Qed.

(** X9.  The table of leading and trailing values to discard needs eight
    stations: for fewer the assignment of a row raises [IndexError], for eight
    or more the first eight rows are those of the eight lighthouses and every
    further row is [[0, 0]]. *)
Theorem nans_to_strip_table (N : nat) :
  (nans_to_strip N = Raise IndexError <-> (N < 8)%nat)
  /\ nans_to_strip (8 + N)
     = Ok ([(7, 8); (3, 8); (3, 8); (4, 36); (0, 8); (50, 9); (0, 8);
            (1, 8)]%nat ++ repeat (0, 0)%nat N).
Proof.
  split; [|apply nans_to_strip_long].
  split; [|apply nans_to_strip_short].
  intros H. destruct (le_lt_dec 8 N) as [Hge|Hlt]; [|assumption].
  replace N with (8 + (N - 8))%nat in H by lia.
  rewrite nans_to_strip_long in H. discriminate.
Qed.

Lemma slice_strip_no_end {A : Type} (a : list A) (nstart : nat) :
  slice_strip a nstart 0 = [].
Proof. reflexivity. Qed.

Lemma slice_strip_length {A : Type} (a : list A) (nstart nend : nat) :
  (1 <= nend)%nat ->
  length (slice_strip a nstart nend) = (length a - nstart - nend)%nat.
Proof.
  intros H. unfold slice_strip.
  replace (nend =? 0)%nat with false by (symmetry; apply Nat.eqb_neq; lia).
  rewrite length_firstn, length_skipn. lia.
Qed.

Lemma slice_strip_nth {A : Type} (a : list A) (nstart nend i : nat) (d : A) :
  (1 <= nend)%nat -> (i < length a - nstart - nend)%nat ->
  nth i (slice_strip a nstart nend) d = nth (nstart + i) a d.
Proof.
  intros H Hi. unfold slice_strip.
  replace (nend =? 0)%nat with false by (symmetry; apply Nat.eqb_neq; lia).
  rewrite nth_firstn.
  replace (i <? length a - nend - nstart)%nat with true
    by (symmetry; apply Nat.ltb_lt; lia).
  apply nth_skipn.
Qed.

Section TreatNansFacts.
Variable interp1d_slinear : list R -> list R -> list R -> result (list R).

Lemma treat_nans_xx (x : list R) (y : list (option R)) (nstart nend : nat)
    (xx yy_filled : list R) :
  treat_nans interp1d_slinear x y nstart nend = Ok (xx, yy_filled) ->
  xx = slice_strip x nstart nend
  /\ length (slice_strip x nstart nend) = length (slice_strip y nstart nend).
Proof.
  unfold treat_nans, boolean_index. unfold pd_notna at 1.
  rewrite length_map.
  destruct (Nat.eqb_spec (length (slice_strip x nstart nend))
              (length (slice_strip y nstart nend))) as [E|NE];
    [|discriminate].
  cbn [bind].
  destruct (length (slice_strip y nstart nend)
            =? length (pd_notna (slice_strip y nstart nend)))%nat;
    [|discriminate].
  cbn [bind].
  destruct (interp1d_slinear _ _ _); [|discriminate]. cbn [bind].
  intros H. injection H as <- _. split; [reflexivity|assumption].
Qed.

(** X10.  The dates that [treat_nans] returns are the slice [x[nstart:-nend]]
    of the dates it was given: with [nend >= 1] the [len(x) - nstart - nend]
    dates from index [nstart] on, but with [nend = 0] no date at all, because
    the stop [-0] is the index 0. *)
Theorem treat_nans_dates (x : list R) (y : list (option R))
    (nstart nend : nat) (xx yy_filled : list R) :
  treat_nans interp1d_slinear x y nstart nend = Ok (xx, yy_filled) ->
  (nend = 0%nat -> xx = [])
  /\ ((1 <= nend)%nat ->
      length xx = (length x - nstart - nend)%nat
      /\ forall i, (i < length xx)%nat -> nth i xx 0 = nth (nstart + i) x 0).
Proof.
  intros H. destruct (treat_nans_xx x y nstart nend xx yy_filled H) as [-> _].
  split.
  - intros ->. reflexivity.
  - intros Hn. split; [now apply slice_strip_length|].
    intros i Hi. rewrite slice_strip_length in Hi by assumption.
    now apply slice_strip_nth.
Qed.

(** X11.  The time step of [main_te]. For a frame whose row labels are whole
    years in a row, stripped of [nstart] leading and [nend >= 1] trailing
    months that leave at least two dates, the first two dates that
    [treat_nans] returns are one twelfth of a year apart. *)
Theorem treat_nans_time_step (df : DataFrame) (nstart nend : nat)
    (xx yy_filled : list R) :
  consecutive_years (index df) ->
  (1 <= nend)%nat -> (nstart + nend + 2 <= 12 * length (index df))%nat ->
  treat_nans interp1d_slinear (fst (flatten_dframe df))
    (snd (flatten_dframe df)) nstart nend = Ok (xx, yy_filled) ->
  getitem xx 1 = Ok (nth 1 xx 0) /\ getitem xx 0 = Ok (nth 0 xx 0)
  /\ nth 1 xx 0 - nth 0 xx 0 = 1 / 12.
Proof.
  intros Hyears Hn Hlen H.
  destruct (treat_nans_xx _ _ nstart nend xx yy_filled H) as [-> _].
  pose proof (slice_strip_length (fst (flatten_dframe df)) nstart nend Hn)
    as Hl.
  rewrite flatten_dframe_x_length in Hl.
  split; [apply getitem_nth; lia|]. split; [apply getitem_nth; lia|].
  rewrite !slice_strip_nth
    by (try assumption; rewrite flatten_dframe_x_length; lia).
  replace (nstart + 1)%nat with (nstart + 0 + 1)%nat by lia.
  apply flatten_dframe_step; [assumption|lia].
Qed.

End TreatNansFacts.

Lemma treat_nans_dates_witness :
  length [2; 3] = (length [1; 2; 3; 4] - 1 - 1)%nat
  /\ forall i, (i < length [2; 3])%nat ->
               nth i [2; 3] 0 = nth (1 + i) [1; 2; 3; 4] 0.
Proof.
  apply (treat_nans_dates fill_with_zeros [1; 2; 3; 4]
           [Some 1; None; Some 3; Some 4] 1 1 [2; 3] [0; 0]).
  - reflexivity.
  - lia.
Defined.

Lemma treat_nans_time_step_witness :
  nth 1 (slice_strip (fst (flatten_dframe two_years)) 7 8) 0
  - nth 0 (slice_strip (fst (flatten_dframe two_years)) 7 8) 0 = 1 / 12.
Proof.
  apply (treat_nans_time_step fill_with_zeros two_years 7 8
           (slice_strip (fst (flatten_dframe two_years)) 7 8)
           (repeat 0 9)).
  - exact consecutive_years_2000_2001.
  - lia.
  - simpl. lia.
  - reflexivity.
Defined.

(** ** One station of [main_ols] *)

Lemma boolean_index_filter (a : list R) (p : R -> bool) :
  boolean_index a (map p a) = Ok (filter p a).
Proof.
  unfold boolean_index. rewrite length_map, Nat.eqb_refl. f_equal.
  induction a as [|x a IH]; [reflexivity|].
  cbn [map combine filter snd]. destruct (p x); cbn [map fst]; now rewrite IH.
Qed.

Lemma py_min_spec (a : list R) (lo : R) :
  py_min a = Ok lo -> In lo a /\ forall v, In v a -> lo <= v.
Proof.
  destruct a as [|x t]; [discriminate|]. intros H. injection H as <-.
  split; [apply fold_left_Rmin_In|].
  destruct (fold_left_Rmin_le t x) as [H1 H2].
  intros v [<-|Hv]; [assumption|now apply H2].
Qed.

Lemma py_max_spec (a : list R) (hi : R) :
  py_max a = Ok hi -> In hi a /\ forall v, In v a -> v <= hi.
Proof.
  destruct a as [|x t]; [discriminate|]. intros H. injection H as <-.
  split; [apply fold_left_Rmax_In|].
  destruct (fold_left_Rmax_ge t x) as [H1 H2].
  intros v [<-|Hv]; [assumption|now apply H2].
Qed.

Section MainOlsFacts.
Context {L : Library}.
Variable interp1d_slinear : list R -> list R -> list R -> result (list R).

(** X12.  What [main_ols] reports is the record from September 1981 on. When a
    station gives a row, its start date is a date of the stripped record that
    is not before [1981 + 8/12], no kept date is before the start date or
    after the end date, and the number of observations counts the stripped
    dates from [1981 + 8/12] on, of which there is at least one. *)
Theorem main_ols_from_september_1981 (dframe : DataFrame)
    (nstart nend : nat) (row : ols_row) :
  main_ols_station interp1d_slinear dframe nstart nend = Ok row ->
  let stripped := slice_strip (fst (flatten_dframe dframe)) nstart nend in
  let kept := filter (fun v => Rleb (1981 + 8 / 12) v) stripped in
  In (Start_date row) stripped
  /\ 1981 + 8 / 12 <= Start_date row <= End_date row
  /\ (forall v, In v kept -> Start_date row <= v <= End_date row)
  /\ Number_of_observations row = length kept
  /\ (1 <= length kept)%nat.
Proof.
  intros H stripped kept. unfold main_ols_station in H.
  destruct (flatten_dframe dframe) as [x y] eqn:Ef. cbn [fst] in stripped.
  fold stripped in H.
  assert (Ethr : 1981 + nth 8 (linspace 0 1 12) 0 = 1981 + 8 / 12).
  { rewrite linspace_nth by lia. simpl. lra. }
  rewrite Ethr in H.
  rewrite (boolean_index_filter stripped) in H. cbn [bind] in H.
  fold kept in H.
  destruct (boolean_index (slice_strip y nstart nend) _) as [yy1|];
    [|discriminate].
  cbn [bind] in H.
  destruct (boolean_index kept (pd_notna yy1)); [|discriminate].
  cbn [bind] in H.
  destruct (boolean_index yy1 (pd_notna yy1)); [|discriminate].
  cbn [bind] in H.
  destruct (interp1d_slinear _ _ kept); [|discriminate]. cbn [bind] in H.
  destruct (py_min kept) as [lo|] eqn:Elo; [|discriminate].
  destruct (py_max kept) as [hi|] eqn:Ehi; [|discriminate].
  cbn [bind] in H. injection H as <-. cbn.
  destruct (py_min_spec kept lo Elo) as [Hin Hmin].
  destruct (py_max_spec kept hi Ehi) as [Hin' Hmax].
  pose proof Hin as Hin2. unfold kept in Hin2. apply filter_In in Hin2.
  destruct Hin2 as [Hs Hb].
  split; [assumption|]. split.
  - split; [|now apply Hmax].
    unfold Rleb in Hb. destruct (Rle_dec (1981 + 8 / 12) lo);
      [assumption|discriminate].
  - split; [intros v Hv; split; [now apply Hmin|now apply Hmax]|].
    split; [reflexivity|].
    destruct kept; [contradiction|simpl; lia].
Qed.

End MainOlsFacts.

Lemma main_ols_station_1981 :
  exists row,
    main_ols_station (L := stand_in_library) fill_with_zeros year_1981 7 1
    = Ok row.
Proof.
  unfold main_ols_station.
  destruct (flatten_dframe year_1981) as [x y] eqn:Ef.
  assert (Ex : x = fst (flatten_dframe year_1981)) by now rewrite Ef.
  assert (Ey : y = snd (flatten_dframe year_1981)) by now rewrite Ef.
  rewrite flatten_dframe_rows in Ex. simpl in Ex, Ey. subst x y.
  unfold slice_strip.
  cbn [Nat.eqb length Nat.sub skipn firstn repeat app concat].
  rewrite boolean_index_filter. cbn [bind].
  assert (Ethr : 1981 + nth 8 (linspace 0 1 12) 0 = 1981 + 8 / 12).
  { rewrite linspace_nth by lia. simpl. lra. }
  rewrite Ethr. cbn [map filter]. unfold Rleb.
  repeat match goal with
         | |- context [Rle_dec ?a ?b] => destruct (Rle_dec a b); try lra
         end.
  eexists. reflexivity.
Qed.

Lemma main_ols_from_september_1981_witness :
  exists row,
    main_ols_station (L := stand_in_library) fill_with_zeros year_1981 7 1
    = Ok row
    /\ 1981 + 8 / 12 <= Start_date row <= End_date row.
Proof.
  destruct main_ols_station_1981 as [row Hrow].
  exists row. split; [exact Hrow|].
  apply (main_ols_from_september_1981 (L := stand_in_library)
           fill_with_zeros year_1981 7 1 row Hrow).
Defined.

(** ** From-scratch Theil-Sen: degenerate predictors, bounds, added lines *)

Lemma column_pair_defined (x y : list R) :
  length x = length y -> exists data, column_pair x y = Ok data.
Proof.
  intros H. unfold column_pair. rewrite H, Nat.eqb_refl. eauto.
Qed.

Lemma column_pair_lengths (x y : list R) (data : ndarray) :
  column_pair x y = Ok data -> length x = length y.
Proof.
  unfold column_pair. destruct (Nat.eqb_spec (length x) (length y));
    [auto|discriminate].
Qed.

Lemma column_pair_shape (x y : list R) (data : ndarray) :
  column_pair x y = Ok data -> shape data = [length x; 2%nat].
Proof.
  unfold column_pair. destruct (length x =? length y)%nat; [|discriminate].
  intros H. now injection H as <-.
Qed.

Lemma TheilSen_Cummins_two_columns (x y : list R) (data : ndarray) :
  column_pair x y = Ok data -> (2 <= length x)%nat ->
  TheilSen_Cummins data
  = (Some (np_median (finite_values (concat (CC_matrix data (length x)))),
           match np_median (finite_values
                              (concat (CC_matrix data (length x)))) with
           | Some mv =>
               np_median (map (fun i => get2 data i 1 - mv * get2 data i 0)
                            (seq 0 (length x)))
           | None => None
           end,
           CC_matrix data (length x)), []).
Proof.
  intros Hd HM. unfold TheilSen_Cummins.
  rewrite (column_pair_shape x y data Hd). cbn [length nth].
  destruct (Nat.ltb_spec (length x) 2) as [|_]; [lia|]. reflexivity.
Qed.

Lemma pairwise_slope_points (x y : list R) (data : ndarray) (i j : nat) :
  column_pair x y = Ok data -> (i < length x)%nat -> (j < length x)%nat ->
  pairwise_slope data i j
  = if Req_dec_T (nth i x 0 - nth j x 0) 0 then None
    else Some ((nth i y 0 - nth j y 0) / (nth i x 0 - nth j x 0)).
Proof.
  intros Hd Hi Hj. unfold pairwise_slope.
  destruct (column_pair_rows x y data i Hd Hi) as (_ & -> & ->).
  destruct (column_pair_rows x y data j Hd Hj) as (_ & -> & ->).
  reflexivity.
Qed.

(** The finite entries of [CC] are the slopes of the pairs [i < j] with
    different predictor values. *)
Lemma CC_entries (x y : list R) (data : ndarray) (v : R) :
  column_pair x y = Ok data ->
  (In (Some v) (concat (CC_matrix data (length x)))
   <-> exists i j, (i < j)%nat /\ (j < length x)%nat
                   /\ nth i x 0 <> nth j x 0
                   /\ v = (nth i y 0 - nth j y 0) / (nth i x 0 - nth j x 0)).
Proof.
  intros Hd. split.
  - intros H. apply in_concat in H. destruct H as [row [Hrow Hv]].
    unfold CC_matrix in Hrow. apply in_map_iff in Hrow.
    destruct Hrow as [i [<- Hi]]. apply in_seq in Hi.
    unfold CC_row in Hv. apply in_map_iff in Hv.
    destruct Hv as [j [Hv Hj]]. apply in_seq in Hj.
    destruct (Nat.ltb_spec j i) as [|Hij]; [discriminate|].
    rewrite (pairwise_slope_points x y data i j Hd) in Hv by lia.
    destruct (Req_dec_T (nth i x 0 - nth j x 0) 0) as [|Hne]; [discriminate|].
    injection Hv as <-. exists i, j.
    assert (i <> j) by (intros ->; apply Hne; lra).
    repeat split; try lia. lra.
  - intros (i & j & Hij & Hj & Hne & ->).
    apply in_concat. exists (CC_row data (length x) i). split.
    + unfold CC_matrix. apply in_map, in_seq. lia.
    + unfold CC_row. apply in_map_iff. exists j. split; [|apply in_seq; lia].
      destruct (Nat.ltb_spec j i) as [|_]; [lia|].
      rewrite (pairwise_slope_points x y data i j Hd) by lia.
      destruct (Req_dec_T (nth i x 0 - nth j x 0) 0) as [E|_]; [|reflexivity].
      exfalso. apply Hne. lra.
Qed.

Lemma np_median_none (l : list R) : np_median l = None <-> l = [].
Proof.
  unfold np_median. pose proof (sort_length l) as Hl.
  destruct l as [|v l].
  - simpl. tauto.
  - change (length (v :: l)) with (S (length l)) in Hl.
    split; [|discriminate].
    destruct (Nat.eqb_spec (length (sort (v :: l))) 0) as [E|_]; [lia|].
    destruct (Nat.even _); discriminate.
Qed.

Lemma np_median_some (l : list R) :
  l <> [] -> exists v, np_median l = Some v.
Proof.
  intros H. destruct (np_median l) as [v|] eqn:E; [eauto|].
  apply np_median_none in E. contradiction.
Qed.

Lemma constant_or_pair (x : list R) :
  constant_series x
  \/ exists j, (0 < j)%nat /\ (j < length x)%nat /\ nth 0 x 0 <> nth j x 0.
Proof.
  destruct (Forall_Exists_dec (fun v => v = nth 0 x 0)
              (fun v => Req_dec_T v (nth 0 x 0)) x) as [Hall|Hex].
  - left. rewrite Forall_forall in Hall. intros i j Hi Hj.
    rewrite (Hall (nth i x 0)), (Hall (nth j x 0)) by now apply nth_In.
    reflexivity.
  - right. apply Exists_exists in Hex. destruct Hex as [v [Hv Hne]].
    destruct (In_nth x v 0 Hv) as [j [Hj <-]].
    exists j. split; [|split; [assumption|congruence]].
    destruct j; [congruence|lia].
Qed.

(** X13.  When the from-scratch estimator has no slope to report. On at least
    two points it always returns a fit and prints nothing; the slope is nan
    exactly when all predictor values are the same, so that no pairwise slope
    is finite, and the intercept is nan exactly when the slope is. *)
Theorem TheilSen_Cummins_slope_nan_iff (x y : list R) (data : ndarray) :
  column_pair x y = Ok data -> (2 <= length x)%nat ->
  exists m bb CC,
    TheilSen_Cummins data = (Some (m, bb, CC), [])
    /\ (m = None <-> constant_series x)
    /\ (bb = None <-> m = None).
Proof.
  intros Hd HM.
  rewrite (TheilSen_Cummins_two_columns x y data Hd HM).
  eexists. eexists. eexists. split; [reflexivity|]. split.
  - rewrite np_median_none. split.
    + intros He. destruct (constant_or_pair x) as [Hc|(j & H0 & Hj & Hne)];
        [assumption|].
      exfalso.
      assert (Hin : In (Some ((nth 0 y 0 - nth j y 0)
                              / (nth 0 x 0 - nth j x 0)))
                      (concat (CC_matrix data (length x)))).
      { apply (CC_entries x y data _ Hd). exists 0%nat, j. auto. }
      apply finite_values_In in Hin. now rewrite He in Hin.
    + intros Hc.
      destruct (finite_values (concat (CC_matrix data (length x))))
        as [|v l] eqn:E; [reflexivity|].
      exfalso.
      assert (Hin : In v (finite_values (concat (CC_matrix data (length x)))))
        by (rewrite E; now left).
      apply finite_values_In in Hin.
      apply (CC_entries x y data _ Hd) in Hin.
      destruct Hin as (i & j & Hij & Hj & Hne & _).
      apply Hne, Hc; lia.
  - destruct (np_median (finite_values _)) as [mv|]; [|tauto].
    split; [|discriminate]. intros Hb. apply np_median_none in Hb.
    destruct (length x) as [|n]; [lia|]. discriminate.
Qed.

Lemma TheilSen_Cummins_slope_nan_iff_witness :
  exists data,
    column_pair [1; 1; 1] [0; 2; 5] = Ok data
    /\ exists m bb CC,
        TheilSen_Cummins data = (Some (m, bb, CC), [])
        /\ (m = None <-> constant_series [1; 1; 1])
        /\ (bb = None <-> m = None).
Proof.
  eexists. split; [reflexivity|].
  apply (TheilSen_Cummins_slope_nan_iff [1; 1; 1] [0; 2; 5]).
  - reflexivity.
  - simpl; lia.
Defined.

Lemma np_median_bounds (P : R -> Prop) (l : list R) (v : R) :
  (forall a b, P a -> P b -> P ((a + b) / 2)) ->
  Forall P l -> np_median l = Some v -> P v.
Proof.
  intros Hmid Hall. unfold np_median.
  pose proof (sort_Forall _ _ Hall) as Hs. rewrite Forall_forall in Hs.
  destruct (Nat.eqb_spec (length (sort l)) 0) as [|Hn]; [discriminate|].
  assert (Hhalf : (length (sort l) / 2 < length (sort l))%nat)
    by (apply Nat.div_lt; lia).
  set (h := (length (sort l) / 2)%nat) in *.
  destruct (Nat.even (length (sort l))); intros H; injection H as <-.
  - apply Hmid; apply Hs, nth_In; lia.
  - apply Hs, nth_In; lia.
Qed.

(** X14.  The slope lies between the pairwise slopes: bounds that hold for the
    slope of every pair of points with different predictor values hold for the
    reported slope. *)
Theorem TheilSen_Cummins_slope_between_pairwise_slopes (x y : list R)
    (data : ndarray) (lo hi m : R) (bb : option R)
    (CC : list (list (option R))) :
  column_pair x y = Ok data ->
  (forall i j, (i < j)%nat -> (j < length x)%nat -> nth i x 0 <> nth j x 0 ->
               lo <= (nth i y 0 - nth j y 0) / (nth i x 0 - nth j x 0) <= hi) ->
  TheilSen_Cummins data = (Some (Some m, bb, CC), []) ->
  lo <= m <= hi.
Proof.
  intros Hd Hb Hfit.
  destruct (le_lt_dec 2 (length x)) as [HM|HM].
  - rewrite (TheilSen_Cummins_two_columns x y data Hd HM) in Hfit.
    injection Hfit as Hm _ _.
    apply (np_median_bounds (fun v => lo <= v <= hi) _ m) in Hm.
    + exact Hm.
    + intros a b Ha Hb'. lra.
    + apply Forall_forall. intros v Hv. apply finite_values_In in Hv.
      apply (CC_entries x y data v Hd) in Hv.
      destruct Hv as (i & j & Hij & Hj & Hne & ->). now apply Hb.
  - exfalso. unfold TheilSen_Cummins in Hfit.
    rewrite (column_pair_shape x y data Hd) in Hfit. cbn [length nth] in Hfit.
    destruct (Nat.ltb_spec (length x) 2) as [_|]; [|lia]. discriminate.
Qed.

Lemma TheilSen_Cummins_slope_between_pairwise_slopes_witness :
  exists data CC,
    column_pair [0; 1; 2] [0; 1; 4] = Ok data
    /\ TheilSen_Cummins data = (Some (Some 2, Some 0, CC), [])
    /\ 1 <= 2 <= 3.
Proof.
  destruct TheilSen_Cummins_parabola as (data & CC & Hd & Hfit).
  exists data, CC. split; [exact Hd|]. split; [exact Hfit|].
  apply (TheilSen_Cummins_slope_between_pairwise_slopes [0; 1; 2] [0; 1; 4]
           data 1 3 2 (Some 0) CC Hd); [|exact Hfit].
  intros i j Hij Hj Hne. simpl in Hj.
  destruct j as [|[|[|j]]]; [lia| | |lia];
    destruct i as [|[|i]]; try lia; simpl; lra.
Defined.

Lemma insert_sorted_shift (c v : R) (l : list R) :
  insert_sorted (v + c) (map (fun u => u + c) l)
  = map (fun u => u + c) (insert_sorted v l).
Proof.
  induction l as [|x l IH]; [reflexivity|].
  cbn [map insert_sorted].
  destruct (Rle_dec (v + c) (x + c)), (Rle_dec v x); try lra.
  - reflexivity.
  - cbn [map]. now rewrite IH.
Qed.

Lemma sort_shift (c : R) (l : list R) :
  sort (map (fun u => u + c) l) = map (fun u => u + c) (sort l).
Proof.
  induction l as [|x l IH]; [reflexivity|].
  cbn [map]. unfold sort in *. cbn [fold_right].
  rewrite IH. apply insert_sorted_shift.
Qed.

(** The median moves with the values. *)
Lemma np_median_shift (c : R) (l : list R) :
  np_median (map (fun u => u + c) l)
  = option_map (fun u => u + c) (np_median l).
Proof.
  unfold np_median. rewrite sort_shift, length_map.
  destruct (Nat.eqb_spec (length (sort l)) 0) as [|Hn]; [reflexivity|].
  assert (Hhalf : (length (sort l) / 2 < length (sort l))%nat)
    by (apply Nat.div_lt; lia).
  set (h := (length (sort l) / 2)%nat) in *.
  destruct (Nat.even (length (sort l))); cbn [option_map]; f_equal.
  - rewrite !(nth_map_in_range (fun u => u + c)) by lia. lra.
  - rewrite (nth_map_in_range (fun u => u + c)) by lia. reflexivity.
Qed.

Lemma finite_values_map (f : R -> R) (l : list (option R)) :
  finite_values (map (option_map f) l) = map f (finite_values l).
Proof.
  induction l as [|[v|] l IH]; cbn [map option_map finite_values];
    [reflexivity| |assumption].
  now rewrite IH.
Qed.

Lemma add_line_nth (a c : R) (x y : list R) (i : nat) :
  length x = length y -> (i < length x)%nat ->
  nth i (add_line a c x y) 0 = nth i y 0 + (a * nth i x 0 + c).
Proof.
  intros Hlen Hi. unfold add_line.
  rewrite (nth_map_any _ _ _ 0 (0, 0)) by (rewrite length_combine; lia).
  rewrite combine_nth by assumption. reflexivity.
Qed.

Lemma add_line_length (a c : R) (x y : list R) :
  length x = length y -> length (add_line a c x y) = length x.
Proof.
  intros H. unfold add_line. rewrite length_map, length_combine. lia.
Qed.

Section AddedLine.
Variables (a c : R) (x y : list R) (data data' : ndarray).
Hypothesis Hd : column_pair x y = Ok data.
Hypothesis Hd' : column_pair x (add_line a c x y) = Ok data'.

Let M := length x.

Lemma added_line_slope (i j : nat) :
  (i < M)%nat -> (j < M)%nat ->
  pairwise_slope data' i j
  = option_map (fun v => v + a) (pairwise_slope data i j).
Proof.
  intros Hi Hj. pose proof (column_pair_lengths x y data Hd) as Hlen.
  rewrite (pairwise_slope_points x y data i j Hd Hi Hj).
  rewrite (pairwise_slope_points x _ data' i j Hd' Hi Hj).
  rewrite !add_line_nth by assumption.
  destruct (Req_dec_T (nth i x 0 - nth j x 0) 0) as [|Hne]; [reflexivity|].
  cbn [option_map]. f_equal. field. exact Hne.
Qed.

Lemma added_line_CC :
  CC_matrix data' M
  = map (map (option_map (fun v => v + a))) (CC_matrix data M).
Proof.
  unfold CC_matrix. rewrite map_map. apply map_ext_in. intros i Hi.
  apply in_seq in Hi. unfold CC_row. rewrite map_map.
  apply map_ext_in. intros j Hj. apply in_seq in Hj.
  destruct (j <? i)%nat; [reflexivity|]. apply added_line_slope; lia.
Qed.

Lemma added_line_finite_slopes :
  finite_values (concat (CC_matrix data' M))
  = map (fun v => v + a) (finite_values (concat (CC_matrix data M))).
Proof.
  rewrite added_line_CC, <- concat_map, finite_values_map. reflexivity.
Qed.

Lemma added_line_residuals (mv : R) :
  map (fun i => get2 data' i 1 - (mv + a) * get2 data' i 0) (seq 0 M)
  = map (fun u => u + c)
      (map (fun i => get2 data i 1 - mv * get2 data i 0) (seq 0 M)).
Proof.
  rewrite map_map. apply map_ext_in. intros i Hi. apply in_seq in Hi.
  pose proof (column_pair_lengths x y data Hd) as Hlen.
  destruct (column_pair_rows x y data i Hd) as (_ & -> & ->); [lia|].
  destruct (column_pair_rows x _ data' i Hd') as (_ & -> & ->); [lia|].
  rewrite add_line_nth by (assumption || lia). lra.
Qed.

Lemma added_line_fit :
  (2 <= M)%nat ->
  forall m bb CC,
    TheilSen_Cummins data = (Some (m, bb, CC), []) ->
    TheilSen_Cummins data'
    = (Some (option_map (fun v => v + a) m,
             option_map (fun v => v + c) bb,
             map (map (option_map (fun v => v + a))) CC), []).
Proof.
  intros HM m bb CC.
  rewrite (TheilSen_Cummins_two_columns x y data Hd HM).
  rewrite (TheilSen_Cummins_two_columns x _ data' Hd' HM). fold M.
  intros H. injection H as <- <- <-.
  rewrite added_line_finite_slopes, np_median_shift, added_line_CC.
  destruct (np_median (finite_values (concat (CC_matrix data M)))) as [mv|];
    cbn [option_map]; [|reflexivity].
  rewrite added_line_residuals, np_median_shift. reflexivity.
Qed.

End AddedLine.

(** X15.  Adding a line to the response adds it to the fit. When the response
    [y] is replaced by [y + (a x + c)], the slope of the from-scratch
    estimator grows by [a], its intercept by [c], and every finite pairwise
    slope by [a]. *)
Theorem TheilSen_Cummins_added_line (a c : R) (x y : list R) (data : ndarray)
    (m bb : option R) (CC : list (list (option R))) :
  column_pair x y = Ok data -> (2 <= length x)%nat ->
  TheilSen_Cummins data = (Some (m, bb, CC), []) ->
  exists data',
    column_pair x (add_line a c x y) = Ok data'
    /\ TheilSen_Cummins data'
       = (Some (option_map (fun v => v + a) m,
                option_map (fun v => v + c) bb,
                map (map (option_map (fun v => v + a))) CC), []).
Proof.
  intros Hd HM Hfit.
  pose proof (column_pair_lengths x y data Hd) as Hlen.
  destruct (column_pair_defined x (add_line a c x y)) as [data' Hd'].
  { now rewrite add_line_length. }
  exists data'. split; [assumption|].
  now apply (added_line_fit a c x y data data' Hd Hd' HM).
Qed.

Lemma TheilSen_Cummins_added_line_witness :
  exists data',
    column_pair [0; 1; 2] (add_line 5 7 [0; 1; 2] [0; 1; 4]) = Ok data'
    /\ exists CC', TheilSen_Cummins data'
                   = (Some (Some (2 + 5), Some (0 + 7), CC'), []).
Proof.
  destruct TheilSen_Cummins_parabola as (data & CC & Hd & Hfit).
  destruct (TheilSen_Cummins_added_line 5 7 [0; 1; 2] [0; 1; 4] data
              (Some 2) (Some 0) CC Hd ltac:(simpl; lia) Hfit)
    as (data' & Hd' & Hfit').
  exists data'. split; [exact Hd'|]. eexists. exact Hfit'.
Defined.

(** ** Monte Carlo trend simulator: completed runs *)

Section CompletedRuns.
Context {L : Library}.
Variables (maxlag : nat) (time data_mag : list R) (npts : nat)
  (nc : option Z) (sen_flag : Z).

(** The surrogate of trial [nsim], its autocovariance and the update of the
    running power spectrum. *)
Let series (nsim : nat) : list R := trial_series data_mag npts nsim.

Let spec_step (spec : list R) (nsim : nat) : list R :=
  map (fun p => fst p + snd p * snd p / INR npts)
    (combine spec (amplitude_spectrum (series nsim))).

Lemma fit_trend_next (dummy_ts : list R) (nsim : nat)
    (trends trends' : list (option R)) (w w' : world) :
  fit_trend time dummy_ts nc sen_flag nsim trends w = (Ok (Next trends'), w') ->
  (exists v, trends' = set_nth nsim v trends) /\ stdout w' = stdout w.
Proof.
  unfold fit_trend.
  destruct (sen_flag =? 1)%Z.
  - destruct (length time =? length dummy_ts)%nat; [|discriminate].
    destruct (negb _); [|discriminate].
    destruct (getitem _ 0) as [c|]; [|discriminate].
    intros H. injection H as <- <-. eauto.
  - destruct (sen_flag =? 2)%Z.
    + destruct (column_pair time dummy_ts) as [data|]; [|discriminate].
      destruct (TheilSen_Cummins data) as [r msgs] eqn:Ets.
      destruct r as [[[m bb] CC]|]; [|discriminate].
      assert (msgs = []).
      { unfold TheilSen_Cummins in Ets.
        destruct (negb _ || _); [discriminate|].
        destruct (nth 1 (shape data) 0 =? 2)%nat; [|discriminate].
        now injection Ets. }
      subst msgs. cbn [fit_getitem0].
      intros H. injection H as <- <-. cbn [stdout].
      rewrite app_nil_r. eauto.
    + destruct (length time =? length dummy_ts)%nat; [|discriminate].
      intros H. injection H as <- <-. eauto.
Qed.

(** A trial after which the loop goes on has written row [nsim] of the
    autocovariances, added its power spectrum, and left the generator as
    its one draw does. *)
Lemma trial_next (nsim : nat) (a a' : mc_arrays) (w w' : world) :
  trial maxlag time data_mag npts nc sen_flag nsim a w = (Ok (Next a'), w') ->
  (exists v, siml_trends a' = set_nth nsim v (siml_trends a))
  /\ siml_acvf a' = set_nth nsim (acovf (series nsim) maxlag) (siml_acvf a)
  /\ mean_spec a' = spec_step (mean_spec a) nsim
  /\ rng w' = snd (np_random_random_sample npts (np_random_seed (42 + nsim)))
  /\ stdout w' = stdout w.
Proof.
  intros H.
  pose proof (trial_rng maxlag time data_mag npts nc sen_flag nsim a w) as Hr.
  rewrite H in Hr. cbn [snd] in Hr.
  unfold trial in H. cbn [rng stdout] in H.
  unfold spec_step, series, trial_series, trial_phases.
  destruct (np_random_random_sample npts (np_random_seed (base_seed + nsim)))
    as [u g]. cbn [fst].
  match type of H with
  | (match fit_trend ?t ?d ?n ?s ?i ?tr ?wa with _ => _ end) = _ =>
      destruct (fit_trend t d n s i tr wa) as [[[tr1|]|e1] wa'] eqn:Ef;
      try discriminate
  end.
  apply fit_trend_next in Ef. destruct Ef as [[v ->] Hout].
  destruct (length _ <=? maxlag)%nat; [discriminate|].
  injection H as <- <-. cbn [siml_trends siml_acvf mean_spec].
  repeat split; eauto.
Qed.

Lemma trials_next (k s : nat) (a a' : mc_arrays) (w w' : world) :
  trials maxlag time data_mag npts nc sen_flag (seq s k) a w
  = (Ok (Next a'), w') ->
  (s + k <= length (siml_acvf a))%nat ->
  length (siml_trends a') = length (siml_trends a)
  /\ length (siml_acvf a') = length (siml_acvf a)
  /\ (forall i, nth i (siml_acvf a') []
                = if ((s <=? i) && (i <? s + k))%nat
                  then acovf (series i) maxlag
                  else nth i (siml_acvf a) [])
  /\ mean_spec a' = fold_left spec_step (seq s k) (mean_spec a)
  /\ rng w' = match k with
              | O => rng w
              | S k' => snd (np_random_random_sample npts
                               (np_random_seed (42 + (s + k'))))
              end
  /\ stdout w' = stdout w.
Proof.
  revert s a w; induction k as [|k IH]; intros s a w H Hlen.
  - cbn [seq trials] in H. injection H as <- <-.
    repeat split; try reflexivity.
    intros i. destruct (Nat.leb_spec s i), (Nat.ltb_spec i (s + 0));
      simpl; try reflexivity; lia.
  - cbn [seq trials] in H.
    destruct (trial maxlag time data_mag npts nc sen_flag s a w)
      as [[[a1|]|e1] w1] eqn:Et; try discriminate.
    destruct (trial_next s a a1 w w1 Et) as ([v Htr] & Hac & Hsp & Hr & Ho).
    destruct (IH (S s) a1 w1 H) as (Hl1 & Hl2 & Hnth & Hspec & Hrng & Hout).
    { rewrite Hac, set_nth_length. lia. }
    split; [rewrite Hl1, Htr; apply set_nth_length|].
    split; [rewrite Hl2, Hac; apply set_nth_length|].
    split; [|split; [|split]].
    + intros i. rewrite Hnth, Hac.
      destruct (Nat.eq_dec i s) as [->|Hi].
      * rewrite set_nth_same by lia.
        destruct (Nat.leb_spec (S s) s), (Nat.leb_spec s s),
          (Nat.ltb_spec s (S s + k)), (Nat.ltb_spec s (s + S k));
          simpl; try reflexivity; lia.
      * rewrite set_nth_other by assumption.
        destruct (Nat.leb_spec (S s) i), (Nat.leb_spec s i),
          (Nat.ltb_spec i (S s + k)), (Nat.ltb_spec i (s + S k));
          simpl; try reflexivity; lia.
    + rewrite Hspec, Hsp. reflexivity.
    + rewrite Hrng. destruct k as [|k'].
      * rewrite Hr. do 3 f_equal. lia.
      * do 3 f_equal. lia.
    + congruence.
Qed.

End CompletedRuns.

Section Runs.
Context {L : Library}.
Variables (max_siml maxlag : nat) (time data_record : list R)
  (nc : option Z) (sen_flag : Z).

Let npts := length data_record.
Let series (nsim : nat) : list R :=
  trial_series (amplitude_spectrum data_record) npts nsim.

Lemma monte_carlo_trend_completed (w w' : world) (out : mc_output) :
  monte_carlo_trend max_siml maxlag time data_record nc sen_flag w
  = (Ok (Some out), w') ->
  exists a,
    trials maxlag time (amplitude_spectrum data_record) npts nc sen_flag
      (seq 0 max_siml)
      {| siml_trends := repeat (Some 0) max_siml;
         siml_acvf := repeat (repeat 0 (maxlag + 1)) max_siml;
         mean_spec := repeat 0 npts |}
      (print (Msg_number_of_points npts) w) = (Ok (Next a), w')
    /\ out = (siml_trends a, np_mean (concat (siml_acvf a)),
              np_std (concat (siml_acvf a)),
              map (fun v => v / INR max_siml) (mean_spec a)).
Proof.
  unfold monte_carlo_trend. fold npts.
  destruct (npts =? 0)%nat; [discriminate|].
  destruct (trials _ _ _ _ _ _ _ _ _) as [[[a|]|e] w1]; try discriminate.
  intros H. injection H as <- <-. eauto.
Qed.

Lemma completed_acvf (a : mc_arrays) :
  length (siml_acvf a) = max_siml ->
  (forall i, nth i (siml_acvf a) []
             = if ((0 <=? i) && (i <? 0 + max_siml))%nat
               then acovf (series i) maxlag
               else nth i (repeat (repeat 0 (maxlag + 1)) max_siml) []) ->
  siml_acvf a = map (fun n => acovf (series n) maxlag) (seq 0 max_siml).
Proof.
  intros Hlen Hnth. apply (nth_ext _ _ [] []).
  - now rewrite Hlen, length_map, length_seq.
  - intros i Hi. rewrite Hlen in Hi. rewrite Hnth.
    destruct (Nat.leb_spec 0 i), (Nat.ltb_spec i (0 + max_siml));
      simpl; try lia.
    now rewrite nth_map_index.
Qed.

(** X16.  What a completed run leaves behind, whatever the regression backend.
    It has one slope per trial; the mean and the standard deviation of the
    autocovariances are taken over the [acovf] arrays of the surrogates of the
    trials [0 .. max_siml - 1], which depend on neither the timestamps nor the
    backend; it has printed the number of points and nothing else; and the
    global generator is left as the draw of the last trial, seeded with [42 +
    max_siml - 1], leaves it. *)
Theorem monte_carlo_trend_completed_run (w w' : world)
    (trends : list (option R)) (mean_acvf std_acvf : R) (spec : list R) :
  monte_carlo_trend max_siml maxlag time data_record nc sen_flag w
  = (Ok (Some (trends, mean_acvf, std_acvf, spec)), w') ->
  let acvfs :=
    concat (map (fun nsim =>
                   acovf (trial_series (amplitude_spectrum data_record)
                            (length data_record) nsim) maxlag)
              (seq 0 max_siml)) in
  length trends = max_siml
  /\ mean_acvf = np_mean acvfs /\ std_acvf = np_std acvfs
  /\ stdout w' = stdout w ++ [Msg_number_of_points (length data_record)]
  /\ rng w' = match max_siml with
              | O => rng w
              | S n => snd (np_random_random_sample (length data_record)
                              (np_random_seed (42 + n)))
              end.
Proof.
  intros H acvfs.
  destruct (monte_carlo_trend_completed w w' _ H) as (a & Hrun & Hout).
  injection Hout as -> -> -> ->.
  destruct (trials_next maxlag time (amplitude_spectrum data_record) npts nc
              sen_flag max_siml 0 _ a _ w' Hrun)
    as (Hl1 & Hl2 & Hnth & _ & Hrng & Hstd).
  { cbn [siml_acvf]. rewrite repeat_length. lia. }
  cbn [siml_trends siml_acvf mean_spec] in *.
  rewrite repeat_length in Hl1, Hl2.
  rewrite (completed_acvf a Hl2 Hnth).
  repeat split; try assumption.
Qed.

End Runs.

(** ** Monte Carlo trend simulator: the least-squares backend *)

Section LeastSquaresBackend.
Context {L : Library}.
Variables (maxlag : nat) (time data_mag : list R) (npts : nat)
  (nc : option Z) (sen_flag : Z).
Hypothesis Hnot1 : sen_flag <> 1%Z.
Hypothesis Hnot2 : sen_flag <> 2%Z.

Let slope_of (nsim : nat) : R :=
  params_Date (OLS_fit time (trial_series data_mag npts nsim)).

(** A least-squares trial on a surrogate as long as the timestamps and
    longer than the maximum lag records the fitted slope and goes on. *)
Lemma trial_ols_records (nsim : nat) (a : mc_arrays) (w : world) :
  length time = length (trial_series data_mag npts nsim) ->
  (maxlag < length (trial_series data_mag npts nsim))%nat ->
  exists a' w',
    trial maxlag time data_mag npts nc sen_flag nsim a w = (Ok (Next a'), w')
    /\ siml_trends a' = set_nth nsim (Some (slope_of nsim)) (siml_trends a).
Proof.
  unfold slope_of, trial_series, trial_phases, trial. cbn [rng stdout].
  destruct (np_random_random_sample npts (np_random_seed (base_seed + nsim)))
    as [u g]. cbn [fst].
  intros Htime Hlag. unfold fit_trend.
  destruct (Z.eqb_spec sen_flag 1) as [|_]; [contradiction|].
  destruct (Z.eqb_spec sen_flag 2) as [|_]; [contradiction|].
  rewrite Htime, Nat.eqb_refl.
  destruct (Nat.leb_spec (length (surrogate data_mag
                                    (map (fun v => 2 * PI * v) u))) maxlag)
    as [Hle|_]; [lia|].
  eexists. eexists. split; reflexivity.
Qed.

Lemma trials_ols_records (k s : nat) (a : mc_arrays) (w : world) :
  (forall nsim, (s <= nsim < s + k)%nat ->
                length time = length (trial_series data_mag npts nsim)
                /\ (maxlag < length (trial_series data_mag npts nsim))%nat) ->
  (s + k <= length (siml_trends a))%nat ->
  exists a' w',
    trials maxlag time data_mag npts nc sen_flag (seq s k) a w
    = (Ok (Next a'), w')
    /\ length (siml_trends a') = length (siml_trends a)
    /\ forall i,
        nth i (siml_trends a') None
        = if ((s <=? i) && (i <? s + k))%nat
          then Some (slope_of i)
          else nth i (siml_trends a) None.
Proof.
  revert s a w; induction k as [|k IH]; intros s a w Hok Hlen.
  - exists a, w. repeat split; try reflexivity.
    intros i. destruct (Nat.leb_spec s i), (Nat.ltb_spec i (s + 0));
      simpl; try reflexivity; lia.
  - cbn [seq trials].
    destruct (trial_ols_records s a w) as (a1 & w1 & -> & Ha1);
      [apply Hok; lia|apply Hok; lia|].
    destruct (IH (S s) a1 w1) as (a' & w' & Hrun & Hl' & Hnth).
    + intros nsim Hn. apply Hok. lia.
    + rewrite Ha1, set_nth_length. lia.
    + exists a', w'. split; [exact Hrun|]. split.
      { rewrite Hl', Ha1. apply set_nth_length. }
      intros i. rewrite Hnth, Ha1.
      destruct (Nat.eq_dec i s) as [->|Hi].
      * rewrite set_nth_same by lia.
        destruct (Nat.leb_spec (S s) s), (Nat.leb_spec s s),
          (Nat.ltb_spec s (S s + k)), (Nat.ltb_spec s (s + S k));
          simpl; try reflexivity; lia.
      * rewrite set_nth_other by assumption.
        destruct (Nat.leb_spec (S s) i), (Nat.leb_spec s i),
          (Nat.ltb_spec i (S s + k)), (Nat.ltb_spec i (s + S k));
          simpl; try reflexivity; lia.
Qed.

End LeastSquaresBackend.

Lemma monte_carlo_trend_ols_completes {L : Library} (max_siml maxlag : nat)
    (time data_record : list R) (nc : option Z) (sen_flag : Z) (w : world) :
  (forall n g, length (fst (np_random_random_sample n g)) = n) ->
  sen_flag <> 1%Z -> sen_flag <> 2%Z ->
  length time = length data_record ->
  (maxlag < length data_record)%nat ->
  exists mean_acvf std_acvf spec w',
    monte_carlo_trend max_siml maxlag time data_record nc sen_flag w
    = (Ok (Some (map (fun nsim =>
                        Some (params_Date
                                (OLS_fit time
                                   (trial_series
                                      (amplitude_spectrum data_record)
                                      (length data_record) nsim))))
                   (seq 0 max_siml),
                 mean_acvf, std_acvf, spec)), w').
Proof.
  intros Hdraw H1 H2 Htime Hlag. unfold monte_carlo_trend.
  destruct (Nat.eqb_spec (length data_record) 0) as [E|_]; [lia|].
  set (a0 := {| siml_trends := repeat (Some 0) max_siml;
                siml_acvf := repeat (repeat 0 (maxlag + 1)) max_siml;
                mean_spec := repeat 0 (length data_record) |}).
  destruct (trials_ols_records maxlag time (amplitude_spectrum data_record)
              (length data_record) nc sen_flag H1 H2 max_siml 0 a0
              (print (Msg_number_of_points (length data_record)) w))
    as (a' & w' & -> & Hlen & Hnth).
  { intros nsim _.
    rewrite (trial_series_length Hdraw) by apply amplitude_spectrum_length.
    split; assumption. }
  { simpl. rewrite repeat_length. lia. }
  simpl in Hlen. rewrite repeat_length in Hlen.
  assert (Htr : siml_trends a'
                = map (fun nsim =>
                         Some (params_Date
                                 (OLS_fit time
                                    (trial_series
                                       (amplitude_spectrum data_record)
                                       (length data_record) nsim))))
                    (seq 0 max_siml)).
  { apply (nth_ext _ _ None None).
    - now rewrite Hlen, length_map, length_seq.
    - intros i Hi. rewrite Hlen in Hi. rewrite Hnth.
      destruct (Nat.leb_spec 0 i), (Nat.ltb_spec i (0 + max_siml));
        simpl; try lia.
      now rewrite nth_map_index. }
  rewrite Htr. do 3 eexists. exists w'. reflexivity.
Qed.



Lemma monte_carlo_trend_completed_run_witness :
  exists trends mean_acvf std_acvf spec w',
    monte_carlo_trend (L := stand_in_library) 2 2 [0; 1; 2] [1; -1; 1] None 0
      (@Build_world stand_in_library 0%nat [])
    = (Ok (Some (trends, mean_acvf, std_acvf, spec)), w')
    /\ length trends = 2%nat
    /\ stdout w' = [Msg_number_of_points 3].
Proof.
  destruct (monte_carlo_trend_ols_completes (L := stand_in_library)
              2 2 [0; 1; 2] [1; -1; 1] None 0
              (@Build_world stand_in_library 0%nat []))
    as (m & s & sp & w' & Hrun);
    [exact stand_in_draw_length|lia|lia|reflexivity|simpl; lia|].
  do 4 eexists. exists w'. split; [exact Hrun|].
  destruct (monte_carlo_trend_completed_run (L := stand_in_library)
              2 2 [0; 1; 2] [1; -1; 1] None 0 _ w' _ m s sp Hrun)
    as (Hl & _ & _ & Ho & _).
  split; [exact Hl|exact Ho].
Defined.

(** ** Monte Carlo trend simulator: the mean power spectrum *)

Section MeanSpectrum.
Context {L : Library}.
Variables (data_record : list R).
Hypothesis Hdraw :
  forall n g, length (fst (np_random_random_sample n g)) = n.

Let npts := length data_record.
Let data_mag := amplitude_spectrum data_record.
Let series (nsim : nat) : list R := trial_series data_mag npts nsim.
Let spec_step (spec : list R) (nsim : nat) : list R :=
  map (fun p => fst p + snd p * snd p / INR npts)
    (combine spec (amplitude_spectrum (series nsim))).

Lemma series_spectrum_length (nsim : nat) :
  length (amplitude_spectrum (series nsim)) = npts.
Proof.
  rewrite amplitude_spectrum_length. unfold series, trial_series, surrogate.
  rewrite length_map, ifft_length, synthetic_spectrum_length.
  - apply amplitude_spectrum_length.
  - rewrite (trial_phases_length Hdraw). symmetry.
    apply amplitude_spectrum_length.
Qed.

Lemma spec_step_length (spec : list R) (nsim : nat) :
  length spec = npts -> length (spec_step spec nsim) = npts.
Proof.
  intros H. unfold spec_step.
  rewrite length_map, length_combine, series_spectrum_length. lia.
Qed.

Lemma spec_step_nth (spec : list R) (nsim k : nat) :
  length spec = npts -> (k < npts)%nat ->
  nth k (spec_step spec nsim) 0
  = nth k spec 0
    + nth k (amplitude_spectrum (series nsim)) 0
      * nth k (amplitude_spectrum (series nsim)) 0 / INR npts.
Proof.
  intros Hl Hk. unfold spec_step.
  rewrite (nth_map_any _ _ _ 0 (0, 0))
    by (rewrite length_combine, series_spectrum_length; lia).
  rewrite combine_nth by (now rewrite series_spectrum_length).
  reflexivity.
Qed.

Lemma fold_spec_step_nth (n s k : nat) (spec : list R) :
  length spec = npts -> (k < npts)%nat ->
  nth k (fold_left spec_step (seq s n) spec) 0
  = nth k spec 0
    + sum_upto n
        (fun i => nth k (amplitude_spectrum (series (s + i))) 0
                  * nth k (amplitude_spectrum (series (s + i))) 0
                  / INR npts).
Proof.
  revert s spec; induction n as [|n IH]; intros s spec Hl Hk.
  - rewrite sum_upto_0. simpl. lra.
  - cbn [seq fold_left]. rewrite IH by (try apply spec_step_length; assumption).
    rewrite spec_step_nth by assumption. rewrite sum_upto_shift.
    rewrite Nat.add_0_r.
    rewrite (sum_upto_ext n _
               (fun i => nth k (amplitude_spectrum (series (s + S i))) 0
                         * nth k (amplitude_spectrum (series (s + S i))) 0
                         / INR npts)).
    + lra.
    + intros i _. now replace (S s + i)%nat with (s + S i)%nat by lia.
Qed.

(** The power of a surrogate at frequency [k] *)
Lemma series_power (nsim k : nat) :
  (k < npts)%nat ->
  nth k (amplitude_spectrum (series nsim)) 0
  * nth k (amplitude_spectrum (series nsim)) 0
  = nth k data_mag 0 * nth k data_mag 0
    * (1 + cos (nth k (trial_phases npts nsim) 0
                + nth (mirror npts k) (trial_phases npts nsim) 0)).
Proof.
  intros Hk. unfold series, trial_series, data_mag.
  rewrite surrogate_amplitude_law
    by (try apply (trial_phases_length Hdraw); assumption).
  fold npts.
  set (c := cos _).
  assert (0 <= 1 + c).
  { pose proof (COS_bound (nth k (trial_phases npts nsim) 0
                           + nth (mirror npts k) (trial_phases npts nsim) 0)).
    unfold c. lra. }
  replace (nth k (amplitude_spectrum data_record) 0 * sqrt (1 + c)
           * (nth k (amplitude_spectrum data_record) 0 * sqrt (1 + c)))
    with (nth k (amplitude_spectrum data_record) 0
          * nth k (amplitude_spectrum data_record) 0
          * (sqrt (1 + c) * sqrt (1 + c))) by ring.
  now rewrite sqrt_sqrt.
Qed.

(** X18.  The mean power spectrum of a completed run. When the generator draws
    as many numbers as it is asked for, the mean power spectrum that a run of
    at least one trial returns is, at each frequency [k], the power
    [|FFT(data_record)[k]|^2 / npts] of the record times the mean over the
    trials of [1 + cos (phase[k] + phase[(npts - k) mod npts])]: the factor
    that the real part of the inverse transform puts on every surrogate. *)
Theorem monte_carlo_trend_mean_spectrum (max_siml maxlag : nat)
    (time : list R) (nc : option Z) (sen_flag : Z) (w w' : world)
    (trends : list (option R)) (mean_acvf std_acvf : R) (spec : list R)
    (k : nat) :
  monte_carlo_trend max_siml maxlag time data_record nc sen_flag w
  = (Ok (Some (trends, mean_acvf, std_acvf, spec)), w') ->
  (1 <= max_siml)%nat -> (k < length data_record)%nat ->
  length spec = length data_record
  /\ nth k spec 0
     = nth k (amplitude_spectrum data_record) 0
       * nth k (amplitude_spectrum data_record) 0 / INR (length data_record)
       * (sum_upto max_siml
            (fun nsim =>
               1 + cos (nth k (trial_phases (length data_record) nsim) 0
                        + nth (mirror (length data_record) k)
                            (trial_phases (length data_record) nsim) 0))
          / INR max_siml).
Proof.
  intros H Hm Hk. fold npts in Hk |- *.
  destruct (monte_carlo_trend_completed max_siml maxlag time data_record nc
              sen_flag w w' _ H) as (a & Hrun & Hout).
  injection Hout as _ _ _ ->.
  destruct (trials_next maxlag time (amplitude_spectrum data_record) npts nc
              sen_flag max_siml 0 _ a _ w' Hrun)
    as (_ & _ & _ & Hspec & _).
  { cbn [siml_acvf]. rewrite repeat_length. lia. }
  cbn [mean_spec] in Hspec. fold data_mag series spec_step in Hspec.
  assert (Hlen : length (mean_spec a) = npts).
  { rewrite Hspec. clear Hspec Hrun.
    assert (Hg : forall n s sp,
               length sp = npts ->
               length (fold_left spec_step (seq s n) sp) = npts).
    { induction n as [|n IH]; intros s sp Hl; [exact Hl|].
      cbn [seq fold_left]. apply IH, spec_step_length, Hl. }
    apply Hg, repeat_length. }
  split; [now rewrite length_map|].
  rewrite (nth_map_in_range (fun v => v / INR max_siml)) by lia.
  rewrite Hspec, fold_spec_step_nth by (try apply repeat_length; assumption).
  rewrite nth_repeat.
  rewrite (sum_upto_ext max_siml _
             (fun i => nth k data_mag 0 * nth k data_mag 0 / INR npts
                       * (1 + cos (nth k (trial_phases npts i) 0
                                   + nth (mirror npts k)
                                       (trial_phases npts i) 0)))).
  - rewrite sum_upto_scale. unfold data_mag, Rdiv. ring.
  - intros i _. cbn [Nat.add]. rewrite series_power by assumption.
    unfold Rdiv. ring.
Qed.

End MeanSpectrum.

Lemma monte_carlo_trend_mean_spectrum_witness :
  exists trends mean_acvf std_acvf spec w',
    monte_carlo_trend (L := stand_in_library) 2 2 [0; 1; 2] [1; -1; 1] None 0
      (@Build_world stand_in_library 0%nat [])
    = (Ok (Some (trends, mean_acvf, std_acvf, spec)), w')
    /\ length spec = length [1; -1; 1]
    /\ nth 1 spec 0
       = nth 1 (amplitude_spectrum [1; -1; 1]) 0
         * nth 1 (amplitude_spectrum [1; -1; 1]) 0 / INR (length [1; -1; 1])
         * (sum_upto 2
              (fun nsim =>
                 1 + cos (nth 1 (trial_phases (L := stand_in_library)
                                   (length [1; -1; 1]) nsim) 0
                          + nth (mirror (length [1; -1; 1]) 1)
                              (trial_phases (L := stand_in_library)
                                 (length [1; -1; 1]) nsim) 0))
            / INR 2).
Proof.
  destruct (monte_carlo_trend_ols_completes (L := stand_in_library)
              2 2 [0; 1; 2] [1; -1; 1] None 0
              (@Build_world stand_in_library 0%nat []))
    as (m & s & sp & w' & Hrun);
    [exact stand_in_draw_length|lia|lia|reflexivity|simpl; lia|].
  do 4 eexists. exists w'. split; [exact Hrun|].
  apply (monte_carlo_trend_mean_spectrum (L := stand_in_library) [1; -1; 1]
           stand_in_draw_length 2 2 [0; 1; 2] None 0 _ w' _ m s sp 1 Hrun).
  - lia.
  - simpl; lia.
Defined.

(** ** Spectral surrogates: the sum of a surrogate *)

Lemma np_sum_as_sum_upto (l : list R) :
  np_sum l = sum_upto (length l) (fun n => nth n l 0).
Proof.
  unfold sum_upto. rewrite (map_nth_seq (fun v => v) l), map_id. reflexivity.
Qed.

Lemma angle_zero_frequency (N n : nat) : angle N 0 n = 0.
Proof. unfold angle. simpl. unfold Rdiv. ring. Qed.

Lemma mirror_zero (N : nat) : mirror N 0 = 0%nat.
Proof.
  unfold mirror. rewrite Nat.sub_0_r. destruct N; [reflexivity|].
  apply Nat.Div0.mod_same.
Qed.

(** The amplitude at frequency zero is the modulus of the sum. *)
Lemma amplitude_spectrum_zero_frequency (x : list R) :
  (1 <= length x)%nat ->
  nth 0 (amplitude_spectrum x) 0 = Rabs (np_sum x).
Proof.
  intros HN. unfold amplitude_spectrum.
  rewrite (nth_map_any Cabs _ _ 0 C0) by (rewrite fft_length, length_map; lia).
  unfold fft. rewrite length_map. rewrite nth_map_index by lia.
  rewrite <- Cabs_real_abs. unfold Cabs. f_equal.
  rewrite Csum_re, Csum_im. cbn [re im].
  assert (Hre : sum_upto (length x)
                  (fun j => re (Cmul (nth j (map RtoC x) C0)
                                  (Cexp_i (- (2 * PI * INR 0 * INR j
                                              / INR (length x))))))
                = np_sum x).
  { rewrite np_sum_as_sum_upto. apply sum_upto_ext. intros n Hn.
    change C0 with (RtoC 0). rewrite map_nth.
    replace (- (2 * PI * INR 0 * INR n / INR (length x))) with 0
      by (simpl; unfold Rdiv; ring).
    unfold Cmul, Cexp_i, RtoC. cbn [re im]. rewrite cos_0, sin_0. ring. }
  assert (Him : sum_upto (length x)
                  (fun j => im (Cmul (nth j (map RtoC x) C0)
                                  (Cexp_i (- (2 * PI * INR 0 * INR j
                                              / INR (length x))))))
                = 0).
  { rewrite (sum_upto_ext _ _ (fun _ => 0)).
    - rewrite sum_upto_const. ring.
    - intros n Hn. change C0 with (RtoC 0). rewrite map_nth.
      replace (- (2 * PI * INR 0 * INR n / INR (length x))) with 0
        by (simpl; unfold Rdiv; ring).
      unfold Cmul, Cexp_i, RtoC. cbn [re im]. rewrite cos_0, sin_0. ring. }
  rewrite Hre, Him. ring.
Qed.

Lemma surrogate_sum_spectrum (Z : list complex) :
  (1 <= length Z)%nat ->
  np_sum (map (fun z => sqrt 2 * re z) (ifft Z)) = sqrt 2 * re (nth 0 Z C0).
Proof.
  intros HN. rewrite np_sum_as_sum_upto, surrogate_length.
  pose proof (sum_s_cos Z HN 0 ltac:(lia)) as H.
  rewrite mirror_zero in H.
  rewrite (sum_upto_ext _ _
             (fun n =>
                sqrt 2
                * (1 / INR (length Z)
                   * sum_upto (length Z)
                       (fun j => re (nth j Z C0) * cos (angle (length Z) j n)
                                 - im (nth j Z C0)
                                   * sin (angle (length Z) j n)))
                * cos (angle (length Z) 0 n))).
  - rewrite H. lra.
  - intros n Hn. rewrite surrogate_nth by assumption.
    rewrite angle_zero_frequency, cos_0. ring.
Qed.

(** X19.  The sum of a surrogate. A surrogate adds up to [sqrt 2] times the
    modulus of the sum of the record times the cosine of the phase drawn for
    frequency zero; the surrogates of a record that adds up to zero, such as
    the residuals of a least-squares line, add up to zero. *)
Theorem surrogate_sum (data_record ph_ang : list R) :
  length ph_ang = length data_record -> (1 <= length data_record)%nat ->
  np_sum (surrogate (amplitude_spectrum data_record) ph_ang)
  = sqrt 2 * Rabs (np_sum data_record) * cos (nth 0 ph_ang 0)
  /\ (np_sum data_record = 0 ->
      np_sum (surrogate (amplitude_spectrum data_record) ph_ang) = 0).
Proof.
  intros Hlen HN.
  assert (HA : length ph_ang = length (amplitude_spectrum data_record))
    by now rewrite amplitude_spectrum_length.
  assert (Hs : np_sum (surrogate (amplitude_spectrum data_record) ph_ang)
               = sqrt 2 * Rabs (np_sum data_record) * cos (nth 0 ph_ang 0)).
  { unfold surrogate. rewrite surrogate_sum_spectrum.
    - rewrite synthetic_spectrum_nth
        by (try assumption; rewrite amplitude_spectrum_length; lia).
      cbn [re]. rewrite amplitude_spectrum_zero_frequency by assumption. ring.
    - rewrite synthetic_spectrum_length by assumption.
      now rewrite amplitude_spectrum_length. }
  split; [exact Hs|].
  intros H0. rewrite Hs, H0, Rabs_R0. ring.
Qed.

Lemma surrogate_sum_witness :
  np_sum (surrogate (amplitude_spectrum [1; -1]) [0; 0])
  = sqrt 2 * Rabs (np_sum [1; -1]) * cos (nth 0 [0; 0] 0).
Proof.
  apply (surrogate_sum [1; -1] [0; 0]).
  - reflexivity.
  - simpl; lia.
Defined.

(** ** Empirical percentile extractor: what a station can report *)

Lemma INR_nat_sum (l : list nat) :
  INR (fold_left Nat.add l 0%nat) = np_sum (map INR l).
Proof.
  induction l as [|x l IH]; [unfold np_sum; reflexivity|].
  cbn [fold_left map Nat.add]. rewrite nat_sum_acc, plus_INR, IH, np_sum_cons.
  reflexivity.
Qed.

Lemma sum_upto_nonneg (n : nat) (f : nat -> R) :
  (forall j, 0 <= f j) -> 0 <= sum_upto n f.
Proof.
  intros H. induction n as [|n IH]; [rewrite sum_upto_0; lra|].
  rewrite sum_upto_S. specialize (H n). lra.
Qed.

(** When two values differ, the outer edges of the histogram are the
    smallest and the largest value themselves. *)
Lemma outer_edges_extremes (a : list R) (u v : R) :
  In u a -> In v a -> u < v ->
  In (fst (outer_edges a)) a /\ In (snd (outer_edges a)) a.
Proof.
  intros Hu Hv Huv. destruct a as [|x t]; [contradiction|].
  destruct (fold_left_Rmin_le t x) as [Hl1 Hl2].
  destruct (fold_left_Rmax_ge t x) as [Hh1 Hh2].
  assert (Hlo : fold_left Rmin t x <= u).
  { destruct Hu as [<-|Hu]; [assumption|now apply Hl2]. }
  assert (Hhi : v <= fold_left Rmax t x).
  { destruct Hv as [<-|Hv]; [assumption|now apply Hh2]. }
  unfold outer_edges.
  destruct (Req_dec_T (fold_left Rmin t x) (fold_left Rmax t x)); [lra|].
  cbn [fst snd]. split; [apply fold_left_Rmin_In|apply fold_left_Rmax_In].
Qed.

Section StationHistogram.
Variables (max_siml : nat) (siml : list R).

Let nbins := nbins_of max_siml.
Let N := station_N max_siml siml.
Let bin_edges := station_bin_edges max_siml siml.
Let count := station_count max_siml siml.
Let M := length siml.

Lemma station_nbins : (2 <= nbins)%nat.
Proof. apply nbins_of_pos. Qed.

Lemma station_bin_edges_linspace :
  bin_edges
  = linspace (fst (outer_edges siml)) (snd (outer_edges siml)) nbins.
Proof.
  unfold bin_edges, station_bin_edges, np_histogram.
  destruct (outer_edges siml) as [lo hi]. reflexivity.
Qed.

Lemma station_count_nth (j : nat) :
  (j < nbins)%nat ->
  nth j count 0%nat = length (filter (in_bin bin_edges nbins j) siml).
Proof.
  intros Hj. unfold count, bin_edges, station_count, station_bin_edges,
    np_histogram. fold nbins.
  destruct (outer_edges siml) as [lo hi]. cbn [fst snd].
  now rewrite nth_map_index.
Qed.

Lemma station_count_length : length count = nbins.
Proof. apply np_histogram_shape. Qed.

Lemma station_edges_grow :
  nth 0 bin_edges 0 = fst (outer_edges siml)
  /\ nth nbins bin_edges 0 = snd (outer_edges siml)
  /\ forall j, (j < nbins)%nat -> nth j bin_edges 0 < nth (j + 1) bin_edges 0.
Proof.
  rewrite station_bin_edges_linspace. apply linspace_edges.
  - pose proof station_nbins. lia.
  - apply outer_edges_cover.
Qed.

Lemma station_edges_mono (j k : nat) :
  (j <= k)%nat -> (k <= nbins)%nat ->
  nth j bin_edges 0 <= nth k bin_edges 0.
Proof.
  intros Hjk Hk. destruct station_edges_grow as (_ & _ & Hg).
  induction k as [|k IH]; [replace j with 0%nat by lia; lra|].
  destruct (Nat.eq_dec j (S k)) as [->|Hne]; [lra|].
  specialize (IH ltac:(lia) ltac:(lia)).
  specialize (Hg k ltac:(lia)). replace (k + 1)%nat with (S k) in Hg by lia.
  lra.
Qed.

Lemma station_N_sum (k : nat) :
  (k < nbins)%nat ->
  nth k N 0 = sum_upto k (fun j => INR (nth j count 0%nat)) / INR M.
Proof.
  intros Hk. unfold N. rewrite station_N_nth by assumption.
  fold count M. change (np_sum (map ?f (seq 0 k))) with (sum_upto k f).
  rewrite (sum_upto_ext k _ (fun j => / INR M * INR (nth j count 0%nat))).
  - rewrite sum_upto_scale. unfold Rdiv. ring.
  - intros j _. unfold Rdiv. ring.
Qed.

Lemma station_count_total :
  sum_upto nbins (fun j => INR (nth j count 0%nat)) = INR M.
Proof.
  unfold M. rewrite <- (np_histogram_total siml nbins)
    by (pose proof station_nbins; lia).
  change (fst (np_histogram siml nbins)) with count.
  rewrite INR_nat_sum, np_sum_as_sum_upto, length_map, station_count_length.
  apply sum_upto_ext. intros j _.
  change 0 with (INR 0). now rewrite map_nth.
Qed.

Lemma station_count_hit (j : nat) (v : R) :
  (j < nbins)%nat -> In v siml -> in_bin bin_edges nbins j v = true ->
  (1 <= nth j count 0%nat)%nat.
Proof.
  intros Hj Hv Hb. rewrite station_count_nth by assumption.
  assert (Hin : In v (filter (in_bin bin_edges nbins j) siml))
    by (apply filter_In; split; assumption).
  destruct (filter _ siml); [contradiction|simpl; lia].
Qed.

(** The smallest and the largest value when they differ: they are the outer
    edges, the first falls into the first bin and the second into the last
    one. *)
Lemma station_extremes (u v : R) :
  In u siml -> In v siml -> u < v ->
  (1 <= nth 0 count 0%nat)%nat /\ (1 <= nth (nbins - 1) count 0%nat)%nat.
Proof.
  intros Hu Hv Huv.
  pose proof station_nbins as Hn.
  destruct station_edges_grow as (E0 & En & Hg).
  destruct (outer_edges_extremes siml u v Hu Hv Huv) as [Hlo Hhi].
  split.
  - apply (station_count_hit 0 (fst (outer_edges siml))); [lia|assumption|].
    unfold in_bin. rewrite E0, Rleb_true by lra.
    destruct (Nat.eqb_spec 0 (nbins - 1)) as [|_]; [lia|].
    specialize (Hg 0%nat ltac:(lia)). rewrite E0 in Hg.
    now rewrite Rltb_true.
  - apply (station_count_hit (nbins - 1) (snd (outer_edges siml)));
      [lia|assumption|].
    unfold in_bin. rewrite Nat.eqb_refl.
    specialize (Hg (nbins - 1)%nat ltac:(lia)).
    replace (nbins - 1 + 1)%nat with nbins in * by lia. rewrite En in *.
    rewrite !Rleb_true by lra. reflexivity.
Qed.

End StationHistogram.

Lemma last_assigned_source (p : nat -> bool) (f : nat -> R) (ns : list nat)
    (v : option R) (r : R) :
  last_assigned p f ns v = Some r ->
  v = Some r \/ exists n, In n ns /\ p n = true /\ f n = r.
Proof.
  unfold last_assigned. revert v; induction ns as [|n ns IH]; intros v H;
    [now left|].
  cbn [fold_left] in H. apply IH in H. destruct H as [H|(m & Hm & Hp & Hf)].
  - destruct (p n) eqn:E; [|now left].
    right. exists n. split; [now left|]. split; [assumption|congruence].
  - right. exists m. split; [now right|auto].
Qed.

(** X20.  A run of fewer than 40 trials cannot report a confidence limit. When
    the simulated slopes of the first station are fewer than 40 and not all
    equal, the largest of them is alone enough to keep every cumulative
    fraction at or below [1 - 1/M < 0.975]: the lower bound is found in the
    first bin, the upper bound is never assigned, and the half-width raises
    [UnboundLocalError] for [temp_conf_int_high]. *)
Theorem percentile_extractor_too_few_trials (max_siml : nat) (siml : list R)
    (u v : R) :
  In u siml -> In v siml -> u < v -> (length siml < 40)%nat ->
  fst (percentile_extractor max_siml siml unbound)
  = Raise (UnboundLocalError "temp_conf_int_high")
  /\ temp_conf_int_low (snd (percentile_extractor max_siml siml unbound))
     = Some (midpoint (station_bin_edges max_siml siml) 0)
  /\ temp_conf_int_high (snd (percentile_extractor max_siml siml unbound))
     = None.
Proof.
  intros Hu Hv Huv HM.
  pose proof (station_nbins max_siml) as Hn.
  destruct (station_extremes max_siml siml u v Hu Hv Huv) as [Hc0 Hcl].
  assert (HMpos : 0 < INR (length siml)).
  { apply lt_0_INR. destruct siml; [contradiction|simpl; lia]. }
  assert (HM40 : INR (length siml) < 40).
  { apply lt_INR in HM. simpl in HM. lra. }
  assert (Hinv : 25 / 1000 < / INR (length siml)).
  { replace (25 / 1000) with (/ 40) by lra.
    apply Rinv_lt_contravar; [|assumption]. lra. }
  assert (Hlow : straddles_low (station_N max_siml siml) 0 = true).
  { apply straddles_low_spec. unfold alim_low.
    rewrite !station_N_sum by lia. cbn [Nat.add].
    rewrite sum_upto_0, sum_upto_S, sum_upto_0.
    split; [unfold Rdiv; lra|].
    apply le_INR in Hc0. simpl in Hc0. unfold Rdiv.
    apply Rle_trans with (1 * / INR (length siml)); [lra|].
    apply Rmult_le_compat_r; [left; now apply Rinv_0_lt_compat|lra]. }
  assert (Hhigh : forall n, (n + 1 < nbins_of max_siml)%nat ->
                            straddles_high (station_N max_siml siml) n = false).
  { intros n Hlt. unfold straddles_high.
    rewrite (Rltb_false alim_high); [apply andb_false_r|].
    apply Rle_trans
      with (nth (nbins_of max_siml - 1) (station_N max_siml siml) 0).
    - apply empirical_cdf_mono; lia.
    - rewrite station_N_sum by lia.
      pose proof (station_count_total max_siml siml) as Ht.
      replace (nbins_of max_siml) with (S (nbins_of max_siml - 1)) in Ht at 1
        by lia.
      rewrite sum_upto_S in Ht.
      apply le_INR in Hcl. simpl in Hcl. unfold alim_high.
      apply Rle_trans with ((INR (length siml) - 1) / INR (length siml)).
      + unfold Rdiv. apply Rmult_le_compat_r;
          [left; now apply Rinv_0_lt_compat|lra].
      + unfold Rdiv. rewrite Rmult_minus_distr_r, Rinv_r by lra. lra. }
  rewrite percentile_extractor_unfold. cbn [fst snd].
  pose proof (scan_low_found max_siml siml unbound 0 ltac:(lia) Hlow) as El.
  pose proof (scan_high_missing max_siml siml unbound Hhigh) as Eh.
  cbn [unbound temp_conf_int_high] in Eh.
  unfold half_width. rewrite El, Eh. repeat split; reflexivity.
Qed.

Lemma percentile_extractor_too_few_trials_witness :
  fst (percentile_extractor 2 [0; 1] unbound)
  = Raise (UnboundLocalError "temp_conf_int_high").
Proof.
  apply (percentile_extractor_too_few_trials 2 [0; 1] 0 1).
  - simpl; auto.
  - simpl; auto.
  - lra.
  - simpl; lia.
Defined.

(** X21.  The half-width that the first station of a run reports is never
    negative and never more than half the range of the histogram: the lower
    bound is found in a bin that is not after the bin of the upper bound. (A
    later station that keeps a bound of an earlier one has no such
    guarantee.) *)
Theorem first_station_half_width_range (max_siml : nat) (siml : list R)
    (h : R) :
  fst (percentile_extractor max_siml siml unbound) = Ok h ->
  0 <= h <= (snd (outer_edges siml) - fst (outer_edges siml)) / 2.
Proof.
  rewrite percentile_extractor_unfold. cbn [fst].
  set (N := station_N max_siml siml).
  set (e := station_bin_edges max_siml siml).
  set (nbins := nbins_of max_siml).
  unfold half_width, scan_bounds.
  destruct (scan_bounds_split N e (seq 0 (nbins - 1)) unbound) as [-> ->].
  cbn [unbound temp_conf_int_low temp_conf_int_high].
  destruct (last_assigned (straddles_low N) (midpoint e) _ None)
    as [lo|] eqn:El; [|discriminate].
  destruct (last_assigned (straddles_high N) (midpoint e) _ None)
    as [hi|] eqn:Eh; [|discriminate].
  intros H. injection H as <-.
  apply last_assigned_source in El, Eh.
  destruct El as [|(nl & Hnl & Hsl & <-)]; [discriminate|].
  destruct Eh as [|(nh & Hnh & Hsh & <-)]; [discriminate|].
  apply in_seq in Hnl, Hnh.
  apply straddles_low_spec in Hsl. apply straddles_high_spec in Hsh.
  unfold alim_low, alim_high in *.
  assert (Hle : (nl <= nh)%nat).
  { destruct (le_lt_dec nl nh) as [|Hlt]; [assumption|]. exfalso.
    pose proof (empirical_cdf_mono (station_count max_siml siml) nbins
                  (nh + 1) nl ltac:(lia) ltac:(lia)) as Hm.
    change (empirical_cdf (station_count max_siml siml) nbins) with N in Hm.
    lra. }
  destruct (station_edges_grow max_siml siml) as (E0 & En & _).
  fold e nbins in E0, En.
  pose proof (station_edges_mono max_siml siml nl nh Hle
                ltac:(fold nbins; lia)) as H1.
  pose proof (station_edges_mono max_siml siml (nl + 1) (nh + 1) ltac:(lia)
                ltac:(fold nbins; lia)) as H2.
  pose proof (station_edges_mono max_siml siml 0 nl ltac:(lia)
                ltac:(fold nbins; lia)) as H3.
  pose proof (station_edges_mono max_siml siml 0 (nl + 1) ltac:(lia)
                ltac:(fold nbins; lia)) as H4.
  pose proof (station_edges_mono max_siml siml nh nbins ltac:(lia)
                ltac:(fold nbins; lia)) as H5.
  pose proof (station_edges_mono max_siml siml (nh + 1) nbins ltac:(lia)
                ltac:(fold nbins; lia)) as H6.
  fold e in H1, H2, H3, H4, H5, H6. unfold midpoint. lra.
Qed.

Lemma first_station_half_width_range_witness :
  fst (percentile_extractor 50 station_A unbound) = Ok 0
  /\ 0 <= 0 <= (snd (outer_edges station_A) - fst (outer_edges station_A)) / 2.
Proof.
  assert (H : fst (percentile_extractor 50 station_A unbound) = Ok 0)
    by (rewrite station_A_extract; reflexivity).
  split; [exact H|].
  exact (first_station_half_width_range 50 station_A 0 H).
Defined.

(** ** Empirical percentile extractor: slopes that all agree *)

Lemma fold_left_Rmin_repeat (v : R) (n : nat) :
  fold_left Rmin (repeat v n) v = v.
Proof.
  induction n as [|n IH]; [reflexivity|].
  cbn [repeat fold_left]. unfold Rmin at 2.
  destruct (Rle_dec v v); exact IH.
Qed.

Lemma fold_left_Rmax_repeat (v : R) (n : nat) :
  fold_left Rmax (repeat v n) v = v.
Proof.
  induction n as [|n IH]; [reflexivity|].
  cbn [repeat fold_left]. unfold Rmax at 2.
  destruct (Rle_dec v v); exact IH.
Qed.

Lemma outer_edges_all_equal (v : R) (a : list R) :
  a <> [] -> Forall (eq v) a -> outer_edges a = (v - 5 / 10, v + 5 / 10).
Proof.
  intros Hne Hall. rewrite (Forall_eq_repeat Hall).
  destruct (length a) as [|n] eqn:E; [destruct a; [congruence|discriminate]|].
  cbn [repeat outer_edges].
  rewrite fold_left_Rmin_repeat, fold_left_Rmax_repeat.
  destruct (Req_dec_T v v); [reflexivity|congruence].
Qed.

Lemma count_all_equal (p : R -> bool) (v : R) (a : list R) :
  Forall (eq v) a ->
  length (filter p a) = if p v then length a else 0%nat.
Proof.
  intros Hall. rewrite (Forall_eq_repeat Hall) at 1.
  apply count_repeat.
Qed.

Section EqualSlopes.
Variables (max_siml : nat) (siml : list R) (v : R).
Hypothesis Hne : siml <> [].
Hypothesis Hall : Forall (eq v) siml.

Let nbins := nbins_of max_siml.
Let j0 := (nbins / 2)%nat.
Let e := station_bin_edges max_siml siml.
Let N := station_N max_siml siml.
Let count := station_count max_siml siml.

Lemma equal_slopes_nbins : nbins = 5%nat \/ nbins = 100%nat.
Proof.
  unfold nbins, nbins_of. destruct (500 <=? max_siml)%nat; auto.
Qed.

Lemma equal_slopes_edge (j : nat) :
  (j < nbins)%nat -> nth j e 0 = v - 5 / 10 + INR j * (1 / INR nbins).
Proof.
  intros Hj. unfold e. rewrite station_bin_edges_linspace.
  rewrite (outer_edges_all_equal v siml Hne Hall). cbn [fst snd].
  fold nbins. rewrite linspace_nth by lia.
  destruct (Nat.eqb_spec j nbins) as [|_]; [lia|].
  f_equal. f_equal. f_equal. lra.
Qed.

(** The bin of the common value: [nbins / 2]. *)
Lemma equal_slopes_bin :
  (j0 + 1 < nbins)%nat /\ nth j0 e 0 <= v < nth (j0 + 1) e 0.
Proof.
  unfold j0. destruct equal_slopes_nbins as [E|E].
  - assert (Ej : (nbins / 2 = 2)%nat) by (rewrite E; reflexivity).
    rewrite Ej. split; [lia|].
    rewrite !equal_slopes_edge by lia. rewrite E.
    rewrite !INR_IZR_INZ. cbn [Z.of_nat Nat.add Pos.of_succ_nat Pos.succ].
    lra.
  - assert (Ej : (nbins / 2 = 50)%nat) by (rewrite E; reflexivity).
    rewrite Ej. split; [lia|].
    rewrite !equal_slopes_edge by lia. rewrite E.
    rewrite !INR_IZR_INZ.
    change (Z.of_nat 100) with 100%Z. change (Z.of_nat 50) with 50%Z.
    change (Z.of_nat (50 + 1)) with 51%Z. lra.
Qed.

Lemma equal_slopes_in_bin (j : nat) :
  (j < nbins)%nat -> in_bin e nbins j v = (j =? j0)%nat.
Proof.
  intros Hj. destruct equal_slopes_bin as [Hj0 [Hlo Hhi]].
  unfold in_bin. destruct (Nat.eqb_spec j j0) as [->|Hneq].
  - rewrite Rleb_true by assumption.
    destruct (Nat.eqb_spec j0 (nbins - 1)); [lia|].
    now rewrite Rltb_true.
  - destruct (le_lt_dec j j0) as [Hle|Hgt].
    + pose proof (station_edges_mono max_siml siml (j + 1) j0 ltac:(lia)
                    ltac:(fold nbins; lia)) as Hm. fold e in Hm.
      destruct (Nat.eqb_spec j (nbins - 1)); [lia|].
      rewrite (Rltb_false v) by lra. apply andb_false_r.
    + pose proof (station_edges_mono max_siml siml (j0 + 1) j ltac:(lia)
                    ltac:(fold nbins; lia)) as Hm. fold e in Hm.
      rewrite Rleb_false by lra. reflexivity.
Qed.

Lemma equal_slopes_count (j : nat) :
  (j < nbins)%nat ->
  nth j count 0%nat = if (j =? j0)%nat then length siml else 0%nat.
Proof.
  intros Hj. unfold count. rewrite station_count_nth by assumption.
  fold e nbins. rewrite (count_all_equal _ v siml Hall).
  now rewrite equal_slopes_in_bin.
Qed.

Lemma equal_slopes_N :
  nth j0 N 0 = 0 /\ nth (j0 + 1) N 0 = 1.
Proof.
  destruct equal_slopes_bin as [Hj0 _].
  assert (HM : 0 < INR (length siml)).
  { apply lt_0_INR. destruct siml; [congruence|simpl; lia]. }
  assert (H0 : sum_upto j0 (fun j => INR (nth j count 0%nat)) = 0).
  { rewrite (sum_upto_ext _ _ (fun _ => 0)).
    - rewrite sum_upto_const. ring.
    - intros j Hj. rewrite equal_slopes_count by lia.
      destruct (Nat.eqb_spec j j0); [lia|reflexivity]. }
  unfold N. rewrite !station_N_sum by (fold nbins; lia). fold count.
  replace (j0 + 1)%nat with (S j0) by lia. rewrite sum_upto_S, H0.
  rewrite equal_slopes_count, Nat.eqb_refl by lia.
  split; [unfold Rdiv; ring|]. field. lra.
Qed.

Lemma equal_slopes_extract (env : locals) :
  fst (percentile_extractor max_siml siml env) = Ok 0
  /\ temp_conf_int_low (snd (percentile_extractor max_siml siml env))
     = Some (midpoint e j0)
  /\ temp_conf_int_high (snd (percentile_extractor max_siml siml env))
     = Some (midpoint e j0).
Proof.
  destruct equal_slopes_bin as [Hj0 _].
  destruct equal_slopes_N as [E0 E1].
  assert (Hl : straddles_low N j0 = true).
  { apply straddles_low_spec. rewrite E0, E1. unfold alim_low. lra. }
  assert (Hh : straddles_high N j0 = true).
  { apply straddles_high_spec. rewrite E0, E1. unfold alim_high. lra. }
  rewrite percentile_extractor_unfold. cbn [fst snd].
  pose proof (scan_low_found max_siml siml env j0 Hj0 Hl) as El.
  pose proof (scan_high_found max_siml siml env j0 Hj0 Hh) as Eh.
  unfold half_width. rewrite El, Eh.
  split; [f_equal; ring|]. split; reflexivity.
Qed.

End EqualSlopes.

(** X22.  Simulated slopes that all agree give the half-width 0, for the first
    station and for every later one: both bounds are assigned, whatever they
    held before, and they are assigned one and the same value. *)
Theorem percentile_extractor_equal_slopes (max_siml : nat) (siml : list R)
    (v : R) (env : locals) :
  siml <> [] -> Forall (eq v) siml ->
  fst (percentile_extractor max_siml siml env) = Ok 0
  /\ exists b,
       temp_conf_int_low (snd (percentile_extractor max_siml siml env))
       = Some b
       /\ temp_conf_int_high (snd (percentile_extractor max_siml siml env))
          = Some b.
Proof.
  intros Hne Hall.
  destruct (equal_slopes_extract max_siml siml v Hne Hall env)
    as (H0 & Hlow & Hhigh).
  split; [exact H0|]. eexists. split; [exact Hlow|exact Hhigh].
Qed.

Lemma percentile_extractor_equal_slopes_witness :
  fst (percentile_extractor 3 [7; 7; 7] unbound) = Ok 0.
Proof.
  apply (percentile_extractor_equal_slopes 3 [7; 7; 7] 7 unbound).
  - discriminate.
  - repeat constructor.
Defined.

(** ** The station loop of [main_te] *)

Section MainTeFacts.
Context {L : Library}.
Variable interp1d_slinear : list R -> list R -> list R -> result (list R).

Lemma treat_nans_zero_row (x : list R) (y : list (option R))
    (xx yy_filled : list R) :
  treat_nans interp1d_slinear x y 0 0 = Ok (xx, yy_filled) -> xx = [].
Proof.
  intros H.
  destruct (treat_nans_xx interp1d_slinear x y 0 0 xx yy_filled H) as [-> _].
  reflexivity.
Qed.

Lemma main_te_loop_zero_row (b : bool) (f : R) (nlag : nat)
    (nstrip : list (nat * nat)) (frames : list DataFrame) (i j : nat)
    (rows : list te_row) :
  (i <= j < i + length frames)%nat ->
  nth_error nstrip j = Some (0%nat, 0%nat) ->
  main_te_loop interp1d_slinear b f nlag nstrip i frames <> Ok rows.
Proof.
  revert i rows; induction frames as [|d rest IH]; intros i rows Hj Hrow;
    [simpl in Hj; lia|].
  cbn [main_te_loop]. destruct (flatten_dframe d) as [x y].
  destruct (Nat.eq_dec j i) as [->|Hne].
  - unfold get_row. rewrite Hrow. cbn [bind fst snd].
    destruct (treat_nans interp1d_slinear x y 0 0) as [[xx yyf]|] eqn:Et;
      [|discriminate].
    rewrite (treat_nans_zero_row x y xx yyf Et). cbn [bind fst snd].
    rewrite main_te_station_short by (simpl; lia). discriminate.
  - destruct (get_row nstrip i) as [row|]; [|discriminate]. cbn [bind].
    destruct (treat_nans _ _ _ _ _) as [t|]; [|discriminate]. cbn [bind].
    destruct (main_te_station _ _ _ _ _) as [r|]; [|discriminate].
    cbn [bind].
    destruct (main_te_loop interp1d_slinear b f nlag nstrip (S i) rest)
      as [rs|] eqn:El; [|discriminate].
    exfalso. apply (IH (S i) rs); [simpl in Hj; lia|assumption|exact El].
Qed.

Lemma main_te_loop_length (b : bool) (f : R) (nlag : nat)
    (nstrip : list (nat * nat)) (frames : list DataFrame) (i : nat)
    (rows : list te_row) :
  main_te_loop interp1d_slinear b f nlag nstrip i frames = Ok rows ->
  length rows = length frames.
Proof.
  revert i rows; induction frames as [|d rest IH]; intros i rows.
  - intros H. now injection H as <-.
  - cbn [main_te_loop]. destruct (flatten_dframe d) as [x y].
    destruct (get_row nstrip i) as [row|]; [|discriminate]. cbn [bind].
    destruct (treat_nans _ _ _ _ _) as [t|]; [|discriminate]. cbn [bind].
    destruct (main_te_station _ _ _ _ _) as [r|]; [|discriminate].
    cbn [bind].
    destruct (main_te_loop interp1d_slinear b f nlag nstrip (S i) rest)
      as [rs|] eqn:El; [|discriminate].
    cbn [bind]. intros H. injection H as <-. cbn [length].
    f_equal. now apply (IH (S i)).
Qed.

(** X23.  [main_te] completes only for eight station files. With fewer files
    the table of values to discard cannot be filled and [IndexError] is raised
    before any station is read; from the ninth file on the row of the table is
    [[0, 0]], the slice [x[0:-0]] is empty, and the station cannot be
    processed. *)
Theorem main_te_needs_eight_stations (compute_cis : bool)
    (delta_tau_factor : R) (nlag_vals_to_use : nat)
    (frames : list DataFrame) :
  ((length frames < 8)%nat ->
   main_te interp1d_slinear compute_cis delta_tau_factor nlag_vals_to_use
     frames = Raise IndexError)
  /\ (forall rows,
        main_te interp1d_slinear compute_cis delta_tau_factor
          nlag_vals_to_use frames = Ok rows ->
        length frames = 8%nat /\ length rows = 8%nat).
Proof.
  split.
  - intros H. unfold main_te. now rewrite nans_to_strip_short.
  - intros rows H. unfold main_te in H.
    destruct (le_lt_dec 8 (length frames)) as [Hge|Hlt].
    + replace (length frames) with (8 + (length frames - 8))%nat in H at 1
        by lia.
      rewrite nans_to_strip_long in H. cbn [bind] in H.
      pose proof (main_te_loop_length _ _ _ _ _ _ _ H) as Hl.
      destruct (Nat.eq_dec (length frames) 8) as [E|NE]; [lia|].
      exfalso. revert H. apply (main_te_loop_zero_row _ _ _ _ _ 0 8); [lia|].
      replace (length frames - 8)%nat with (S (length frames - 9)) by lia.
      reflexivity.
    + rewrite nans_to_strip_short in H by assumption. discriminate.
Qed.

End MainTeFacts.

(** ** The station loop of [calc_trend] *)

Lemma run_bind_ok {L : Library} {A B : Type} (m : run A) (k : A -> run B)
    (st st' : calc_state) (b : B) :
  run_bind m k st = (Ok b, st') ->
  exists a st1, m st = (Ok a, st1) /\ k a st1 = (Ok b, st').
Proof.
  unfold run_bind. destruct (m st) as [[a|e] st1]; [eauto|discriminate].
Qed.

Lemma lift_ok {L : Library} {A : Type} (r : result A) (st st' : calc_state)
    (a : A) :
  lift r st = (Ok a, st') -> r = Ok a /\ st' = st.
Proof. unfold lift. intros H. injection H as -> ->. auto. Qed.

Lemma all_finite_map_Some (l : list R) : all_finite (map Some l) = Some l.
Proof.
  induction l as [|v l IH]; [reflexivity|].
  cbn [map all_finite]. now rewrite IH.
Qed.

Section CalcTrendFacts.
Context {L : Library}.
Variable interp1d_slinear : list R -> list R -> list R -> result (list R).

Lemma calc_trend_station_no_row (max_siml : nat) (nc : option Z)
    (sen_flag : Z) (nstrip : list (nat * nat)) (i : nat) (name : string)
    (dframe : DataFrame) (st : calc_state) :
  (length nstrip <= i)%nat ->
  fst (calc_trend_station interp1d_slinear max_siml nc sen_flag nstrip i
         name dframe st) = Raise IndexError.
Proof.
  intros H. unfold calc_trend_station, run_bind, say, lift.
  destruct (flatten_dframe dframe) as [x y].
  unfold get_row. replace (nth_error nstrip i) with (@None (nat * nat)).
  - reflexivity.
  - symmetry. now apply nth_error_None.
Qed.

Lemma calc_trend_loop_rows (max_siml : nat) (nc : option Z) (sen_flag : Z)
    (nstrip : list (nat * nat)) (stations : list (string * DataFrame))
    (i : nat) (st st' : calc_state) (rows : list (option R * R)) :
  calc_trend_loop interp1d_slinear max_siml nc sen_flag nstrip i stations st
  = (Ok rows, st') ->
  length rows = length stations
  /\ (i + length stations <= Nat.max i (length nstrip))%nat.
Proof.
  revert i st st' rows; induction stations as [|[name d] rest IH];
    intros i st st' rows H.
  - apply lift_ok in H. destruct H as [H _]. injection H as <-.
    simpl. lia.
  - cbn [calc_trend_loop] in H.
    apply run_bind_ok in H. destruct H as (r & st1 & Hs & H).
    apply run_bind_ok in H. destruct H as (rs & st2 & Hl & H).
    apply lift_ok in H. destruct H as [H _]. injection H as <-.
    destruct (IH _ _ _ _ Hl) as [Hlen Hidx].
    split; [cbn [length]; now f_equal|].
    destruct (le_lt_dec (length nstrip) i) as [Hge|Hlt].
    + pose proof (calc_trend_station_no_row max_siml nc sen_flag nstrip i
                    name d st Hge) as Hr.
      rewrite Hs in Hr. discriminate.
    + cbn [length]. lia.
Qed.

(** X24.  [calc_trend] completes for at most eight station files: its table of
    values to discard has eight rows whatever the number of files, and the
    ninth station raises [IndexError]. When it completes it has one row of
    results per station. *)
Theorem calc_trend_at_most_eight_stations (max_siml : option nat)
    (ncores_to_use : option Z) (sen_flag : Z)
    (stations : list (string * DataFrame)) (st st' : calc_state)
    (rows : list (option R * R)) :
  calc_trend interp1d_slinear max_siml ncores_to_use sen_flag stations st
  = (Ok rows, st') ->
  (length stations <= 8)%nat /\ length rows = length stations.
Proof.
  intros H. unfold calc_trend in H.
  apply run_bind_ok in H. destruct H as (nstrip & st1 & Hn & H).
  apply lift_ok in Hn. destruct Hn as [Hn ->].
  change 8%nat with (8 + 0)%nat in Hn. rewrite nans_to_strip_long in Hn.
  injection Hn as <-.
  apply calc_trend_loop_rows in H. destruct H as [Hl Hi].
  split; [|exact Hl]. simpl in Hi. lia.
Qed.

(** X25.  With the least-squares backend the confidence limit that
    [calc_trend] reports for a station is not the Monte Carlo half-width: when
    the station completes, the trend is 100 times the [Date] parameter of the
    least-squares fit of the filled record, and the limit is the mean distance
    of the fitted values from the lower end of the confidence interval of that
    parameter. Neither depends on the number of trials or on a simulated
    slope. *)
Theorem calc_trend_least_squares_limit (max_siml : nat)
    (ncores_to_use : option Z) (sen_flag : Z) (nstrip : list (nat * nat))
    (i : nat) (station_name : string) (dframe : DataFrame)
    (st st' : calc_state) (trend_century : option R) (ci_century : R) :
  sen_flag <> 1%Z -> sen_flag <> 2%Z ->
  calc_trend_station interp1d_slinear max_siml ncores_to_use sen_flag nstrip
    i station_name dframe st = (Ok (trend_century, ci_century), st') ->
  exists nstart nend xx yy_filled,
    get_row nstrip i = Ok (nstart, nend)
    /\ treat_nans interp1d_slinear (fst (flatten_dframe dframe))
         (snd (flatten_dframe dframe)) nstart nend = Ok (xx, yy_filled)
    /\ trend_century = Some (params_Date (OLS_fit xx yy_filled) * 100)
    /\ ci_century
       = np_mean (map (fun v => Rabs (v - fst (conf_int_Date
                                                 (OLS_fit xx yy_filled))))
                    (fittedvalues (OLS_fit xx yy_filled))).
Proof.
  intros H1 H2 H. unfold calc_trend_station in H.
  apply run_bind_ok in H. destruct H as (u & s1 & _ & H).
  destruct (flatten_dframe dframe) as [x y]. cbn [fst snd].
  apply run_bind_ok in H. destruct H as ([nstart nend] & s2 & Hrow & H).
  apply lift_ok in Hrow. destruct Hrow as [Hrow ->].
  apply run_bind_ok in H. destruct H as ([xx yy_filled] & s3 & Ht & H).
  apply lift_ok in Ht. destruct Ht as [Ht ->].
  apply run_bind_ok in H. destruct H as (detrend & s4 & _ & H).
  apply run_bind_ok in H. destruct H as (mc & s5 & _ & H).
  apply run_bind_ok in H. destruct H as ([[[tr ma] sa] sp] & s6 & _ & H).
  apply run_bind_ok in H. destruct H as (t95 & s7 & _ & H).
  apply run_bind_ok in H. destruct H as (res & s8 & Hres & H).
  apply run_bind_ok in H. destruct H as (u' & s9 & _ & H).
  apply lift_ok in H. destruct H as [H _]. injection H as ->.
  destruct (Z.eqb_spec sen_flag 1) as [|_]; [contradiction|].
  destruct (Z.eqb_spec sen_flag 2) as [|_]; [contradiction|].
  apply lift_ok in Hres. destruct Hres as [Hres _].
  unfold lstq_model in Hres. injection Hres as <- <-.
  exists nstart, nend, xx, yy_filled. cbn [fst snd] in *.
  repeat split; assumption.
Qed.

Lemma calc_trend_station_ols_completes (max_siml : nat) (nc : option Z)
    (sen_flag : Z) (nstrip : list (nat * nat)) (i : nat) (name : string)
    (dframe : DataFrame) (st : calc_state) (nstart nend : nat)
    (xx yy_filled detrend : list R) (t95 : R) :
  (forall n g, length (fst (np_random_random_sample n g)) = n) ->
  sen_flag <> 1%Z -> sen_flag <> 2%Z ->
  get_row nstrip i = Ok (nstart, nend) ->
  treat_nans interp1d_slinear (fst (flatten_dframe dframe))
    (snd (flatten_dframe dframe)) nstart nend = Ok (xx, yy_filled) ->
  np_subtract yy_filled (fittedvalues (OLS_fit xx yy_filled)) = Ok detrend ->
  length xx = length detrend ->
  (50 < length detrend)%nat ->
  fst (percentile_extractor max_siml
         (map (fun nsim =>
                 params_Date
                   (OLS_fit xx
                      (trial_series (amplitude_spectrum detrend)
                         (length detrend) nsim)))
            (seq 0 max_siml))
         (cs_locals st)) = Ok t95 ->
  exists st',
    calc_trend_station interp1d_slinear max_siml nc sen_flag nstrip i name
      dframe st
    = (Ok (Some (params_Date (OLS_fit xx yy_filled) * 100),
           np_mean (map (fun v => Rabs (v - fst (conf_int_Date
                                                   (OLS_fit xx yy_filled))))
                      (fittedvalues (OLS_fit xx yy_filled)))), st').
Proof.
  intros Hdraw H1 H2 Hrow Ht Hsub Htime Hlag Hext.
  unfold calc_trend_station, run_bind, say, lift.
  destruct (flatten_dframe dframe) as [x y]. cbn [fst snd] in Ht.
  rewrite Hrow. cbn [fst snd]. rewrite Ht. unfold lstq_model. rewrite Hsub.
  unfold call_monte_carlo_trend. cbn [cs_rng cs_stdout cs_locals].
  destruct (monte_carlo_trend_ols_completes max_siml 50 xx detrend nc sen_flag
              {| rng := cs_rng st; stdout := [] |} Hdraw H1 H2 Htime Hlag)
    as (ma & sa & sp & w' & ->).
  unfold call_percentile_extractor. cbn [cs_rng cs_stdout cs_locals].
  rewrite <- (map_map _ Some), all_finite_map_Some.
  destruct (percentile_extractor _ _ _) as [r env]. cbn [fst] in Hext.
  subst r.
  destruct (Z.eqb_spec sen_flag 1) as [|_]; [contradiction|].
  destruct (Z.eqb_spec sen_flag 2) as [|_]; [contradiction|].
  eexists. reflexivity.
Qed.
End CalcTrendFacts.

(** The stand-in generator draws the same numbers in every trial, so all
    surrogates of a run are the same series. *)
Lemma stand_in_trial_series (data_mag : list R) (npts nsim : nat) :
  trial_series (L := stand_in_library) data_mag npts nsim
  = trial_series (L := stand_in_library) data_mag npts 0.
Proof. reflexivity. Qed.

Lemma Forall_map_same {A : Type} (f : A -> R) (l : list A) (a0 : A) :
  (forall a, f a = f a0) -> Forall (eq (f a0)) (map f l).
Proof.
  intros H. apply Forall_forall. intros v Hv. apply in_map_iff in Hv.
  destruct Hv as [a [<- _]]. symmetry. apply H.
Qed.

Lemma calc_trend_station_six_years :
  exists res st',
    calc_trend_station (L := stand_in_library) fill_with_zeros 3 None 0
      [(7, 8)%nat] 0 "Amphitrite Point" six_years initial_state
    = (Ok res, st').
Proof.
  edestruct (calc_trend_station_ols_completes (L := stand_in_library)
               fill_with_zeros 3 None 0 [(7, 8)%nat] 0 "Amphitrite Point"
               six_years initial_state 7 8) as [st' Hst].
  - exact stand_in_draw_length.
  - lia.
  - lia.
  - reflexivity.
  - reflexivity.
  - reflexivity.
  - reflexivity.
  - rewrite length_map, length_combine, !length_map.
    unfold slice_strip, flatten_dframe. cbn. lia.
  - eapply equal_slopes_extract.
    + discriminate.
    + apply (Forall_map_same _ _ 0%nat). intros nsim.
      now rewrite (stand_in_trial_series _ _ nsim).
  - eexists. eexists. exact Hst.
Qed.

Lemma calc_trend_least_squares_limit_witness :
  exists trend_century ci_century st' nstart nend xx yy_filled,
    calc_trend_station (L := stand_in_library) fill_with_zeros 3 None 0
      [(7, 8)%nat] 0 "Amphitrite Point" six_years initial_state
    = (Ok (trend_century, ci_century), st')
    /\ get_row [(7, 8)%nat] 0 = Ok (nstart, nend)
    /\ treat_nans fill_with_zeros (fst (flatten_dframe six_years))
         (snd (flatten_dframe six_years)) nstart nend = Ok (xx, yy_filled)
    /\ trend_century
       = Some (params_Date (OLS_fit (Library := stand_in_library)
                              xx yy_filled) * 100).
Proof.
  destruct calc_trend_station_six_years as ([trend ci] & st' & Hst).
  destruct (calc_trend_least_squares_limit (L := stand_in_library)
              fill_with_zeros 3 None 0 [(7, 8)%nat] 0 "Amphitrite Point"
              six_years initial_state st' trend ci ltac:(lia) ltac:(lia) Hst)
    as (nstart & nend & xx & yy & Hrow & Ht & Htrend & _).
  exists trend, ci, st', nstart, nend, xx, yy. auto.
Defined.

Lemma calc_trend_one_station :
  exists rows st',
    calc_trend (L := stand_in_library) fill_with_zeros (Some 3%nat) None 0
      [("Amphitrite Point"%string, six_years)] initial_state
    = (Ok rows, st').
Proof.
  unfold calc_trend.
  change (nans_to_strip 8) with (nans_to_strip (8 + 0)).
  rewrite nans_to_strip_long.
  unfold run_bind at 1, lift at 1. cbn [calc_trend_loop repeat app].
  edestruct (calc_trend_station_ols_completes (L := stand_in_library)
               fill_with_zeros 3 None 0
               [(7, 8); (3, 8); (3, 8); (4, 36); (0, 8); (50, 9); (0, 8);
                (1, 8)]%nat 0 "Amphitrite Point"
               six_years initial_state 7 8) as [st' Hst].
  - exact stand_in_draw_length.
  - lia.
  - lia.
  - reflexivity.
  - reflexivity.
  - reflexivity.
  - reflexivity.
  - rewrite length_map, length_combine, !length_map.
    unfold slice_strip, flatten_dframe. cbn. lia.
  - eapply equal_slopes_extract.
    + discriminate.
    + apply (Forall_map_same _ _ 0%nat). intros nsim.
      now rewrite (stand_in_trial_series _ _ nsim).
  - unfold run_bind at 1. rewrite Hst.
    unfold run_bind, lift. eexists. eexists. reflexivity.
Qed.

Lemma calc_trend_at_most_eight_stations_witness :
  exists rows st',
    calc_trend (L := stand_in_library) fill_with_zeros (Some 3%nat) None 0
      [("Amphitrite Point"%string, six_years)] initial_state
    = (Ok rows, st')
    /\ (length [("Amphitrite Point"%string, six_years)] <= 8)%nat
    /\ length rows = length [("Amphitrite Point"%string, six_years)].
Proof.
  destruct calc_trend_one_station as (rows & st' & Hrun).
  exists rows, st'. split; [exact Hrun|].
  exact (calc_trend_at_most_eight_stations (L := stand_in_library)
           fill_with_zeros (Some 3%nat) None 0
           [("Amphitrite Point"%string, six_years)] initial_state st' rows
           Hrun).
Defined.

Lemma main_te_eight_stations :
  exists rows,
    main_te (L := stand_in_library) fill_with_zeros false 1 2
      (repeat six_years 8) = Ok rows.
Proof. eexists. reflexivity. Qed.

Lemma main_te_needs_eight_stations_witness :
  exists rows,
    main_te (L := stand_in_library) fill_with_zeros false 1 2
      (repeat six_years 8) = Ok rows
    /\ length (repeat six_years 8) = 8%nat /\ length rows = 8%nat.
Proof.
  destruct main_te_eight_stations as [rows Hrun].
  exists rows. split; [exact Hrun|].
  exact (proj2 (main_te_needs_eight_stations (L := stand_in_library)
                  fill_with_zeros false 1 2 (repeat six_years 8))
           rows Hrun).
Defined.
